(** * CartoType geometry kernel: fixed-point arithmetic, contours, traversal,
    geometry objects and data input streams.

    A shallow embedding of
      - [src/main/base/cartotype_arithmetic.h] (classes [TFixed],
        [TPointFixed] and [TLineFixed]),
      - [src/main/base/cartotype_path.h] (classes [MWritableContour],
        [TContour], [CContour] and [COutline], [TContour::Traverse] and
        [MPath::Traverse]),
      - [src/main/base/cartotype_geometry.h] (class [CGeneralGeometry]),
      - [src/main/base/cartotype_stream.h] (class [TDataInputStream]),
    followed by the properties proved of them. *)

From Stdlib Require Import ZArith Lia Bool.
From Stdlib Require Strings.Byte.
From stdpp Require Import base option list.

Local Open Scope Z_scope.

(** ** Machine integers

    [int32_t], [uint32_t] and [int64_t] values are integers of [Z]; every
    conversion to one of these types is written out as a reduction to two's
    complement. *)

Definition wrap32 (z : Z) : Z := (z + 2 ^ 31) mod 2 ^ 32 - 2 ^ 31.
Definition wrapu32 (z : Z) : Z := z mod 2 ^ 32.
Definition wrap64 (z : Z) : Z := (z + 2 ^ 63) mod 2 ^ 64 - 2 ^ 63.

Definition INT32_MIN : Z := - 2 ^ 31.
Definition INT32_MAX : Z := 2 ^ 31 - 1.

Definition is_int32 (z : Z) : Prop := INT32_MIN <= z <= INT32_MAX.

(** ** cartotype_arithmetic.h: class TFixed *)

Module Fixed.

(** [class TFixed { int32_t iValue; }] *)
Record TFixed : Type := Raw { iValue : Z }.

(** The values a [TFixed] can hold: [iValue] is an [int32_t]. *)
Definition valid (a : TFixed) : Prop := is_int32 (iValue a).

(** [int32_t RawValue() const { return iValue; }] *)
Definition RawValue (a : TFixed) : Z := iValue a.

(** The sign-separation prologue shared by [operator*=] and [operator/=]:
<<
    int s = 1;
    if (iValue < 0)    { iValue = -iValue; s = -1; }
    if (aB.iValue < 0) { aB.iValue = -aB.iValue; s = -s; }
>>
    It yields the two (32-bit) magnitudes and the sign [s]. *)
Definition separate_sign (iValue b : Z) : Z * Z * Z :=
  let s := 1 in
  let '(iValue, s) := if iValue <? 0 then (wrap32 (- iValue), -1) else (iValue, s) in
  let '(b, s) := if b <? 0 then (wrap32 (- b), - s) else (b, s) in
  (iValue, b, s).

(** [void operator*=(TFixed aB)], returning the new value of [*this]. *)
Definition mul_assign (this aB : TFixed) : TFixed :=
  if (iValue this =? 0) || (iValue aB =? 0x10000) then this
  else if iValue aB =? 0 then Raw 0
  else
    let '(v, b, s) := separate_sign (iValue this) (iValue aB) in
    if s >? 0
    then Raw (wrap32 (Z.shiftr (wrap64 (wrap64 (v * b) + 0x8000)) 16))
    else Raw (wrap32 (wrap64 (- Z.shiftr (wrap64 (wrap64 (v * b) + 0x8000)) 16))).

(** [TFixed operator*(TFixed aFixed) const { TFixed f = *this; f *= aFixed; return f; }] *)
Definition mul (a b : TFixed) : TFixed := mul_assign a b.

(** [void operator/=(TFixed aB)], returning the new value of [*this]. *)
Definition div_assign (this aB : TFixed) : TFixed :=
  if (iValue this =? 0) || (iValue aB =? 0x10000) then this
  else
    let '(v, b, s) := separate_sign (iValue this) (iValue aB) in
    let q :=
      if b =? 0
      then 0x7FFFFFFF
      else wrapu32 (Z.quot (wrap64 (wrap64 (Z.shiftl v 16) + Z.shiftr b 1)) b) in
    Raw (if s <? 0 then wrap32 (- wrap32 q) else wrap32 q).

(** [TFixed operator/(TFixed aFixed) const { TFixed f = *this; f /= aFixed; return f; }] *)
Definition div (a b : TFixed) : TFixed := div_assign a b.

(** The rounded magnitude product of the general path of [operator*=]. *)
Definition mul_magnitude (a b : Z) : Z := Z.shiftr (Z.abs a * Z.abs b + 0x8000) 16.

(** The sign of a product: [+1] when both raw values have the same sign. *)
Definition mul_sign (a b : Z) : Z := if Bool.eqb (a <? 0) (b <? 0) then 1 else -1.

(** *** The other members of [TFixed] *)

(** [TFixed(int aValue): iValue(aValue << 16)] *)
Definition of_int (aValue : Z) : TFixed := Raw (wrap32 (Z.shiftl aValue 16)).

(** [TFixed(int32_t aValue,int32_t aFractionalBits)]:
<<
    assert(aFractionalBits >= 0 && aFractionalBits <= 16);
    iValue = aValue << (16 - aFractionalBits);
>>
    A failed assertion has no result. *)
Definition of_fractional (aValue aFractionalBits : Z) : option TFixed :=
  if (aFractionalBits >=? 0) && (aFractionalBits <=? 16)
  then Some (Raw (wrap32 (Z.shiftl aValue (16 - aFractionalBits))))
  else None.

(** [TFixed(int32_t aValue,T64ths): iValue(aValue << 10)] *)
Definition of_64ths (aValue : Z) : TFixed := Raw (wrap32 (Z.shiftl aValue 10)).

(** [int32_t Rounded() const { return (iValue + 32768) >> 16; }] *)
Definition Rounded (a : TFixed) : Z := Z.shiftr (wrap32 (iValue a + 32768)) 16.

(** [int32_t Floor() const { return iValue >> 16; }] *)
Definition Floor (a : TFixed) : Z := Z.shiftr (iValue a) 16.

(** [int32_t Ceiling() const { return (iValue + 65535) >> 16; }] *)
Definition Ceiling (a : TFixed) : Z := Z.shiftr (wrap32 (iValue a + 65535)) 16.

(** [int32_t Rounded64ths() const { return (iValue + 512) >> 10; }] *)
Definition Rounded64ths (a : TFixed) : Z := Z.shiftr (wrap32 (iValue a + 512)) 10.

(** [TFixed operator+(TFixed aFixed) const] and [operator+=] *)
Definition add (a b : TFixed) : TFixed := Raw (wrap32 (iValue a + iValue b)).

(** [TFixed operator-(TFixed aFixed) const] and [operator-=] *)
Definition sub (a b : TFixed) : TFixed := Raw (wrap32 (iValue a - iValue b)).

(** [TFixed operator-() const { TFixed f; f.iValue = -iValue; return f; }] *)
Definition neg (a : TFixed) : TFixed := Raw (wrap32 (- iValue a)).

(** [TFixed operator*(int32_t aInt) const] and [operator*=(int32_t)] *)
Definition mul_int (a : TFixed) (aInt : Z) : TFixed := Raw (wrap32 (iValue a * aInt)).

(** [TFixed operator/(int32_t aInt) const] and [operator/=(int32_t)]: the
    division of [int32_t] truncates towards zero. Dividing by zero has no
    result, and neither has dividing the least 32-bit integer by -1, whose
    quotient is not an [int32_t]. *)
Definition div_int (a : TFixed) (aInt : Z) : option TFixed :=
  if aInt =? 0 then None
  else if (iValue a =? INT32_MIN) && (aInt =? -1) then None
  else Some (Raw (Z.quot (iValue a) aInt)).

(** [int32_t IntegerPart() const { return iValue >> 16; }] *)
Definition IntegerPart (a : TFixed) : Z := Z.shiftr (iValue a) 16.

(** [TFixed FractionalPart() const { TFixed f = *this; f.iValue &= 0x0000FFFF; return f; }] *)
Definition FractionalPart (a : TFixed) : TFixed := Raw (Z.land (iValue a) 0x0000FFFF).

(** [TFixed Abs() const { if (iValue >= 0) return *this; return -*this; }] *)
Definition Abs (a : TFixed) : TFixed := if iValue a >=? 0 then a else neg a.

(** [bool IsZero() const] and [bool NonZero() const] *)
Definition IsZero (a : TFixed) : bool := iValue a =? 0.
Definition NonZero (a : TFixed) : bool := negb (iValue a =? 0).

(** The rounded magnitude quotient of the general path of [operator/=]. *)
Definition div_magnitude (a b : Z) : Z :=
  (Z.abs a * 2 ^ 16 + Z.abs b / 2) / Z.abs b.

(** [class TPointFixed { TFixed iX; TFixed iY; }] *)
Record TPointFixed : Type := PointFixed { iX : TFixed; iY : TFixed }.

(** [void operator+=(const TPointFixed& aPoint) { iX += aPoint.iX; iY += aPoint.iY; }] *)
Definition point_add (p aPoint : TPointFixed) : TPointFixed :=
  PointFixed (add (iX p) (iX aPoint)) (add (iY p) (iY aPoint)).

(** [void operator-=(const TPointFixed& aPoint) { iX -= aPoint.iX; iY -= aPoint.iY; }] *)
Definition point_sub (p aPoint : TPointFixed) : TPointFixed :=
  PointFixed (sub (iX p) (iX aPoint)) (sub (iY p) (iY aPoint)).

(** [void operator*=(const TFixed& aFixed) { iX *= aFixed; iY *= aFixed; }] *)
Definition point_scale (p : TPointFixed) (aFixed : TFixed) : TPointFixed :=
  PointFixed (mul_assign (iX p) aFixed) (mul_assign (iY p) aFixed).

(** [TPoint Rounded64ths() const] and [TPoint Rounded() const], as the pair
    of coordinates of the [TPoint]. *)
Definition point_Rounded64ths (p : TPointFixed) : Z * Z :=
  (Rounded64ths (iX p), Rounded64ths (iY p)).
Definition point_Rounded (p : TPointFixed) : Z * Z := (Rounded (iX p), Rounded (iY p)).

Section VectorLength.
(** [TFixed VectorLengthHelper() const] is declared but not defined in the
    sources. *)
Variable VectorLengthHelper : TPointFixed -> TFixed.

(** [TFixed TPointFixed::VectorLength() const]:
<<
    if (iX.RawValue() == 0) return iY.RawValue() >= 0 ? iY : -iY;
    if (iY.RawValue() == 0) return iX.RawValue() >= 0 ? iX : -iX;
    return VectorLengthHelper();
>> *)
Definition VectorLength (p : TPointFixed) : TFixed :=
  if RawValue (iX p) =? 0 then (if RawValue (iY p) >=? 0 then iY p else neg (iY p))
  else if RawValue (iY p) =? 0 then (if RawValue (iX p) >=? 0 then iX p else neg (iX p))
  else VectorLengthHelper p.

(** [class TLineFixed { TPointFixed iStart; TPointFixed iEnd; mutable TFixed iLength; }] *)
Record TLineFixed : Type := LineFixed {
  iStart : TPointFixed;
  iEnd : TPointFixed;
  iLength : TFixed
}.

(** [TLineFixed(const TPointFixed& aStart,const TPointFixed& aEnd)]: the
    cached length starts as the raw value -1, "not yet computed". *)
Definition Line (aStart aEnd : TPointFixed) : TLineFixed :=
  LineFixed aStart aEnd (Raw (-1)).

(** [TFixed Length() const]: computes and stores the length when the stored
    one is negative; returns it with the line as it is left. *)
Definition Length (l : TLineFixed) : TFixed * TLineFixed :=
  if RawValue (iLength l) <? 0 then
    let p := point_sub (iEnd l) (iStart l) in
    let len := VectorLength p in
    (len, LineFixed (iStart l) (iEnd l) len)
  else (iLength l, l).

(** [TLineFixed Reverse() const] *)
Definition LineReverse (l : TLineFixed) : TLineFixed :=
  LineFixed (iEnd l) (iStart l) (iLength l).
End VectorLength.

End Fixed.

(** ** cartotype_path.h: contours and their traversal *)

Module Path.

(** Modelled from the spec: [TPointType], [TPoint] and [TOutlinePoint] are
    declared in cartotype_types.h, which is not among the sources. An outline
    point is "a coordinate plus a tag: on-curve, quadratic-control, or
    cubic-control"; coordinates are [int32_t]. *)
Inductive TPointType : Type := OnCurve | Quadratic | Cubic.

#[global] Instance TPointType_eq_dec : EqDecision TPointType.
Proof. solve_decision. Defined.

Record TPoint : Type := Point { iX : Z; iY : Z }.

#[global] Instance TPoint_eq_dec : EqDecision TPoint.
Proof. solve_decision. Defined.

(** [class TOutlinePoint: public TPoint]; the coercion is the conversion to
    the base class that [TPoint v = iPoint[0]] and [LineTo( *point )] perform. *)
Record TOutlinePoint : Type := OutlinePoint { base :> TPoint; iType : TPointType }.

#[global] Instance TOutlinePoint_eq_dec : EqDecision TOutlinePoint.
Proof. solve_decision. Defined.

(** Modelled from the spec: [TPoint::operator!=] compares the two coordinates. *)
Definition TPoint_ne (a b : TPoint) : bool :=
  negb ((iX a =? iX b) && (iY a =? iY b)).

(** Modelled from the spec: [TOutlinePoint::operator==] compares the
    coordinates and the tag. *)
Definition TOutlinePoint_eq (a b : TOutlinePoint) : bool :=
  (iX a =? iX b) && (iY a =? iY b) && bool_decide (iType a = iType b).

(** [(a + b) / 2] on [int32_t]: the sum is reduced to 32 bits and the
    division truncates towards zero. *)
Definition half_sum (a b : Z) : Z := Z.quot (wrap32 (a + b)) 2.

(** [class TContour]: a view of [iPoints] points starting at [iPoint]. *)
Record TContour : Type := Contour {
  iPoint : list TOutlinePoint;
  iClosed : bool;
  iMayHaveCurves : bool
}.

(** [size_t Points() const { return iPoints; }] *)
Definition Points (c : TContour) : Z := Z.of_nat (length (iPoint c)).

(** [class CContour]: [std::vector<TOutlinePoint> iPoint; bool iClosed = false;] *)
Record CContour : Type := OwnedContour {
  cPoint : list TOutlinePoint;
  cClosed : bool
}.

(** [operator TContour() const { return TContour(iPoint.data(),iPoint.size(),iClosed); }] *)
Definition to_TContour (c : CContour) : TContour :=
  Contour (cPoint c) (cClosed c) true.

(** [CContour::AppendPoint(const TOutlinePoint& aPoint)]:
<<
    if (iPoint.size() && aPoint.iType == TPointType::OnCurve && aPoint == iPoint.back())
        return;
    iPoint.push_back(aPoint);
>> *)
Definition AppendPoint (c : CContour) (aPoint : TOutlinePoint) : CContour :=
  match last (cPoint c) with
  | Some back =>
      if bool_decide (iType aPoint = OnCurve) && TOutlinePoint_eq aPoint back
      then c
      else OwnedContour (cPoint c ++ [aPoint]) (cClosed c)
  | None => OwnedContour (cPoint c ++ [aPoint]) (cClosed c)
  end.

(** [void Reverse() { std::reverse(iPoint.begin(),iPoint.end()); }] *)
Definition Reverse (c : CContour) : CContour :=
  OwnedContour (reverse (cPoint c)) (cClosed c).

(** Whether a point sequence holds an on-curve point immediately followed by
    an equal point. *)
Fixpoint has_repeated_on_curve (l : list TOutlinePoint) : bool :=
  match l with
  | a :: (b :: _) as rest =>
      (bool_decide (iType b = OnCurve) && bool_decide (a = b)) || has_repeated_on_curve rest
  | _ => false
  end.

(** What is left of a point sequence when every on-curve point that equals
    the point just before it in the sequence is taken out; [keep_after prev l]
    does so for the points [l] that follow the point [prev]. *)
Fixpoint keep_after (prev : TOutlinePoint) (l : list TOutlinePoint) : list TOutlinePoint :=
  match l with
  | [] => []
  | b :: rest =>
      if bool_decide (iType b = OnCurve) && bool_decide (prev = b)
      then keep_after b rest
      else b :: keep_after b rest
  end.

Definition without_repeated_on_curve (l : list TOutlinePoint) : list TOutlinePoint :=
  match l with
  | [] => []
  | a :: rest => a :: keep_after a rest
  end.

(** [class COutline]: [std::vector<CContour> iContour]. *)
Definition COutline : Type := list CContour.

(** [enum class TClipType] *)
Inductive TClipType : Type :=
  Inside | MayIntersectAndHasNoCurves | MayIntersectAndHasCurves.

#[global] Instance TClipType_eq_dec : EqDecision TClipType.
Proof. solve_decision. Defined.

(** The calls a traverser receives. *)
Inductive TPrimitive : Type :=
  | MoveTo (aPoint : TPoint)
  | LineTo (aPoint : TPoint)
  | QuadraticTo (aPoint1 aPoint2 : TPoint)
  | CubicTo (aPoint1 aPoint2 aPoint3 : TPoint).

#[global] Instance TPrimitive_eq_dec : EqDecision TPrimitive.
Proof. solve_decision. Defined.

(** *** The loops of [TContour::Traverse]

    [point] and [limit] are offsets from [iPoint]. Reading outside the array
    has no result; so does running out of [fuel]. *)
Section TraverseLoops.
Variable iPoint : list TOutlinePoint.
Variable limit : Z.
Variable v_start : TPoint.

Definition deref (point : Z) : option TOutlinePoint :=
  if point <? 0 then None else iPoint !! Z.to_nat point.

(** The inner [while (point < limit)] of the [Quadratic] case, with the
    [QuadraticTo( *v_control,v_start); return;] that follows it. Its
    [continue] resumes this same loop; a cubic point ends the traversal. *)
Fixpoint quadratic_loop (fuel : nat) (v_control : TPoint) (point : Z)
  : option (list TPrimitive) :=
  match fuel with
  | O => None
  | S fuel =>
      if point <? limit then
        let point := point + 1 in
        cur_point ← deref point;
        match iType cur_point with
        | OnCurve =>
            rest ← quadratic_loop fuel v_control point;
            Some (QuadraticTo v_control (base cur_point) :: rest)
        | Quadratic =>
            let v_middle :=
              Point (half_sum (iX v_control) (iX cur_point))
                    (half_sum (iY v_control) (iY cur_point)) in
            rest ← quadratic_loop fuel (base cur_point) point;
            Some (QuadraticTo v_control v_middle :: rest)
        | Cubic => Some []
        end
      else Some [QuadraticTo v_control v_start]
  end.

(** The outer [while (point < limit)]. The flag of the result tells whether
    the loop ran to its end ([true]) or the function returned from inside
    it ([false]). *)
Fixpoint main_loop (fuel : nat) (point : Z) : option (list TPrimitive * bool) :=
  match fuel with
  | O => None
  | S fuel =>
      if point <? limit then
        let point := point + 1 in
        p ← deref point;
        match iType p with
        | OnCurve =>
            '(rest, finished) ← main_loop fuel point;
            Some (LineTo (base p) :: rest, finished)
        | Quadratic =>
            out ← quadratic_loop fuel (base p) point;
            Some (out, false)
        | Cubic =>
            if (point + 1 >? limit) || negb (bool_decide (iType p = Cubic))
            then Some ([], false)
            else
              vec1 ← deref point;
              vec2 ← deref (point + 1);
              let point := point + 2 in
              if point <=? limit then
                p3 ← deref point;
                '(rest, finished) ← main_loop fuel point;
                Some (CubicTo (base vec1) (base vec2) (base p3) :: rest, finished)
              else Some ([CubicTo (base vec1) (base vec2) v_start], false)
        end
      else Some ([], true)
  end.
End TraverseLoops.

(** The part of [TContour::Traverse] from [size_t last = iPoints - 1] on. *)
Definition Traverse_body (c : TContour) : option (list TPrimitive) :=
  let last := Points c - 1 in
  let limit := last in
  first ← deref (iPoint c) 0;
  p_last ← deref (iPoint c) last;
  let v_start := base first in
  let v_last := base p_last in
  let point := 0 in
  let '(v_start, v_last, limit, point) :=
    if bool_decide (iType first = Quadratic) then
      if bool_decide (iType p_last = OnCurve)
      then (v_last, v_last, limit - 1, point - 1)
      else
        let v_start :=
          Point (half_sum (iX v_start) (iX v_last))
                (half_sum (iY v_start) (iY v_last)) in
        (v_start, v_start, limit, point - 1)
    else (v_start, v_last, limit, point) in
  '(out, finished) ← main_loop (iPoint c) limit v_start (S (length (iPoint c))) point;
  Some (MoveTo v_start :: out ++
        (if finished && iClosed c && TPoint_ne v_last v_start
         then [LineTo v_start] else [])).

(** [TContour::Traverse(aTraverser,nullptr)]: the guard on the number of
    points and the assertion on the first point, then the body. A failed
    assertion has no result. *)
Definition Traverse_unclipped (c : TContour) : option (list TPrimitive) :=
  if Points c <? 2 then Some []
  else
    first ← deref (iPoint c) 0;
    if bool_decide (iType first = Cubic) then None
    else Traverse_body c.

(** [MPath::Traverse(aTraverser,nullptr)] on a [COutline]. *)
Definition COutline_Traverse (o : COutline) : option (list TPrimitive) :=
  @concat TPrimitive <$> mapM (fun c => Traverse_unclipped (to_TContour c)) o.

Section Traverse.
(** [TRect], [TRect::IsMaximal], [MPath::ClipType] and
    [TContour::ClippedContour] are declared but not defined in the sources. *)
Variable TRect : Type.
Variable IsMaximal : TRect -> bool.
Variable ClipType : TContour -> TRect -> TClipType.
Variable ClippedContour : TContour -> TRect -> COutline.

(** [template<typename MTraverser> void TContour::Traverse(MTraverser&
    aTraverser,const TRect* aClip) const], returning the calls made on
    [aTraverser] in order. *)
Definition Traverse (c : TContour) (aClip : option TRect) : option (list TPrimitive) :=
  if Points c <? 2 then Some []
  else
    first ← deref (iPoint c) 0;
    if bool_decide (iType first = Cubic) then None
    else
      match aClip with
      | Some clip =>
          if negb (IsMaximal clip) && negb (bool_decide (ClipType c clip = Inside))
          then COutline_Traverse (ClippedContour c clip)
          else Traverse_body c
      | None => Traverse_body c
      end.
(** [template<typename MPathTraverser> void MPath::Traverse(MPathTraverser&
    aTraverser,const TRect* aClip) const]; the path is given by the contours
    that [GetContour(i,c)] yields for [i] from 0 to [Contours()-1]:
<<
    if (aClip && aClip->IsMaximal())
        aClip = nullptr;
    for (size_t i = 0; i < n; i++) { GetContour(i,c); c.Traverse(aTraverser,aClip); }
>> *)
Definition MPath_Traverse (aPath : list TContour) (aClip : option TRect)
  : option (list TPrimitive) :=
  let aClip :=
    match aClip with
    | Some clip => if IsMaximal clip then None else Some clip
    | None => None
    end in
  @concat TPrimitive <$> mapM (fun c => Traverse c aClip) aPath.

(** [MPath::Traverse(MPathTraverser& aTraverser,const TRect& aClip) const]:
<<
    const TRect* clip = aClip.IsMaximal() ? nullptr : &aClip;
>>  and the same loop. *)
Definition MPath_Traverse_rect (aPath : list TContour) (aClip : TRect)
  : option (list TPrimitive) :=
  let clip := if IsMaximal aClip then None else Some aClip in
  @concat TPrimitive <$> mapM (fun c => Traverse c clip) aPath.
End Traverse.

(** *** Writable contours *)

(** [MWritableContour::Offset(int32_t aDx,int32_t aDy)], on the points that
    [Point()] and [Points()] give ([CContour] declares an [Offset] of its
    own, which is not defined in the sources):
<<
    while (p < q) { p->iX += aDx; p->iY += aDy; p++; }
>> *)
Definition Offset (points : list TOutlinePoint) (aDx aDy : Z) : list TOutlinePoint :=
  (fun p : TOutlinePoint =>
     OutlinePoint (Point (wrap32 (iX p + aDx)) (wrap32 (iY p + aDy))) (iType p))
    <$> points.

(** [void ReduceSizeTo(size_t aPoints) { assert(aPoints <= iPoint.size());
    iPoint.resize(aPoints); }]; a failed assertion has no result. *)
Definition ReduceSizeTo (c : CContour) (aPoints : nat) : option CContour :=
  if bool_decide (aPoints <= length (cPoint c))%nat
  then Some (OwnedContour (take aPoints (cPoint c)) (cClosed c))
  else None.

(** [void SetClosed(bool aClosed) override { iClosed = aClosed; }] *)
Definition SetClosed (c : CContour) (aClosed : bool) : CContour :=
  OwnedContour (cPoint c) aClosed.

(** [void AppendPointEvenIfSame(const TOutlinePoint& aPoint) { iPoint.push_back(aPoint); }] *)
Definition AppendPointEvenIfSame (c : CContour) (aPoint : TOutlinePoint) : CContour :=
  OwnedContour (cPoint c ++ [aPoint]) (cClosed c).

(** [void AppendPoints(const TOutlinePoint* aPoint,size_t aPoints)
    { iPoint.insert(iPoint.end(),aPoint,aPoint + aPoints); }] *)
Definition AppendPoints (c : CContour) (aPoint : list TOutlinePoint) : CContour :=
  OwnedContour (cPoint c ++ aPoint) (cClosed c).

(** [explicit CContour(const TContour& aContour): iClosed(aContour.Closed())
    { AppendPoints(aContour.Point(),aContour.Points()); }] *)
Definition of_TContour (aContour : TContour) : CContour :=
  AppendPoints (OwnedContour [] (iClosed aContour)) (iPoint aContour).

(** [void InsertPoint(const TOutlinePoint& aPoint,size_t aIndex)
    { iPoint.insert(iPoint.begin() + aIndex,aPoint); }]; an index beyond the
    end has no result. *)
Definition InsertPoint (c : CContour) (aPoint : TOutlinePoint) (aIndex : nat)
  : option CContour :=
  if bool_decide (aIndex <= length (cPoint c))%nat
  then Some (OwnedContour (take aIndex (cPoint c) ++ aPoint :: drop aIndex (cPoint c))
                          (cClosed c))
  else None.

(** [void InsertPoints(const TOutlinePoint* aPoint,size_t aPoints,size_t aIndex)
    { iPoint.insert(iPoint.begin() + aIndex,aPoint,aPoint + aPoints); }] *)
Definition InsertPoints (c : CContour) (aPoint : list TOutlinePoint) (aIndex : nat)
  : option CContour :=
  if bool_decide (aIndex <= length (cPoint c))%nat
  then Some (OwnedContour (take aIndex (cPoint c) ++ aPoint ++ drop aIndex (cPoint c))
                          (cClosed c))
  else None.

(** [void Clear() { iPoint.clear(); iClosed = false; }] *)
Definition Clear (c : CContour) : CContour := OwnedContour [] false.

(** [void SetSizeToZero() { iPoint.clear(); }] *)
Definition SetSizeToZero (c : CContour) : CContour := OwnedContour [] (cClosed c).

(** [void ReplacePoint(size_t aIndex,const TOutlinePoint& aPoint)
    { iPoint[aIndex] = aPoint; }]; an index out of range has no result. *)
Definition ReplacePoint (c : CContour) (aIndex : nat) (aPoint : TOutlinePoint)
  : option CContour :=
  if bool_decide (aIndex < length (cPoint c))%nat
  then Some (OwnedContour (<[aIndex := aPoint]> (cPoint c)) (cClosed c))
  else None.

(** [void ReplaceLastPoint(const TOutlinePoint& aPoint) { iPoint.back() = aPoint; }];
    no result on an empty contour. *)
Definition ReplaceLastPoint (c : CContour) (aPoint : TOutlinePoint) : option CContour :=
  match cPoint c with
  | [] => None
  | _ :: _ =>
      Some (OwnedContour (<[pred (length (cPoint c)) := aPoint]> (cPoint c)) (cClosed c))
  end.

(** [void RemovePoint(size_t aIndex) { iPoint.erase(iPoint.begin() + aIndex); }];
    an index out of range has no result. *)
Definition RemovePoint (c : CContour) (aIndex : nat) : option CContour :=
  if bool_decide (aIndex < length (cPoint c))%nat
  then Some (OwnedContour (take aIndex (cPoint c) ++ drop (S aIndex) (cPoint c)) (cClosed c))
  else None.

(** [void RemovePoints(size_t aIndex,size_t aCount)
    { iPoint.erase(iPoint.begin() + aIndex, iPoint.begin() + aIndex + aCount); }];
    a range that does not lie in the contour has no result. *)
Definition RemovePoints (c : CContour) (aIndex aCount : nat) : option CContour :=
  if bool_decide (aIndex + aCount <= length (cPoint c))%nat
  then Some (OwnedContour (take aIndex (cPoint c) ++ drop (aIndex + aCount) (cPoint c))
                          (cClosed c))
  else None.

(** [void AppendPointFixed(const TPointFixed& aPoint,TPointType aPointType)
    { iPoint.emplace_back(aPoint.iX.Rounded64ths(),aPoint.iY.Rounded64ths(),aPointType); }] *)
Definition AppendPointFixed (c : CContour) (aPoint : Fixed.TPointFixed)
    (aPointType : TPointType) : CContour :=
  OwnedContour
    (cPoint c ++ [OutlinePoint (Point (Fixed.Rounded64ths (Fixed.iX aPoint))
                                      (Fixed.Rounded64ths (Fixed.iY aPoint)))
                               aPointType])
    (cClosed c).

(** [const TOutlinePoint& Point(size_t aIndex) const { return iPoint[aIndex]; }] *)
Definition CContour_Point (c : CContour) (aIndex : nat) : option TOutlinePoint :=
  cPoint c !! aIndex.

(** *** COutline *)

(** [size_t Contours() const override { return iContour.size(); }] *)
Definition Contours (o : COutline) : nat := length o.

(** [void GetContour(size_t aIndex,TContour& aContour) const override
    { aContour = iContour[aIndex]; }], through [CContour::operator TContour];
    no result when the index is out of range. *)
Definition GetContour (o : COutline) (aIndex : nat) : option TContour :=
  to_TContour <$> o !! aIndex.

(** [void AppendContour(CContour&& aContour) { iContour.push_back(std::move(aContour)); }] *)
Definition AppendContour_move (o : COutline) (aContour : CContour) : COutline :=
  o ++ [aContour].

(** [CContour& AppendContour() { iContour.emplace_back(); return iContour.back(); }] *)
Definition AppendContour_new (o : COutline) : COutline := o ++ [OwnedContour [] false].

(** A write to the contour that [AppendContour()] or [iContour.back()] refers to. *)
Definition update_back (f : CContour -> CContour) (o : COutline) : COutline :=
  match last o with
  | Some c => <[pred (length o) := f c]> o
  | None => o
  end.

(** [void AppendContour(const TContour& aContour)]:
<<
    auto& c = AppendContour();
    c.SetClosed(aContour.Closed());
    c.AppendPoints(aContour.Point(),aContour.Points());
>> *)
Definition AppendContour (o : COutline) (aContour : TContour) : COutline :=
  let o := AppendContour_new o in
  let o := update_back (fun c => SetClosed c (iClosed aContour)) o in
  update_back (fun c => AppendPoints c (iPoint aContour)) o.

(** [void RemoveData(std::vector<CContour>& aDest)
    { aDest = std::move(iContour); iContour.clear(); }]: the new [aDest] and
    the outline that is left. *)
Definition RemoveData (o : COutline) : list CContour * COutline := (o, []).

(** The contours that [GetContour] yields for indexes [0 .. Contours()-1]. *)
Definition COutline_contours (o : COutline) : list TContour := to_TContour <$> o.

(** Whether a call on the traverser is a [MoveTo]. *)
Definition is_MoveTo (p : TPrimitive) : bool :=
  match p with MoveTo _ => true | _ => false end.

(** The assertion of [TContour::Traverse] fails exactly on a contour of two
    or more points whose first point is a cubic control point. *)
Definition starts_with_cubic (c : TContour) : Prop :=
  2 <= Points c /\ exists first, head (iPoint c) = Some first /\ iType first = Cubic.

(** The pieces a contour is made of after its first point, as the outer loop
    consumes them. *)
Inductive segment : Type :=
  | Line (p : TOutlinePoint)
  | Curve (c1 c2 p : TOutlinePoint).

Definition segment_points (s : segment) : list TOutlinePoint :=
  match s with
  | Line p => [p]
  | Curve c1 c2 p => [c1; c2; p]
  end.

Definition segment_ok (s : segment) : Prop :=
  match s with
  | Line p => iType p = OnCurve
  | Curve c1 c2 _ => iType c1 = Cubic /\ iType c2 = Cubic
  end.

Definition segment_primitive (s : segment) : TPrimitive :=
  match s with
  | Line p => LineTo p
  | Curve c1 c2 p => CubicTo c1 c2 p
  end.

Definition segments_points (segs : list segment) : list TOutlinePoint :=
  concat (segment_points <$> segs).

(** The primitives that draw a quadratic curve. *)
Definition is_QuadraticTo (p : TPrimitive) : Prop :=
  match p with QuadraticTo _ _ => True | _ => False end.
End Path.

(** ** cartotype_geometry.h: class CGeneralGeometry *)

Module Geometry.

Import Path.

(** Modelled from the spec: [TResult] and [KErrorNone] are declared in
    cartotype_errors.h, which is not among the sources. A result is an
    integer code, zero meaning success. *)
Definition TResult : Type := Z.
Definition KErrorNone : TResult := 0.

Section GeneralGeometry.
(** [enum class TCoordType] is declared in a header that is not among the
    sources: an enumeration, compared with [==], one of whose values is
    [TCoordType::Map]. *)
Variable TCoordType : Type.
Context `{EqDecision TCoordType}.
Variable Map : TCoordType.

(** The coordinates of [point_t] are floating-point numbers; nothing below
    computes with them, so their type is left open. *)
Variable coord : Type.

(** [point_t], "derived from or trivially convertible to TOutlinePointFP". *)
Record point_t : Type := PointFP { fX : coord; fY : coord; fType : TPointType }.

(** [using contour_t = std::vector<point_t>] *)
Definition contour_t : Type := list point_t.

(** The data members of [CGeneralGeometry]. *)
Record CGeneralGeometry : Type := Geom {
  m_contour_array : list contour_t;
  m_coord_type : TCoordType;
  m_closed : bool
}.

(** [std::vector<contour_t> m_contour_array = std::vector<contour_t>(1);
    TCoordType m_coord_type = TCoordType::Map; bool m_closed = false;] *)
Definition Create : CGeneralGeometry := Geom [[]] Map false.

(** [explicit CGeneralGeometry(TCoordType aCoordType,bool aClosed = false)] *)
Definition CreateTyped (aCoordType : TCoordType) (aClosed : bool) : CGeneralGeometry :=
  Geom [[]] aCoordType aClosed.

(** [size_t ContourCount() const { return m_contour_array.size(); }] *)
Definition ContourCount (g : CGeneralGeometry) : nat := length (m_contour_array g).

(** [void Clear()]: [resize(1)] keeps the first contour or creates an empty
    one, then [m_contour_array[0].resize(0)] empties it. *)
Definition Clear (g : CGeneralGeometry) : CGeneralGeometry :=
  let resized := match m_contour_array g with [] => [[]] | c :: _ => [c] end in
  Geom (<[0%nat := []]> resized) Map false.

(** [bool IsEmpty() const { return m_contour_array[0].empty(); }];
    no result when there is no contour 0. *)
Definition IsEmpty (g : CGeneralGeometry) : option bool :=
  c ← m_contour_array g !! 0%nat;
  Some (bool_decide (c = [])).

(** The reads of [m_contour_array[0]] in [Bounds()]: the first point of
    contour 0 when it has one; no result when there is no contour 0. *)
Definition Bounds_start (g : CGeneralGeometry) : option (option point_t) :=
  c ← m_contour_array g !! 0%nat;
  Some (head c).

(** [void SetClosed(bool aClosed) { m_closed = aClosed; }] *)
Definition SetClosed (g : CGeneralGeometry) (aClosed : bool) : CGeneralGeometry :=
  Geom (m_contour_array g) (m_coord_type g) aClosed.

(** A write through [point_t& Point(size_t aContourIndex,size_t aPointIndex)];
    no result when an index is out of range. *)
Definition SetPoint (g : CGeneralGeometry) (aContourIndex aPointIndex : nat) (p : point_t)
  : option CGeneralGeometry :=
  c ← m_contour_array g !! aContourIndex;
  _ ← c !! aPointIndex;
  Some (Geom (<[aContourIndex := <[aPointIndex := p]> c]> (m_contour_array g))
             (m_coord_type g) (m_closed g)).

(** [void AppendPoint(const point_t& aPoint) { m_contour_array.back().push_back(aPoint); }];
    no result when there is no last contour. *)
Definition AppendPoint (g : CGeneralGeometry) (aPoint : point_t) : option CGeneralGeometry :=
  back ← last (m_contour_array g);
  Some (Geom (<[pred (length (m_contour_array g)) := back ++ [aPoint]]> (m_contour_array g))
             (m_coord_type g) (m_closed g)).

(** [void BeginContour() { if (!m_contour_array.back().empty()) m_contour_array.emplace_back(); }] *)
Definition BeginContour (g : CGeneralGeometry) : option CGeneralGeometry :=
  back ← last (m_contour_array g);
  Some (if bool_decide (back = []) then g
        else Geom (m_contour_array g ++ [[]]) (m_coord_type g) (m_closed g)).

(** [void Reverse()]: reverses the contours, then the points of each. *)
Definition Reverse (g : CGeneralGeometry) : CGeneralGeometry :=
  Geom (reverse <$> reverse (m_contour_array g)) (m_coord_type g) (m_closed g).

(** [CGeneralGeometry(const MPath& aPath,TCoordType aCoordType,bool aClosed)]:
    for each contour of the path, [BeginContour()] and then a [push_back]
    on the last contour for each of its points. [of_point] is the
    conversion [point_t(p)]. *)
Section FromPath.
Variable of_point : TOutlinePoint -> point_t.

Definition copy_contour (g : CGeneralGeometry) (contour : TContour)
  : option CGeneralGeometry :=
  g ← BeginContour g;
  foldl (fun g p => g ← g; AppendPoint g (of_point p)) (Some g) (iPoint contour).

Definition CreateFromPath (aPath : list TContour) (aCoordType : TCoordType)
    (aClosed : bool) : option CGeneralGeometry :=
  foldl (fun g contour => g ← g; copy_contour g contour)
        (Some (CreateTyped aCoordType aClosed)) aPath.
End FromPath.

(** [CGeneralGeometry(const TRectFP& aRect,TCoordType aCoordType)]: four
    [AppendPoint]s, the corners of the rectangle. *)
Definition CreateFromRect (aTopLeft aBottomLeft aBottomRight aTopRight : point_t)
    (aCoordType : TCoordType) : option CGeneralGeometry :=
  g ← AppendPoint (CreateTyped aCoordType true) aTopLeft;
  g ← AppendPoint g aBottomLeft;
  g ← AppendPoint g aBottomRight;
  AppendPoint g aTopRight.

(** [CGeneralGeometry(const point_t& aPoint,TCoordType aCoordType)] *)
Definition CreateFromPoint (aPoint : point_t) (aCoordType : TCoordType)
  : option CGeneralGeometry :=
  AppendPoint (CreateTyped aCoordType false) aPoint.

(** [TWritableCoordSet]: the x and y coordinates of the points of one
    contour, which the conversion function may overwrite in place. *)
Definition TWritableCoordSet : Type := list (coord * coord).

(** [TWritableCoordSet CoordSet(size_t aContourIndex)] *)
Definition CoordSet (c : contour_t) : TWritableCoordSet :=
  (fun p => (fX p, fY p)) <$> c.

(** The effect on a contour of the writes made through its coordinate set:
    coordinates change, the number of points and their types do not. *)
Fixpoint write_coords (c : contour_t) (cs : TWritableCoordSet) : contour_t :=
  match c, cs with
  | p :: c, (x, y) :: cs => PointFP x y (fType p) :: write_coords c cs
  | _, _ => c
  end.

(** Writes made through the set that the non-const
    [CoordSet(size_t aContourIndex)] returns; no result when the index is out
    of range. *)
Definition SetCoords (g : CGeneralGeometry) (aContourIndex : nat) (cs : TWritableCoordSet)
  : option CGeneralGeometry :=
  c ← m_contour_array g !! aContourIndex;
  Some (Geom (<[aContourIndex := write_coords c cs]> (m_contour_array g))
             (m_coord_type g) (m_closed g)).

Section ConvertCoords.
(** [std::function<TResult(TWritableCoordSet& aCoordSet)>]: a function
    with a state of its own, [St], that returns a result and the
    coordinates it leaves in the set. *)
Variable St : Type.
Variable aConvertFunction : St -> TWritableCoordSet -> TResult * TWritableCoordSet * St.

(** [for (size_t i = 0; i < contour_count; i++)], with [n] the number of
    iterations left. *)
Fixpoint ConvertCoords_loop (n : nat) (i : nat) (arr : list contour_t) (s : St)
  : option (TResult * list contour_t * St) :=
  match n with
  | O => Some (KErrorNone, arr, s)
  | S n =>
      c ← arr !! i;
      let '(error, cs, s) := aConvertFunction s (CoordSet c) in
      let arr := <[i := write_coords c cs]> arr in
      if negb (error =? 0) then Some (error, arr, s)
      else ConvertCoords_loop n (S i) arr s
  end.

(** [TResult ConvertCoords(TCoordType aToCoordType,std::function<...> aConvertFunction)] *)
Definition ConvertCoords (g : CGeneralGeometry) (aToCoordType : TCoordType) (s : St)
  : option (TResult * CGeneralGeometry * St) :=
  if bool_decide (m_coord_type g = aToCoordType) then Some (KErrorNone, g, s)
  else
    let contour_count := ContourCount g in
    '(error, arr, s) ← ConvertCoords_loop contour_count 0 (m_contour_array g) s;
    Some (error, Geom arr aToCoordType (m_closed g), s).
End ConvertCoords.

(** The states a geometry object can be in: those the constructors make,
    and those the member functions make of them. *)
Inductive reachable : CGeneralGeometry -> Prop :=
  | reach_Create : reachable Create
  | reach_CreateTyped t cl : reachable (CreateTyped t cl)
  | reach_CreateFromPath of_point path t cl g :
      CreateFromPath of_point path t cl = Some g -> reachable g
  | reach_CreateFromRect p1 p2 p3 p4 t g :
      CreateFromRect p1 p2 p3 p4 t = Some g -> reachable g
  | reach_CreateFromPoint p t g :
      CreateFromPoint p t = Some g -> reachable g
  | reach_Clear g : reachable g -> reachable (Clear g)
  | reach_SetClosed g cl : reachable g -> reachable (SetClosed g cl)
  | reach_SetPoint g i j p g' :
      reachable g -> SetPoint g i j p = Some g' -> reachable g'
  | reach_SetCoords g i cs g' :
      reachable g -> SetCoords g i cs = Some g' -> reachable g'
  | reach_AppendPoint g p g' :
      reachable g -> AppendPoint g p = Some g' -> reachable g'
  | reach_BeginContour g g' :
      reachable g -> BeginContour g = Some g' -> reachable g'
  | reach_Reverse g : reachable g -> reachable (Reverse g)
  | reach_ConvertCoords (St : Type) f g t (s : St) r g' s' :
      reachable g -> ConvertCoords St f g t s = Some (r, g', s') -> reachable g'.

(** The conversion function [f] instrumented to record, in call order, the
    coordinate sets it is invoked on and the results it returns. *)
Definition logged {St : Type}
    (f : St -> TWritableCoordSet -> TResult * TWritableCoordSet * St)
  : St * list (TWritableCoordSet * TResult) -> TWritableCoordSet
    -> TResult * TWritableCoordSet * (St * list (TWritableCoordSet * TResult)) :=
  fun '(s, log) cs => let '(r, cs', s') := f s cs in (r, cs', (s', log ++ [(cs, r)])).

(** The conversion function [f] instrumented to record, in call order, the
    coordinates it leaves in the set it is invoked on and the result it
    returns. *)
Definition traced {St : Type}
    (f : St -> TWritableCoordSet -> TResult * TWritableCoordSet * St)
  : St * list (TWritableCoordSet * TResult) -> TWritableCoordSet
    -> TResult * TWritableCoordSet * (St * list (TWritableCoordSet * TResult)) :=
  fun '(s, log) cs => let '(r, cs', s') := f s cs in (r, cs', (s', log ++ [(cs', r)])).

(** [TCoordType CoordType() const { return m_coord_type; }] *)
Definition CoordType (g : CGeneralGeometry) : TCoordType := m_coord_type g.

(** [bool IsClosed() const { return m_closed; }] *)
Definition IsClosed (g : CGeneralGeometry) : bool := m_closed g.

(** [size_t PointCount(size_t aContourIndex) const
    { return m_contour_array[aContourIndex].size(); }];
    no result when the index is out of range. *)
Definition PointCount (g : CGeneralGeometry) (aContourIndex : nat) : option nat :=
  c ← m_contour_array g !! aContourIndex;
  Some (length c).

(** A read through [const point_t& Point(size_t aContourIndex,size_t aPointIndex) const];
    no result when an index is out of range. *)
Definition GetPoint (g : CGeneralGeometry) (aContourIndex aPointIndex : nat)
  : option point_t :=
  c ← m_contour_array g !! aContourIndex;
  c !! aPointIndex.

Section ToOutline.
(** [int32_t Round(double aValue)] computes on floating-point numbers; the
    conversion below only passes coordinates through it. *)
Variable Round : coord -> Z.

(** The body of the inner loop of [operator COutline() const], up to the
    call of [AppendPoint]:
<<
    TOutlinePointFP q { point };
    p.iX = Round(q.iX); p.iY = Round(q.iY); p.iType = q.iType;
>> *)
Definition rounded_point (point : point_t) : TOutlinePoint :=
  OutlinePoint (Path.Point (Round (fX point)) (Round (fY point))) (fType point).

(** [operator COutline() const]:
<<
    for (const auto& contour : m_contour_array)
        {
        CContour& c = outline.AppendContour();
        c.SetClosed(m_closed);
        for (const auto& point: contour) { ... c.AppendPoint(p); }
        }
>> *)
Definition to_COutline (g : CGeneralGeometry) : COutline :=
  foldl (fun outline contour =>
           let outline := AppendContour_new outline in
           let outline := update_back (fun c => Path.SetClosed c (m_closed g)) outline in
           foldl (fun outline point =>
                    update_back (fun c => Path.AppendPoint c (rounded_point point)) outline)
                 outline contour)
        [] (m_contour_array g).
End ToOutline.

(** Two contours with the same number of points and the same point types. *)
Definition same_shape (c c' : contour_t) : Prop :=
  length c' = length c /\ fType <$> c' = fType <$> c.

(** The states a geometry object can be in when [Reverse] is never used. *)
Inductive built : CGeneralGeometry -> Prop :=
  | built_Create : built Create
  | built_CreateTyped t cl : built (CreateTyped t cl)
  | built_CreateFromPath of_point path t cl g :
      CreateFromPath of_point path t cl = Some g -> built g
  | built_CreateFromRect p1 p2 p3 p4 t g :
      CreateFromRect p1 p2 p3 p4 t = Some g -> built g
  | built_CreateFromPoint p t g :
      CreateFromPoint p t = Some g -> built g
  | built_Clear g : built g -> built (Clear g)
  | built_SetClosed g cl : built g -> built (SetClosed g cl)
  | built_SetPoint g i j p g' :
      built g -> SetPoint g i j p = Some g' -> built g'
  | built_SetCoords g i cs g' :
      built g -> SetCoords g i cs = Some g' -> built g'
  | built_AppendPoint g p g' :
      built g -> AppendPoint g p = Some g' -> built g'
  | built_BeginContour g g' :
      built g -> BeginContour g = Some g' -> built g'
  | built_ConvertCoords (St : Type) f g t (s : St) r g' s' :
      built g -> ConvertCoords St f g t s = Some (r, g', s') -> built g'.
End GeneralGeometry.

Arguments PointFP {coord}.
Arguments fX {coord}.
Arguments fY {coord}.
Arguments fType {coord}.
Arguments Geom {TCoordType coord}.
Arguments m_contour_array {TCoordType coord}.
Arguments m_coord_type {TCoordType coord}.
Arguments m_closed {TCoordType coord}.
Arguments Create {TCoordType} Map {coord}.
Arguments CreateTyped {TCoordType coord}.
Arguments ContourCount {TCoordType coord}.
Arguments Clear {TCoordType} Map {coord}.
Arguments IsEmpty {TCoordType coord}.
Arguments Bounds_start {TCoordType coord}.
Arguments SetClosed {TCoordType coord}.
Arguments SetPoint {TCoordType coord}.
Arguments SetCoords {TCoordType coord}.
Arguments AppendPoint {TCoordType coord}.
Arguments BeginContour {TCoordType coord}.
Arguments Reverse {TCoordType coord}.
Arguments copy_contour {TCoordType coord}.
Arguments CreateFromPath {TCoordType coord}.
Arguments CreateFromRect {TCoordType coord}.
Arguments CreateFromPoint {TCoordType coord}.
Arguments CoordSet {coord}.
Arguments write_coords {coord}.
Arguments ConvertCoords_loop {coord St}.
Arguments ConvertCoords {TCoordType _ coord St}.
Arguments reachable {TCoordType _} Map {coord}.
Arguments logged {coord St}.
Arguments traced {coord St}.
Arguments CoordType {TCoordType coord}.
Arguments IsClosed {TCoordType coord}.
Arguments PointCount {TCoordType coord}.
Arguments GetPoint {TCoordType coord}.
Arguments rounded_point {coord}.
Arguments to_COutline {TCoordType coord}.
Arguments built {TCoordType _} Map {coord}.
Arguments same_shape {coord}.

End Geometry.

(** ** cartotype_stream.h: class TDataInputStream *)

Module Stream.

(** The value of a [uint8_t]. *)
Definition u8 (b : Byte.byte) : Z := Z.of_N (Byte.to_N b).

(** Conversions to [uint16_t] and [uint64_t]. *)
Definition wrapu16 (z : Z) : Z := z mod 2 ^ 16.
Definition wrapu64 (z : Z) : Z := z mod 2 ^ 64.

(** The data members of [TDataInputStream] that its inline functions use.
    [iData] is the pointer of that name: nothing for [nullptr], which it is
    until a block has been read, and otherwise the [iDataBytes] bytes at it
    that are still to be read, of the block that the last
    [MInputStream::Read] returned. [iDataOffset] is the distance
    [iData - iDataStart], zero when both are [nullptr]. *)
Record TDataInputStream : Type := DataInputStream {
  iData : option (list Byte.byte);
  iDataOffset : Z;
  iDataPosition : Z
}.

(** [size_t iDataBytes]: no byte is cached while [iData] is [nullptr]. *)
Definition iDataBytes (s : TDataInputStream) : nat :=
  match iData s with Some data => length data | None => 0%nat end.

(** [TDataInputStream(MInputStream& aInputStream)], with the default member
    initialisers [iData = nullptr], [iDataBytes = 0], [iDataPosition = 0] and
    [iDataStart = nullptr]. *)
Definition Create : TDataInputStream := DataInputStream None 0 0.

(** [void Set(MInputStream& aInputStream)]: the same state. *)
Definition Set_input (s : TDataInputStream) : TDataInputStream :=
  DataInputStream None 0 0.

(** [iData += n; iDataBytes -= n;] *)
Definition advance (s : TDataInputStream) (n : nat) : TDataInputStream :=
  DataInputStream (drop n <$> iData s) (iDataOffset s + Z.of_nat n) (iDataPosition s).

(** [int64_t Position() const { return iDataPosition + (int64_t)(iData - iDataStart); }] *)
Definition Position (s : TDataInputStream) : Z :=
  wrap64 (iDataPosition s + iDataOffset s).

(** [const uint8_t* Read(size_t aBytes)]: the [aBytes] bytes that the
    returned pointer refers to, or nothing when the function returns
    [nullptr]; that is when it takes its last line, and also when
    [iData - aBytes] is [nullptr], for [aBytes = 0] on a stream whose [iData]
    is [nullptr]:
<<
    if (iDataBytes >= aBytes)
        { iData += aBytes; iDataBytes -= aBytes; return iData - aBytes; }
    return nullptr;
>> *)
Definition Read (s : TDataInputStream) (aBytes : nat)
  : option (list Byte.byte) * TDataInputStream :=
  if bool_decide (aBytes <= iDataBytes s)%nat
  then (take aBytes <$> iData s, advance s aBytes)
  else (None, s).

Section Helpers.
(** [ReadUint8Helper], [ReadUint16BigEndianHelper], [ReadUint32BigEndianHelper]
    and [ReadUint40BigEndianHelper] are declared but not defined in the
    sources; each returns a value, sets [aError] and may change the stream. *)
Variable ReadUint8Helper : TDataInputStream -> Z * Geometry.TResult * TDataInputStream.
Variable ReadUint16BigEndianHelper :
  TDataInputStream -> Z * Geometry.TResult * TDataInputStream.
Variable ReadUint32BigEndianHelper :
  TDataInputStream -> Z * Geometry.TResult * TDataInputStream.
Variable ReadUint40BigEndianHelper :
  TDataInputStream -> Z * Geometry.TResult * TDataInputStream.

(** [uint8_t ReadUint8(TResult& aError)]: the value, [aError] and the
    stream afterwards:
<<
    if (iDataBytes >= 1) { aError = 0; iDataBytes--; return *iData++; }
    return ReadUint8Helper(aError);
>> *)
Definition ReadUint8 (s : TDataInputStream) : Z * Geometry.TResult * TDataInputStream :=
  match iData s with
  | Some (b0 :: _) => (u8 b0, 0, advance s 1)
  | _ => ReadUint8Helper s
  end.

(** [uint16_t ReadUint16BigEndian(TResult& aError)]:
<<
    if (iDataBytes >= 2)
        { aError = 0; iDataBytes -= 2; iData += 2;
          return uint16_t(iData[-2] << 8 | iData[-1]); }
    return ReadUint16BigEndianHelper(aError);
>> *)
Definition ReadUint16BigEndian (s : TDataInputStream)
  : Z * Geometry.TResult * TDataInputStream :=
  match iData s with
  | Some (b0 :: b1 :: _) =>
      (wrapu16 (Z.lor (Z.shiftl (u8 b0) 8) (u8 b1)), 0, advance s 2)
  | _ => ReadUint16BigEndianHelper s
  end.

(** [uint32_t ReadUint32BigEndian(TResult& aError)]:
<<
    if (iDataBytes >= 4)
        { aError = 0; iDataBytes -= 4; iData += 4;
          return uint32_t((uint32_t)iData[-4] << 24 | (uint32_t)iData[-3] << 16 |
                          iData[-2] << 8 | iData[-1]); }
    return ReadUint32BigEndianHelper(aError);
>> *)
Definition ReadUint32BigEndian (s : TDataInputStream)
  : Z * Geometry.TResult * TDataInputStream :=
  match iData s with
  | Some (b0 :: b1 :: b2 :: b3 :: _) =>
      (wrapu32
         (Z.lor (Z.lor (Z.lor (wrapu32 (Z.shiftl (u8 b0) 24))
                              (wrapu32 (Z.shiftl (u8 b1) 16)))
                       (Z.shiftl (u8 b2) 8))
                (u8 b3)),
       0, advance s 4)
  | _ => ReadUint32BigEndianHelper s
  end.

(** [uint64_t ReadUint40BigEndian(TResult& aError)]:
<<
    if (iDataBytes >= 5)
        { aError = 0; iDataBytes -= 5; iData += 5;
          return uint64_t((uint64_t)iData[-5] << 32 | (uint64_t)iData[-4] << 24 |
                          (uint64_t)iData[-3] << 16 | iData[-2] << 8 | iData[-1]); }
    return ReadUint40BigEndianHelper(aError);
>> *)
Definition ReadUint40BigEndian (s : TDataInputStream)
  : Z * Geometry.TResult * TDataInputStream :=
  match iData s with
  | Some (b0 :: b1 :: b2 :: b3 :: b4 :: _) =>
      (wrapu64
         (Z.lor (Z.lor (Z.lor (Z.lor (wrapu64 (Z.shiftl (u8 b0) 32))
                                     (wrapu64 (Z.shiftl (u8 b1) 24)))
                              (wrapu64 (Z.shiftl (u8 b2) 16)))
                       (Z.shiftl (u8 b3) 8))
                (u8 b4)),
       0, advance s 5)
  | _ => ReadUint40BigEndianHelper s
  end.

(** [virtual int64_t ReadFilePos(TResult& aError) { return ReadUint32BigEndian(aError); }] *)
Definition ReadFilePos (s : TDataInputStream) : Z * Geometry.TResult * TDataInputStream :=
  let '(v, aError, s) := ReadUint32BigEndian s in (wrap64 v, aError, s).

(** [virtual int32_t FilePosBytes() const { return 4; }] *)
Definition FilePosBytes : Z := 4.
End Helpers.

End Stream.

(** * Properties *)

(** ** Fixed-point arithmetic *)

Section FixedProperties.
Import Fixed.

(** Conversions to a machine type leave a value of that type unchanged. *)
Lemma wrap32_id z : is_int32 z -> wrap32 z = z.
Proof.
  unfold is_int32, INT32_MIN, INT32_MAX, wrap32. intros Hz.
  rewrite Z.mod_small by lia. lia.
Qed.

Lemma wrap64_id z : - 2 ^ 63 <= z < 2 ^ 63 -> wrap64 z = z.
Proof.
  unfold wrap64. intros Hz. rewrite Z.mod_small by lia. lia.
Qed.

Lemma wrapu32_id z : 0 <= z < 2 ^ 32 -> wrapu32 z = z.
Proof. unfold wrapu32. intros Hz. apply Z.mod_small; lia. Qed.

Lemma roundtrip_magnitude a b :
  0 <= a -> 2 ^ 16 < b ->
  ((a * b + 2 ^ 15) / 2 ^ 16 * 2 ^ 16 + b / 2) / b = a.
Proof.
  intros Ha Hb.
  set (p := (a * b + 2 ^ 15) / 2 ^ 16).
  assert (Hp1 : p * 2 ^ 16 <= a * b + 2 ^ 15).
  { subst p. pose proof (Z.mul_div_le (a * b + 2 ^ 15) (2 ^ 16)). lia. }
  assert (Hp2 : a * b + 2 ^ 15 < p * 2 ^ 16 + 2 ^ 16).
  { subst p. pose proof (Z.mul_succ_div_gt (a * b + 2 ^ 15) (2 ^ 16)). lia. }
  assert (Hh1 : 2 * (b / 2) <= b) by (apply Z.mul_div_le; lia).
  assert (Hh2 : b < 2 * (b / 2) + 2).
  { pose proof (Z.mul_succ_div_gt b 2). lia. }
  symmetry. apply Z.div_unique_pos with (r := p * 2 ^ 16 + b / 2 - a * b); nia.
Qed.

Lemma roundtrip_magnitude_unit a :
  0 <= a -> ((a * 2 ^ 16 + 2 ^ 15) / 2 ^ 16 * 2 ^ 16 + 2 ^ 16 / 2) / 2 ^ 16 = a.
Proof.
  intros Ha.
  assert (E : (a * 2 ^ 16 + 2 ^ 15) / 2 ^ 16 = a).
  { symmetry. apply Z.div_unique_pos with (r := 2 ^ 15); lia. }
  rewrite E. symmetry. apply Z.div_unique_pos with (r := 2 ^ 15); [lia|].
  change (2 ^ 16 / 2) with (2 ^ 15). lia.
Qed.

Lemma mul_magnitude_eq a b :
  mul_magnitude a b = (Z.abs a * Z.abs b + 2 ^ 15) / 2 ^ 16.
Proof. unfold mul_magnitude. now rewrite Z.shiftr_div_pow2 by lia. Qed.

Lemma mul_magnitude_nonneg a b : 0 <= mul_magnitude a b.
Proof. rewrite mul_magnitude_eq. apply Z.div_pos; lia. Qed.

Lemma mul_magnitude_bound a b :
  is_int32 a -> is_int32 b -> mul_magnitude a b < 2 ^ 47.
Proof.
  unfold is_int32, INT32_MIN, INT32_MAX. intros Ha Hb.
  rewrite mul_magnitude_eq. apply Z.div_lt_upper_bound; [lia|]. nia.
Qed.

Lemma separate_sign_spec a b :
  INT32_MIN < a <= INT32_MAX -> INT32_MIN < b <= INT32_MAX ->
  separate_sign a b = (Z.abs a, Z.abs b, mul_sign a b).
Proof.
  unfold INT32_MIN, INT32_MAX, separate_sign, mul_sign. intros Ha Hb.
  destruct (Z.ltb_spec a 0), (Z.ltb_spec b 0); cbn [Bool.eqb];
    rewrite ?wrap32_id by (unfold is_int32, INT32_MIN, INT32_MAX; lia);
    repeat f_equal; lia.
Qed.

Lemma mul_raw a b :
  INT32_MIN < iValue a <= INT32_MAX -> INT32_MIN < iValue b <= INT32_MAX ->
  mul a b = Raw (wrap32 (mul_sign (iValue a) (iValue b) * mul_magnitude (iValue a) (iValue b))).
Proof.
  destruct a as [a], b as [b]; cbn [iValue]. intros Ha Hb.
  unfold mul, mul_assign; cbn [iValue].
  destruct (Z.eqb_spec a 0) as [->|Ha0]; cbn [orb].
  { rewrite mul_magnitude_eq, Z.abs_0, Z.mul_0_l.
    change ((0 + 2 ^ 15) / 2 ^ 16) with 0. now rewrite Z.mul_0_r. }
  destruct (Z.eqb_spec b 0x10000) as [->|Hb1].
  { f_equal. rewrite mul_magnitude_eq.
    replace ((Z.abs a * Z.abs 65536 + 2 ^ 15) / 2 ^ 16) with (Z.abs a).
    2:{ apply Z.div_unique_pos with (r := 2 ^ 15); lia. }
    unfold mul_sign. change (65536 <? 0) with false.
    unfold INT32_MIN, INT32_MAX in Ha.
    destruct (Z.ltb_spec a 0); cbn [Bool.eqb];
      rewrite wrap32_id by (unfold is_int32, INT32_MIN, INT32_MAX; lia); lia. }
  destruct (Z.eqb_spec b 0) as [->|Hb0].
  { rewrite mul_magnitude_eq, Z.abs_0, Z.mul_0_r.
    change ((0 + 2 ^ 15) / 2 ^ 16) with 0. now rewrite Z.mul_0_r. }
  rewrite separate_sign_spec by assumption.
  assert (HM : mul_magnitude a b < 2 ^ 47).
  { apply mul_magnitude_bound; unfold is_int32; lia. }
  pose proof (mul_magnitude_nonneg a b) as HM0.
  unfold INT32_MIN, INT32_MAX, is_int32 in *.
  assert (Hprod : 0 <= Z.abs a * Z.abs b < 2 ^ 62) by nia.
  rewrite (wrap64_id (Z.abs a * Z.abs b)) by lia.
  rewrite (wrap64_id (Z.abs a * Z.abs b + 32768)) by lia.
  fold (mul_magnitude a b).
  unfold mul_sign. destruct (Bool.eqb (a <? 0) (b <? 0)).
  - change (1 >? 0) with true. cbv iota. do 2 f_equal. lia.
  - change (-1 >? 0) with false. cbv iota. rewrite wrap64_id by lia. do 2 f_equal; lia.
Qed.

Lemma div_mul_exact a b :
  INT32_MIN < iValue a <= INT32_MAX -> INT32_MIN < iValue b <= INT32_MAX ->
  0x10000 <= Z.abs (iValue b) ->
  mul_magnitude (iValue a) (iValue b) <= INT32_MAX ->
  div (mul a b) b = a.
Proof.
  intros Ha Hb Hb1 HM. rewrite (mul_raw a b Ha Hb).
  destruct a as [a], b as [b]; cbn [iValue] in *.
  pose proof (mul_magnitude_nonneg a b) as HM0.
  assert (Hge : Z.abs a <= mul_magnitude a b).
  { rewrite mul_magnitude_eq. apply Z.div_le_lower_bound; [lia|]. nia. }
  assert (Hs : mul_sign a b = 1 \/ mul_sign a b = -1).
  { unfold mul_sign. destruct (Bool.eqb _ _); auto. }
  unfold INT32_MIN, INT32_MAX in *.
  rewrite wrap32_id by (unfold is_int32, INT32_MIN, INT32_MAX; destruct Hs as [-> | ->]; lia).
  set (M := mul_magnitude a b) in *.
  unfold div, div_assign; cbn [iValue].
  destruct (Z.eqb_spec (mul_sign a b * M) 0) as [E0|N0]; cbn [orb].
  { rewrite E0. f_equal. destruct Hs as [E | E]; rewrite E in E0; lia. }
  destruct (Z.eqb_spec b 0x10000) as [->|Nb].
  { f_equal. subst M. rewrite mul_magnitude_eq.
    replace ((Z.abs a * Z.abs 65536 + 2 ^ 15) / 2 ^ 16) with (Z.abs a).
    2:{ apply Z.div_unique_pos with (r := 2 ^ 15); lia. }
    unfold mul_sign. change (65536 <? 0) with false.
    destruct (Z.ltb_spec a 0); cbn [Bool.eqb]; lia. }
  rewrite separate_sign_spec
    by (unfold INT32_MIN, INT32_MAX; destruct Hs as [E | E]; rewrite ?E; lia).
  replace (Z.abs (mul_sign a b * M)) with M by (destruct Hs as [-> | ->]; lia).
  destruct (Z.eqb_spec (Z.abs b) 0) as [Eb|_]; [lia|].
  rewrite Z.shiftl_mul_pow2, Z.shiftr_div_pow2 by lia.
  change (2 ^ 1) with 2.
  assert (Hhalf : 0 <= Z.abs b / 2 < 2 ^ 31).
  { split; [apply Z.div_pos; lia | apply Z.div_lt_upper_bound; lia]. }
  rewrite (wrap64_id (M * 2 ^ 16)) by lia.
  rewrite wrap64_id by lia.
  rewrite Z.quot_div_nonneg by lia.
  assert (Eq : (M * 2 ^ 16 + Z.abs b / 2) / Z.abs b = Z.abs a).
  { subst M. rewrite mul_magnitude_eq.
    destruct (Z.eq_dec (Z.abs b) (2 ^ 16)) as [E | NE].
    - rewrite E. apply roundtrip_magnitude_unit; lia.
    - apply roundtrip_magnitude; lia. }
  rewrite Eq. rewrite wrapu32_id by lia.
  rewrite (wrap32_id (Z.abs a)) by (unfold is_int32, INT32_MIN, INT32_MAX; lia).
  f_equal.
  assert (Ha0 : a <> 0).
  { intros ->. apply N0. subst M. rewrite mul_magnitude_eq, Z.abs_0, Z.mul_0_l.
    change ((0 + 2 ^ 15) / 2 ^ 16) with 0. lia. }
  unfold mul_sign in *.
  destruct (Z.ltb_spec a 0), (Z.ltb_spec b 0); cbn [Bool.eqb] in *;
    repeat match goal with
    | |- context [?x * ?y <? 0] => destruct (Z.ltb_spec (x * y) 0); try lia
    end; cbn [Bool.eqb].
  all: rewrite ?wrap32_id by (unfold is_int32, INT32_MIN, INT32_MAX; lia).
  all: try change (-1 <? 0) with true; try change (1 <? 0) with false; cbv iota; lia.
Qed.

(** The operators on a few values: 1.5 * 0.5 = 0.75, -1.5 * 0.5 = -0.75,
    0.75 / 0.5 = 1.5, and a product and a quotient that are rounded. *)
Example mul_exact : mul (Raw 0x18000) (Raw 0x8000) = Raw 0xC000.
Proof. reflexivity. Qed.

Example mul_negative : mul (Raw (-0x18000)) (Raw 0x8000) = Raw (-0xC000).
Proof. reflexivity. Qed.

Example div_exact : div (Raw 0xC000) (Raw 0x8000) = Raw 0x18000.
Proof. reflexivity. Qed.

Example mul_rounds_up : mul (Raw 3) (Raw 0x8000) = Raw 2.
Proof. reflexivity. Qed.

Example div_rounds_up : div (Raw 0x10000) (Raw 0x30000) = Raw 0x5555.
Proof. reflexivity. Qed.

(** C4, as stated, fails for a zero dividend: the test [iValue == 0] at the
    head of [operator/=] returns before the divisor is looked at, so 0 / 0 is
    0 and not 0x7FFFFFFF. *)
Lemma div_zero_by_zero_not_saturated :
  RawValue (div (Raw 0) (Raw 0)) = 0 /\
  RawValue (div (Raw 0) (Raw 0)) <>
    (if iValue (Raw 0) <? 0 then - 0x7FFFFFFF else 0x7FFFFFFF).
Proof. split; [reflexivity | discriminate]. Qed.

(** C4 (amended): dividing a non-zero [TFixed] by a [TFixed] whose raw value
    is zero, with [operator/] or [operator/=], yields the raw value
    0x7FFFFFFF, negated exactly when the dividend is negative; dividing zero
    by zero yields zero. *)
Theorem div_by_zero_saturates (a : TFixed) :
  let saturated :=
    if iValue a =? 0 then 0
    else if iValue a <? 0 then - 0x7FFFFFFF else 0x7FFFFFFF in
  RawValue (div a (Raw 0)) = saturated /\
  RawValue (div_assign a (Raw 0)) = saturated.
Proof.
  destruct a as [a]. cbv zeta. unfold div, div_assign, RawValue, separate_sign.
  cbn [iValue]. change (0 =? 65536) with false. rewrite orb_false_r.
  destruct (Z.eqb_spec a 0) as [->|Ha]; [split; reflexivity|].
  change (0 <? 0) with false. cbv iota.
  destruct (Z.ltb_spec a 0); split; reflexivity.
Qed.

(** C5, as stated, fails when the rounded product does not fit 32 bits:
    256.0 * 256.0 has raw value 0, the formula gives 2^32. *)
Lemma mul_overflow_differs_from_formula :
  valid (Raw 0x1000000) /\
  RawValue (mul (Raw 0x1000000) (Raw 0x1000000)) = 0 /\
  mul_sign 0x1000000 0x1000000 * mul_magnitude 0x1000000 0x1000000 = 2 ^ 32 /\
  RawValue (mul (Raw 0x1000000) (Raw 0x1000000)) <>
    mul_sign 0x1000000 0x1000000 * mul_magnitude 0x1000000 0x1000000.
Proof.
  unfold valid, is_int32, INT32_MIN, INT32_MAX; cbn [iValue].
  repeat split; try reflexivity; try discriminate.
Qed.

(** C5 (amended): for [TFixed] values a and b other than the least 32-bit
    integer, the raw value of a*b is s * ((|a| * |b| + 0x8000) >> 16) reduced
    to 32 bits, where s is +1 when a and b have the same sign and -1
    otherwise; it is that number itself whenever the rounded magnitude fits
    32 bits. The fast paths for a zero operand and for the multiplier 1.0
    agree with the formula. *)
Theorem mul_rounds_half_away (a b : TFixed) :
  INT32_MIN < iValue a <= INT32_MAX ->
  INT32_MIN < iValue b <= INT32_MAX ->
  RawValue (mul a b) =
    wrap32 (mul_sign (iValue a) (iValue b) * mul_magnitude (iValue a) (iValue b)) /\
  (mul_magnitude (iValue a) (iValue b) <= INT32_MAX ->
   RawValue (mul a b) =
     mul_sign (iValue a) (iValue b) * mul_magnitude (iValue a) (iValue b)).
Proof.
  intros Ha Hb. rewrite (mul_raw a b Ha Hb). unfold RawValue; cbn [iValue].
  split; [reflexivity|]. intros HM.
  pose proof (mul_magnitude_nonneg (iValue a) (iValue b)).
  apply wrap32_id. unfold is_int32, INT32_MIN, INT32_MAX, mul_sign in *.
  destruct (Bool.eqb _ _); lia.
Qed.

Lemma mul_rounds_half_away_witness :
  (INT32_MIN < -98304 <= INT32_MAX) /\ (INT32_MIN < 0x8001 <= INT32_MAX) /\
  RawValue (mul (Raw (-98304)) (Raw 0x8001)) = wrap32 (-1 * 49154) /\
  (49154 <= INT32_MAX -> RawValue (mul (Raw (-98304)) (Raw 0x8001)) = -1 * 49154).
Proof.
  assert (H1 : INT32_MIN < -98304 <= INT32_MAX) by (unfold INT32_MIN, INT32_MAX; lia).
  assert (H2 : INT32_MIN < 0x8001 <= INT32_MAX) by (unfold INT32_MIN, INT32_MAX; lia).
  exact (conj H1 (conj H2 (mul_rounds_half_away (Raw (-98304)) (Raw 0x8001) H1 H2))).
Defined.

End FixedProperties.

(** ** Owned contours *)

Section ContourProperties.
Import Path.

Lemma TOutlinePoint_eq_true (a b : TOutlinePoint) :
  TOutlinePoint_eq a b = true <-> a = b.
Proof.
  unfold TOutlinePoint_eq. destruct a as [[ax ay] ta], b as [[bx by'] tb]; cbn.
  rewrite !andb_true_iff, !Z.eqb_eq, bool_decide_eq_true.
  split; [intros [[-> ->] ->]; reflexivity | intros [= -> -> ->]; auto].
Qed.

Lemma has_repeated_on_curve_snoc (l : list TOutlinePoint) (p : TOutlinePoint) :
  has_repeated_on_curve (l ++ [p]) =
  has_repeated_on_curve l ||
  (bool_decide (iType p = OnCurve) && bool_decide (last l = Some p)).
Proof.
  induction l as [|a [|b l] IH]; cbn.
  - now rewrite andb_false_r.
  - rewrite orb_false_r. f_equal. apply bool_decide_ext. split; congruence.
  - cbn in IH. rewrite IH. now rewrite orb_assoc.
Qed.

Lemma AppendPoint_cases (c : CContour) (p : TOutlinePoint) :
  AppendPoint c p =
  if bool_decide (iType p = OnCurve) && bool_decide (last (cPoint c) = Some p)
  then c
  else OwnedContour (cPoint c ++ [p]) (cClosed c).
Proof.
  unfold AppendPoint. destruct (last (cPoint c)) as [back|] eqn:E.
  - destruct (bool_decide (iType p = OnCurve)); cbn [andb]; [|reflexivity].
    destruct (TOutlinePoint_eq p back) eqn:Eq.
    + apply TOutlinePoint_eq_true in Eq. subst. now rewrite bool_decide_eq_true_2.
    + rewrite bool_decide_eq_false_2; [reflexivity|].
      intros [= ->]. rewrite (proj2 (TOutlinePoint_eq_true _ _) eq_refl) in Eq. discriminate.
  - rewrite (bool_decide_eq_false_2 (None = Some p)) by discriminate.
    now rewrite andb_false_r.
Qed.

(** C9: [CContour::AppendPoint] leaves the contour unchanged exactly when it
    is non-empty and the point is an on-curve point equal to its last point;
    otherwise it appends the point. An on-curve point immediately followed by
    an equal point is therefore never created, while a control point appended
    twice is stored twice. *)
Theorem AppendPoint_skips_repeated_on_curve (c : CContour) (p : TOutlinePoint) :
  AppendPoint c p =
    (if bool_decide (iType p = OnCurve) && bool_decide (last (cPoint c) = Some p)
     then c
     else OwnedContour (cPoint c ++ [p]) (cClosed c)) /\
  has_repeated_on_curve (cPoint (AppendPoint c p)) = has_repeated_on_curve (cPoint c) /\
  (forall xy : TPoint,
     let q := OutlinePoint xy Quadratic in
     let k := OutlinePoint xy Cubic in
     AppendPoint (AppendPoint c q) q = OwnedContour (cPoint c ++ [q; q]) (cClosed c) /\
     AppendPoint (AppendPoint c k) k = OwnedContour (cPoint c ++ [k; k]) (cClosed c)).
Proof.
  split; [apply AppendPoint_cases|]. split.
  - rewrite AppendPoint_cases.
    destruct (bool_decide (iType p = OnCurve) && bool_decide (last (cPoint c) = Some p)) eqn:E;
      [reflexivity|].
    cbn [cPoint]. rewrite has_repeated_on_curve_snoc, E. apply orb_false_r.
  - intros xy q k. rewrite !AppendPoint_cases. subst q k. cbn [iType].
    rewrite !(bool_decide_eq_false_2 (_ = OnCurve)) by discriminate.
    cbn [andb cPoint cClosed]. now rewrite <- !app_assoc.
Qed.

(** C7: reversing a contour twice gives back the contour: the same points in
    the same order with their types, and the same open/closed status; one
    reversal already keeps the status. The same holds for the reversal of a
    geometry object, which reverses the order of the contours and the points
    of each. *)
Theorem Reverse_involutive :
  (forall c : CContour,
     Path.Reverse (Path.Reverse c) = c /\
     cClosed (Path.Reverse c) = cClosed c /\
     cPoint (Path.Reverse c) = reverse (cPoint c)) /\
  (forall (TCoordType coord : Type) (g : Geometry.CGeneralGeometry TCoordType coord),
     Geometry.Reverse (Geometry.Reverse g) = g).
Proof.
  split.
  - intros [pts cl]. unfold Path.Reverse; cbn [cPoint cClosed].
    now rewrite reverse_involutive.
  - intros TCoordType coord [arr t cl]. unfold Geometry.Reverse.
    cbn [Geometry.m_contour_array Geometry.m_coord_type Geometry.m_closed]. f_equal.
    rewrite <- fmap_reverse, reverse_involutive, <- list_fmap_compose.
    rewrite <- (list_fmap_id arr) at 2. apply list_fmap_ext.
    intros i x _. cbn. apply reverse_involutive.
Qed.

End ContourProperties.

(** ** Traversal *)

Section TraverseProperties.
Import Path.

Lemma deref_lookup (pts : list TOutlinePoint) (i : nat) (z : Z) :
  z = Z.of_nat i -> deref pts z = pts !! i.
Proof.
  intros ->. unfold deref. destruct (Z.ltb_spec (Z.of_nat i) 0); [lia|].
  now rewrite Nat2Z.id.
Qed.

Lemma deref_app (pre rest : list TOutlinePoint) (k : nat) (z : Z) :
  z = Z.of_nat (length pre) + Z.of_nat k -> deref (pre ++ rest) z = rest !! k.
Proof.
  intros ->. rewrite (deref_lookup _ (length pre + k)) by lia.
  rewrite lookup_app_r by lia. f_equal. lia.
Qed.

Lemma deref_cons (a : TOutlinePoint) (rest : list TOutlinePoint) (k : nat) (z : Z) :
  z = Z.of_nat k + 1 -> deref (a :: rest) z = rest !! k.
Proof. intros ->. now rewrite (deref_lookup _ (S k)) by lia. Qed.

Lemma deref_in_range (pts : list TOutlinePoint) (z : Z) :
  0 <= z < Z.of_nat (length pts) -> is_Some (deref pts z).
Proof.
  intros Hz. rewrite (deref_lookup _ (Z.to_nat z)) by lia.
  apply lookup_lt_is_Some. lia.
Qed.

Lemma main_loop_unfold pts limit v_start fuel point :
  main_loop pts limit v_start (S fuel) point =
  if point <? limit then
    p ← deref pts (point + 1);
    match iType p with
    | OnCurve =>
        '(rest, finished) ← main_loop pts limit v_start fuel (point + 1);
        Some (LineTo (base p) :: rest, finished)
    | Quadratic =>
        out ← quadratic_loop pts limit v_start fuel (base p) (point + 1);
        Some (out, false)
    | Cubic =>
        if (point + 1 + 1 >? limit) || negb (bool_decide (iType p = Cubic))
        then Some ([], false)
        else
          vec1 ← deref pts (point + 1);
          vec2 ← deref pts (point + 1 + 1);
          if point + 1 + 2 <=? limit then
            p3 ← deref pts (point + 1 + 2);
            '(rest, finished) ← main_loop pts limit v_start fuel (point + 1 + 2);
            Some (CubicTo (base vec1) (base vec2) (base p3) :: rest, finished)
          else Some ([CubicTo (base vec1) (base vec2) v_start], false)
    end
  else Some ([], true).
Proof. reflexivity. Qed.

Lemma quadratic_loop_unfold pts limit v_start fuel v_control point :
  quadratic_loop pts limit v_start (S fuel) v_control point =
  if point <? limit then
    cur_point ← deref pts (point + 1);
    match iType cur_point with
    | OnCurve =>
        rest ← quadratic_loop pts limit v_start fuel v_control (point + 1);
        Some (QuadraticTo v_control (base cur_point) :: rest)
    | Quadratic =>
        rest ← quadratic_loop pts limit v_start fuel (base cur_point) (point + 1);
        Some (QuadraticTo v_control
                (Point (half_sum (iX v_control) (iX cur_point))
                       (half_sum (iY v_control) (iY cur_point))) :: rest)
    | Cubic => Some []
    end
  else Some [QuadraticTo v_control v_start].
Proof. reflexivity. Qed.

Lemma main_loop_segments (segs : list segment) :
  forall (pre tail : list TOutlinePoint) (limit : Z) (v_start : TPoint) (fuel : nat),
  Forall segment_ok segs ->
  Z.of_nat (length pre + length (segments_points segs)) - 1 <= limit ->
  main_loop (pre ++ segments_points segs ++ tail) limit v_start
            (length segs + fuel) (Z.of_nat (length pre) - 1) =
  '(out, finished) ←
     main_loop (pre ++ segments_points segs ++ tail) limit v_start fuel
               (Z.of_nat (length pre + length (segments_points segs)) - 1);
  Some ((segment_primitive <$> segs) ++ out, finished).
Proof.
  induction segs as [|s segs IH]; intros pre tail limit v_start fuel Hok Hlim.
  - cbn [segments_points fmap list_fmap concat length Nat.add app].
    rewrite Nat.add_0_r.
    destruct (main_loop _ _ _ _ _) as [[out fin]|]; reflexivity.
  - apply Forall_cons in Hok as [Hs Hok].
    change (segments_points (s :: segs)) with (segment_points s ++ segments_points segs) in *.
    rewrite length_app in Hlim.
    cbn [length Nat.add]. rewrite main_loop_unfold.
    destruct s as [p | c1 c2 p]; cbn [segment_points length app] in *.
    + destruct (Z.ltb_spec (Z.of_nat (length pre) - 1) limit); [|lia].
      rewrite (deref_app pre _ 0 (Z.of_nat (length pre) - 1 + 1)) by lia.
      cbn [lookup list_lookup mbind option_bind].
      rewrite Hs.
      replace (Z.of_nat (length pre) - 1 + 1) with (Z.of_nat (length (pre ++ [p])) - 1)
        by (rewrite length_app; cbn [length]; lia).
      replace (pre ++ p :: segments_points segs ++ tail)
        with ((pre ++ [p]) ++ segments_points segs ++ tail) by now rewrite <- app_assoc.
      rewrite IH by (auto; rewrite length_app; cbn [length]; lia).
      replace (length (pre ++ [p]) + length (segments_points segs))%nat
        with (length pre + S (length (segments_points segs)))%nat
        by (rewrite length_app; cbn [length]; lia).
      destruct (main_loop _ _ _ _ _) as [[out fin]|]; reflexivity.
    + destruct Hs as [Hc1 Hc2].
      destruct (Z.ltb_spec (Z.of_nat (length pre) - 1) limit); [|lia].
      rewrite !(deref_app pre _ 0 (Z.of_nat (length pre) - 1 + 1)) by lia.
      rewrite (deref_app pre _ 1 (Z.of_nat (length pre) - 1 + 1 + 1)) by lia.
      rewrite (deref_app pre _ 2 (Z.of_nat (length pre) - 1 + 1 + 2)) by lia.
      cbn [lookup list_lookup mbind option_bind].
      rewrite Hc1. rewrite bool_decide_eq_true_2 by reflexivity.
      destruct (Z.gtb_spec (Z.of_nat (length pre) - 1 + 1 + 1) limit); [lia|].
      destruct (Z.leb_spec (Z.of_nat (length pre) - 1 + 1 + 2) limit); [|lia].
      cbn [orb negb].
      replace (Z.of_nat (length pre) - 1 + 1 + 2)
        with (Z.of_nat (length (pre ++ [c1; c2; p])) - 1)
        by (rewrite length_app; cbn [length]; lia).
      replace (pre ++ c1 :: c2 :: p :: segments_points segs ++ tail)
        with ((pre ++ [c1; c2; p]) ++ segments_points segs ++ tail)
        by now rewrite <- app_assoc.
      rewrite IH by (auto; rewrite length_app; cbn [length]; lia).
      replace (length (pre ++ [c1; c2; p]) + length (segments_points segs))%nat
        with (length pre + S (S (S (length (segments_points segs)))))%nat
        by (rewrite length_app; cbn [length]; lia).
      destruct (main_loop _ _ _ _ _) as [[out fin]|]; reflexivity.
Qed.

Lemma segments_points_lines (l : list TOutlinePoint) :
  segments_points (Line <$> l) = l.
Proof.
  induction l as [|a l IH]; [reflexivity|].
  change (segments_points (Line <$> a :: l)) with (a :: segments_points (Line <$> l)).
  now rewrite IH.
Qed.

Lemma segments_points_length (segs : list segment) :
  (length segs <= length (segments_points segs))%nat.
Proof.
  induction segs as [|s segs IH]; [reflexivity|].
  change (segments_points (s :: segs)) with (segment_points s ++ segments_points segs).
  rewrite length_app. destruct s; cbn [segment_points length]; lia.
Qed.

Lemma TPoint_ne_decide (a b : TPoint) : TPoint_ne a b = bool_decide (a <> b).
Proof.
  unfold TPoint_ne. destruct a as [ax ay], b as [bx by']; cbn [iX iY].
  destruct (Z.eqb_spec ax bx) as [->|Hx], (Z.eqb_spec ay by') as [->|Hy]; cbn [andb negb].
  - rewrite bool_decide_eq_false_2; [reflexivity | intros Hn; now apply Hn].
  - rewrite bool_decide_eq_true_2; [reflexivity | congruence].
  - rewrite bool_decide_eq_true_2; [reflexivity | congruence].
  - rewrite bool_decide_eq_true_2; [reflexivity | congruence].
Qed.

(** The body of the traversal on a contour that starts with an on-curve
    point followed by well-formed segments: the move, one primitive per
    segment, then whatever the outer loop makes of the rest of the points. *)
Lemma Traverse_body_segments (first : TOutlinePoint) (segs : list segment)
    (tail : list TOutlinePoint) (closed curves : bool) :
  iType first = OnCurve ->
  Forall segment_ok segs ->
  let pts := first :: segments_points segs ++ tail in
  exists (fuel : nat) (p_last : TOutlinePoint),
    last pts = Some p_last /\
    Traverse_body (Contour pts closed curves) =
    '(out, finished) ←
       main_loop pts (Z.of_nat (length pts) - 1) first (S fuel)
                 (Z.of_nat (length (segments_points segs)));
    Some (MoveTo first :: ((segment_primitive <$> segs) ++ out) ++
          (if finished && closed && TPoint_ne p_last first
           then [LineTo first] else [])).
Proof.
  intros Hfirst Hok pts.
  pose proof (segments_points_length segs) as Hlen.
  assert (Hpts : length pts = S (length (segments_points segs) + length tail)).
  { subst pts. cbn [length]. now rewrite length_app. }
  destruct (last pts) as [p_last|] eqn:Elast.
  2:{ apply last_None in Elast. discriminate. }
  set (fuel := (S (length pts) - length segs - 1)%nat).
  assert (Hfuel : S (length pts) = (length segs + S fuel)%nat) by (subst fuel; lia).
  exists fuel, p_last. split; [reflexivity|].
  unfold Traverse_body, Points. cbn [iPoint iClosed].
  rewrite (deref_lookup pts 0 0) by reflexivity.
  change (pts !! 0%nat) with (Some first). cbn [mbind option_bind].
  rewrite (deref_lookup pts (pred (length pts))) by lia.
  rewrite <- last_lookup, Elast. cbn [mbind option_bind].
  rewrite Hfirst. rewrite (bool_decide_eq_false_2 (OnCurve = Quadratic)) by discriminate.
  rewrite Hfuel.
  pose proof (main_loop_segments segs [first] tail (Z.of_nat (length pts) - 1) first
                (S fuel) Hok) as Hm.
  cbn [length] in Hm. change (Z.of_nat 1 - 1) with 0 in Hm.
  change ([first] ++ segments_points segs ++ tail) with pts in Hm.
  rewrite Hm by (rewrite Hpts; lia). clear Hm.
  replace (Z.of_nat (1 + length (segments_points segs)) - 1)
    with (Z.of_nat (length (segments_points segs))) by lia.
  destruct (main_loop _ _ _ _ _) as [[out fin]|]; reflexivity.
Qed.

(** The inner loop always ends, reads inside the array, and emits quadratic
    curves only, the first of them controlled by [v_control]; unless it meets
    a cubic control point, the last curve ends at [v_start]. *)
Lemma quadratic_loop_shape pts limit v_start :
  forall (fuel : nat) (v_control : TPoint) (point : Z),
  -1 <= point -> limit < Z.of_nat (length pts) ->
  (0 < fuel)%nat -> limit - point < Z.of_nat fuel ->
  exists out,
    quadratic_loop pts limit v_start fuel v_control point = Some out /\
    Forall is_QuadraticTo out /\
    match out with [] => True | r :: _ => exists e, r = QuadraticTo v_control e end /\
    ((forall i p, point < i <= limit -> deref pts i = Some p -> iType p <> Cubic) ->
     exists ctrl, last out = Some (QuadraticTo ctrl v_start)).
Proof.
  induction fuel as [|fuel IH]; intros v_control point Hp Hl Hf Hfuel; [lia|].
  rewrite quadratic_loop_unfold.
  destruct (Z.ltb_spec point limit) as [Hlt|Hge].
  2:{ eexists; repeat split; eauto. repeat constructor. }
  destruct (deref_in_range pts (point + 1)) as [cur Hcur]; [lia|].
  rewrite Hcur. cbn [mbind option_bind].
  destruct (iType cur) eqn:Ecur.
  - destruct (IH v_control (point + 1)) as (rest & -> & HQ & _ & Hlast); try lia.
    cbn [mbind option_bind]. eexists; repeat split; eauto.
    + constructor; [exact I | assumption].
    + intros Hnc. destruct Hlast as [ctrl Hctrl].
      { intros i p Hi. apply Hnc. lia. }
      exists ctrl. destruct rest; [discriminate|]. now rewrite last_cons_cons.
  - destruct (IH (base cur) (point + 1)) as (rest & -> & HQ & _ & Hlast); try lia.
    cbn [mbind option_bind]. eexists; repeat split; eauto.
    + constructor; [exact I | assumption].
    + intros Hnc. destruct Hlast as [ctrl Hctrl].
      { intros i p Hi. apply Hnc. lia. }
      exists ctrl. destruct rest; [discriminate|]. now rewrite last_cons_cons.
  - eexists; repeat split; eauto.
    intros Hnc. exfalso. apply (Hnc (point + 1) cur); auto. lia.
Qed.

(** The outer loop always ends and reads inside the array. *)
Lemma main_loop_total pts limit v_start :
  forall (fuel : nat) (point : Z),
  -1 <= point -> limit < Z.of_nat (length pts) ->
  (0 < fuel)%nat -> limit - point < Z.of_nat fuel ->
  is_Some (main_loop pts limit v_start fuel point).
Proof.
  induction fuel as [|fuel IH]; intros point Hp Hl Hf Hfuel; [lia|].
  rewrite main_loop_unfold.
  destruct (Z.ltb_spec point limit) as [Hlt|Hge]; [|eauto].
  destruct (deref_in_range pts (point + 1)) as [p Hcur]; [lia|].
  rewrite Hcur. cbn [mbind option_bind].
  destruct (iType p) eqn:Ep.
  - destruct (IH (point + 1)) as [[rest fin] ->]; try lia. cbn. eauto.
  - destruct (quadratic_loop_shape pts limit v_start fuel (base p) (point + 1))
      as (out & -> & _); try lia. cbn. eauto.
  - destruct (Z.gtb_spec (point + 1 + 1) limit); cbn [orb]; [eauto|].
    rewrite bool_decide_eq_true_2 by reflexivity. cbn [negb].
    destruct (deref_in_range pts (point + 1 + 1)) as [vec2 ->]; [lia|].
    cbn [mbind option_bind].
    destruct (Z.leb_spec (point + 1 + 2) limit); [|eauto].
    destruct (deref_in_range pts (point + 1 + 2)) as [p3 ->]; [lia|].
    cbn [mbind option_bind].
    destruct (IH (point + 1 + 2)) as [[rest fin] ->]; try lia. cbn. eauto.
Qed.

Lemma Traverse_body_total (c : TContour) :
  2 <= Points c -> is_Some (Traverse_body c).
Proof.
  intros Hn. unfold Traverse_body. unfold Points in *. cbv zeta.
  destruct (deref_in_range (iPoint c) 0) as [first ->]; [lia|].
  cbn [mbind option_bind].
  destruct (deref_in_range (iPoint c) (Z.of_nat (length (iPoint c)) - 1)) as [p_last ->]; [lia|].
  cbn [mbind option_bind].
  repeat case_bool_decide; cbv beta iota;
    match goal with
    | |- context [main_loop ?pts ?limit ?v ?f ?pt] =>
        destruct (main_loop_total pts limit v f pt) as [[out fin] ->]; [lia..|]
    end; cbn; eauto.
Qed.

Section Unclipped.
Variable TRect : Type.
Variable IsMaximal : TRect -> bool.
Variable ClipType : TContour -> TRect -> TClipType.
Variable ClippedContour : TContour -> TRect -> COutline.

Local Abbreviation Traverse := (Path.Traverse TRect IsMaximal ClipType ClippedContour).

Lemma Traverse_no_clip (c : TContour) : Traverse c None = Traverse_unclipped c.
Proof. reflexivity. Qed.

Lemma Traverse_unclipped_body (first : TOutlinePoint) (rest : list TOutlinePoint)
    (closed curves : bool) :
  rest <> [] -> iType first <> Cubic ->
  Traverse_unclipped (Contour (first :: rest) closed curves) =
  Traverse_body (Contour (first :: rest) closed curves).
Proof.
  intros Hrest Hfirst. unfold Traverse_unclipped, Points. cbn [iPoint].
  destruct rest as [|second more]; [congruence|]. cbn [length].
  destruct (Z.ltb_spec (Z.of_nat (S (S (length more)))) 2); [lia|].
  rewrite (deref_lookup _ 0 0) by reflexivity. cbn [lookup list_lookup mbind option_bind].
  now rewrite bool_decide_eq_false_2.
Qed.

(** C1: with no clip region, a contour all of whose points are on-curve and
    that has fewer than two points makes no call on the traverser; one with
    two points or more makes exactly the calls MoveTo(first point), then
    LineTo(p) for each following point p in array order, then a last
    LineTo(first point) if and only if the contour is closed and its last
    point differs from its first. *)
Theorem Traverse_on_curve_only (c : TContour) :
  Forall (fun p => iType p = OnCurve) (iPoint c) ->
  Traverse c None =
  Some (match iPoint c with
        | first :: ((_ :: _) as rest) =>
            MoveTo first :: ((fun p : TOutlinePoint => LineTo p) <$> rest) ++
            (if iClosed c && bool_decide (base (default first (last rest)) <> base first)
             then [LineTo first] else [])
        | _ => []
        end).
Proof.
  destruct c as [pts closed curves]. cbn [iPoint iClosed]. intros Hon.
  rewrite Traverse_no_clip.
  destruct pts as [|first [|second more]]; [reflexivity..|].
  apply Forall_cons in Hon as [Hfirst Hrest].
  rewrite Traverse_unclipped_body by (congruence || discriminate).
  set (rest := second :: more) in *.
  destruct (Traverse_body_segments first (Line <$> rest) [] closed curves Hfirst)
    as (fuel & p_last & Hlast & Hbody).
  { apply Forall_fmap. exact Hrest. }
  rewrite segments_points_lines, app_nil_r in Hlast, Hbody.
  rewrite Hbody. rewrite main_loop_unfold.
  destruct (Z.ltb_spec (Z.of_nat (length rest)) (Z.of_nat (length (first :: rest)) - 1));
    [cbn [length] in *; lia|].
  cbn [mbind option_bind]. rewrite app_nil_r, <- list_fmap_compose.
  subst rest. rewrite last_cons_cons in Hlast. rewrite Hlast. cbn [default andb].
  now rewrite TPoint_ne_decide.
Qed.

(** X28: for a contour that starts with an on-curve point followed by
    well-formed segments (an on-curve point, or two cubic control points and
    the point that ends their curve), traversed with no clip region: if a
    single cubic control point then ends the array, traversal stops there,
    having made exactly the calls for the segments before it and no closing
    line; if a pair of cubic control points ends the array, the last call is
    CubicTo with the start point as its end point, and no closing line
    follows. And the traversal of any contour that does not start with a
    cubic control point returns without reading outside the point array. *)
Theorem Traverse_cubic_at_end (first : TOutlinePoint) (segs : list segment)
    (closed curves : bool) :
  iType first = OnCurve ->
  Forall segment_ok segs ->
  (forall c : TOutlinePoint, iType c = Cubic ->
     Traverse (Contour (first :: segments_points segs ++ [c]) closed curves) None =
     Some (MoveTo first :: (segment_primitive <$> segs))) /\
  (forall c1 c2 : TOutlinePoint, iType c1 = Cubic -> iType c2 = Cubic ->
     Traverse (Contour (first :: segments_points segs ++ [c1; c2]) closed curves) None =
     Some (MoveTo first :: (segment_primitive <$> segs) ++ [CubicTo c1 c2 first])) /\
  (forall c : TContour,
     (forall p, head (iPoint c) = Some p -> iType p <> Cubic) ->
     is_Some (Traverse c None)).
Proof.
  intros Hfirst Hok. repeat split.
  - intros c Hc. rewrite Traverse_no_clip.
    rewrite Traverse_unclipped_body
      by (try (rewrite Hfirst; discriminate); intros E; now apply app_eq_nil in E as [_ E]).
    destruct (Traverse_body_segments first segs [c] closed curves Hfirst Hok)
      as (fuel & p_last & _ & ->).
    rewrite main_loop_unfold.
    cbn [length]. rewrite length_app. cbn [length].
    destruct (Z.ltb_spec (Z.of_nat (length (segments_points segs)))
                (Z.of_nat (S (length (segments_points segs) + 1)) - 1)); [|lia].
    rewrite !(deref_cons first _ (length (segments_points segs))
               (Z.of_nat (length (segments_points segs)) + 1)) by lia.
    rewrite (list_lookup_middle _ [] c) by reflexivity.
    cbn [mbind option_bind]. rewrite Hc.
    destruct (Z.gtb_spec (Z.of_nat (length (segments_points segs)) + 1 + 1)
                (Z.of_nat (S (length (segments_points segs) + 1)) - 1)); [|lia].
    cbn [orb mbind option_bind andb]. now rewrite !app_nil_r.
  - intros c1 c2 Hc1 Hc2. rewrite Traverse_no_clip.
    rewrite Traverse_unclipped_body
      by (try (rewrite Hfirst; discriminate); intros E; now apply app_eq_nil in E as [_ E]).
    destruct (Traverse_body_segments first segs [c1; c2] closed curves Hfirst Hok)
      as (fuel & p_last & _ & ->).
    rewrite main_loop_unfold.
    cbn [length]. rewrite length_app. cbn [length].
    set (n := length (segments_points segs)).
    destruct (Z.ltb_spec (Z.of_nat n) (Z.of_nat (S (n + 2)) - 1)); [|lia].
    rewrite !(deref_cons first _ n (Z.of_nat n + 1)) by lia.
    rewrite (deref_cons first _ (S n) (Z.of_nat n + 1 + 1)) by lia.
    rewrite (list_lookup_middle _ [c2] c1 n) by reflexivity.
    cbn [mbind option_bind]. rewrite Hc1.
    destruct (Z.gtb_spec (Z.of_nat n + 1 + 1) (Z.of_nat (S (n + 2)) - 1)); [lia|].
    rewrite bool_decide_eq_true_2 by reflexivity. cbn [orb negb].
    replace (segments_points segs ++ [c1; c2]) with ((segments_points segs ++ [c1]) ++ [c2])
      by now rewrite <- app_assoc.
    rewrite (list_lookup_middle _ [] c2 (S n))
      by (rewrite length_app; cbn [length]; subst n; lia).
    cbn [mbind option_bind].
    destruct (Z.leb_spec (Z.of_nat n + 1 + 2) (Z.of_nat (S (n + 2)) - 1)); [lia|].
    cbn [mbind option_bind andb]. now rewrite !app_nil_r.
  - intros c Hhead. rewrite Traverse_no_clip. unfold Traverse_unclipped.
    destruct (Z.ltb_spec (Points c) 2) as [|Hn]; [eauto|].
    destruct (deref_in_range (iPoint c) 0) as [p Hp]; [unfold Points in Hn; lia|].
    rewrite Hp. cbn [mbind option_bind].
    rewrite bool_decide_eq_false_2.
    + now apply Traverse_body_total.
    + apply Hhead. rewrite (deref_lookup _ 0 0) in Hp by reflexivity.
      now rewrite head_lookup.
Qed.


End Unclipped.
End TraverseProperties.

(** *** The theorems at concrete contours

    The clip machinery plays no part without a clip region; it is
    instantiated here with a rectangle type of one element. *)

Section TraverseExamples.
Import Path.

Local Abbreviation on x y := (OutlinePoint (Point x y) OnCurve).
Local Abbreviation quad x y := (OutlinePoint (Point x y) Quadratic).
Local Abbreviation cubic x y := (OutlinePoint (Point x y) Cubic).
Local Abbreviation Traverse1 :=
  (Traverse unit (fun _ => true) (fun _ _ => Inside) (fun _ _ => [])).

Lemma Traverse_on_curve_only_witness :
  Forall (fun p => iType p = OnCurve) [on 0 0; on 4 0; on 4 4] /\
  Traverse1 (Contour [on 0 0; on 4 0; on 4 4] true true) None =
  Some [MoveTo (Point 0 0); LineTo (Point 4 0); LineTo (Point 4 4); LineTo (Point 0 0)].
Proof.
  assert (H : Forall (fun p => iType p = OnCurve) [on 0 0; on 4 0; on 4 4])
    by (repeat constructor).
  exact (conj H (Traverse_on_curve_only unit (fun _ => true) (fun _ _ => Inside)
                   (fun _ _ => []) (Contour [on 0 0; on 4 0; on 4 4] true true) H)).
Defined.


Lemma Traverse_cubic_at_end_witness :
  iType (on 0 0) = OnCurve /\
  Forall segment_ok [Line (on 1 0); Curve (cubic 2 0) (cubic 3 1) (on 4 0)] /\
  Traverse1 (Contour [on 0 0; on 1 0; cubic 2 0; cubic 3 1; on 4 0; cubic 5 5] true true) None =
    Some [MoveTo (Point 0 0); LineTo (Point 1 0);
          CubicTo (Point 2 0) (Point 3 1) (Point 4 0)] /\
  Traverse1 (Contour [on 0 0; on 1 0; cubic 2 0; cubic 3 1; on 4 0; cubic 5 5; cubic 6 6]
               true true) None =
    Some [MoveTo (Point 0 0); LineTo (Point 1 0);
          CubicTo (Point 2 0) (Point 3 1) (Point 4 0);
          CubicTo (Point 5 5) (Point 6 6) (Point 0 0)] /\
  is_Some (Traverse1 (Contour [quad 0 0; cubic 1 1; on 2 2] false true) None).
Proof.
  assert (H1 : iType (on 0 0) = OnCurve) by reflexivity.
  assert (H2 : Forall segment_ok [Line (on 1 0); Curve (cubic 2 0) (cubic 3 1) (on 4 0)]).
  { repeat constructor. }
  pose proof (Traverse_cubic_at_end unit (fun _ => true) (fun _ _ => Inside) (fun _ _ => [])
                (on 0 0) [Line (on 1 0); Curve (cubic 2 0) (cubic 3 1) (on 4 0)]
                true true H1 H2) as (Hlone & Hpair & Htotal).
  refine (conj H1 (conj H2 (conj (Hlone (cubic 5 5) eq_refl)
            (conj (Hpair (cubic 5 5) (cubic 6 6) eq_refl eq_refl) (Htotal _ _))))).
  intros p [= <-]. discriminate.
Defined.

(** The traversal of a contour with curves: a quadratic curve whose control
    point is kept after its end point, and a contour of control points only,
    which starts and ends at the midpoint of its first and last points. *)
Example Traverse_quadratic :
  Traverse1 (Contour [on 0 0; quad 1 1; on 2 0; on 3 0] false true) None =
  Some [MoveTo (Point 0 0); QuadraticTo (Point 1 1) (Point 2 0);
        QuadraticTo (Point 1 1) (Point 3 0); QuadraticTo (Point 1 1) (Point 0 0)].
Proof. reflexivity. Qed.

Example Traverse_control_points_only :
  Traverse1 (Contour [quad 0 0; quad 4 0; quad 4 4] true true) None =
  Some [MoveTo (Point 2 2); QuadraticTo (Point 0 0) (Point 2 0);
        QuadraticTo (Point 4 0) (Point 4 2); QuadraticTo (Point 4 4) (Point 2 2)].
Proof. reflexivity. Qed.


(** C3: the traversal of a contour with a run of one cubic control point
    inside it. The test that is to end the traversal there reads the type
    of the cubic point itself, so the point that follows is taken as the
    second control point, whatever its type, and the traversal goes on: here
    it makes three calls where the malformed run should have ended it after
    the first. *)
Lemma Traverse_lone_cubic_not_rejected :
  Traverse unit (fun _ => true) (fun _ _ => Inside) (fun _ _ => [])
    (Contour [on 0 0; cubic 1 1; on 2 2; on 3 3; on 4 4] false true) None =
    Some [MoveTo (Point 0 0); CubicTo (Point 1 1) (Point 2 2) (Point 3 3);
          LineTo (Point 4 4)] /\
  Traverse unit (fun _ => true) (fun _ _ => Inside) (fun _ _ => [])
    (Contour [on 0 0; cubic 1 1; on 2 2; on 3 3; on 4 4] false true) None <>
    Some [MoveTo (Point 0 0)].
Proof. split; [reflexivity | discriminate]. Qed.

End TraverseExamples.

(** ** Geometry objects *)

Section GeometryProperties.
Import Geometry.
Context {TCoordType coord : Type} `{EqDecision TCoordType} (Map : TCoordType).

Local Abbreviation geometry := (CGeneralGeometry TCoordType coord).

Lemma Clear_contours (g : geometry) : m_contour_array (Clear Map g) = [[]].
Proof. unfold Clear. destruct (m_contour_array g); reflexivity. Qed.

Lemma AppendPoint_count (g g' : geometry) (p : point_t coord) :
  AppendPoint g p = Some g' -> ContourCount g' = ContourCount g.
Proof.
  unfold AppendPoint, ContourCount. destruct (last (m_contour_array g)); [|discriminate].
  intros [= <-]. cbn. apply length_insert.
Qed.

Lemma BeginContour_count (g g' : geometry) :
  BeginContour g = Some g' -> (ContourCount g <= ContourCount g')%nat.
Proof.
  unfold BeginContour, ContourCount. destruct (last (m_contour_array g)); [|discriminate].
  intros [= <-]. case_bool_decide; cbn; [lia|]. rewrite length_app. lia.
Qed.

Lemma copy_points_count (of_point : Path.TOutlinePoint -> point_t coord)
    (pts : list Path.TOutlinePoint) :
  forall (acc : option geometry) (g' : geometry),
  foldl (fun g p => g ← g; AppendPoint g (of_point p)) acc pts = Some g' ->
  exists g, acc = Some g /\ ContourCount g' = ContourCount g.
Proof.
  induction pts as [|p pts IH]; intros acc g' Hfold; cbn in Hfold.
  - eauto.
  - apply IH in Hfold as (g1 & Hg1 & Hc). destruct acc as [g|]; [|discriminate].
    exists g. split; [reflexivity|]. cbn in Hg1. apply AppendPoint_count in Hg1. lia.
Qed.

Lemma copy_contour_count (of_point : Path.TOutlinePoint -> point_t coord)
    (g g' : geometry) (contour : Path.TContour) :
  copy_contour of_point g contour = Some g' -> (ContourCount g <= ContourCount g')%nat.
Proof.
  unfold copy_contour. destruct (BeginContour g) as [g1|] eqn:E; [|discriminate].
  cbn. intros Hfold. apply copy_points_count in Hfold as (g2 & [= <-] & Hc).
  apply BeginContour_count in E. lia.
Qed.

Lemma copy_path_count (of_point : Path.TOutlinePoint -> point_t coord)
    (path : list Path.TContour) :
  forall (acc : option geometry) (g' : geometry),
  foldl (fun g contour => g ← g; copy_contour of_point g contour) acc path = Some g' ->
  exists g, acc = Some g /\ (ContourCount g <= ContourCount g')%nat.
Proof.
  induction path as [|c path IH]; intros acc g' Hfold; cbn in Hfold.
  - eauto.
  - apply IH in Hfold as (g1 & Hg1 & Hc). destruct acc as [g|]; [|discriminate].
    exists g. split; [reflexivity|]. cbn in Hg1. apply copy_contour_count in Hg1. lia.
Qed.

Lemma ConvertCoords_loop_length {St : Type}
    (f : St -> TWritableCoordSet coord -> TResult * TWritableCoordSet coord * St) :
  forall n i arr s r arr' s',
  ConvertCoords_loop f n i arr s = Some (r, arr', s') -> length arr' = length arr.
Proof.
  induction n as [|n IH]; intros i arr s r arr' s'; cbn [ConvertCoords_loop].
  - now intros [= _ <- _].
  - destruct (arr !! i) as [c|]; [|discriminate]. cbn [mbind option_bind].
    destruct (f s (CoordSet c)) as [[error cs] s1].
    destruct (negb (error =? 0)).
    + intros [= _ <- _]. apply length_insert.
    + intros Hloop. apply IH in Hloop. now rewrite length_insert in Hloop.
Qed.

Lemma reachable_count (g : geometry) : reachable Map g -> (1 <= ContourCount g)%nat.
Proof.
  induction 1 as [ | t cl | of_point path t cl g Hc | p1 p2 p3 p4 t g Hc
                 | p t g Hc | g _ IH | g cl _ IH | g i j p g' _ IH Hop
                 | g i cs g' _ IH Hop
                 | g p g' _ IH Hop | g g' _ IH Hop | g _ IH
                 | St f g t s r g' s' _ IH Hop ].
  - reflexivity.
  - reflexivity.
  - apply copy_path_count in Hc as (g0 & [= <-] & Hle). cbn in Hle. lia.
  - unfold CreateFromRect in Hc.
    destruct (AppendPoint _ p1) as [g1|] eqn:E1; [|discriminate]. cbn in Hc.
    destruct (AppendPoint g1 p2) as [g2|] eqn:E2; [|discriminate]. cbn in Hc.
    destruct (AppendPoint g2 p3) as [g3|] eqn:E3; [|discriminate]. cbn in Hc.
    apply AppendPoint_count in E1, E2, E3, Hc. cbn in E1. lia.
  - apply AppendPoint_count in Hc. cbn in Hc. lia.
  - unfold ContourCount. now rewrite Clear_contours.
  - exact IH.
  - unfold SetPoint in Hop. destruct (m_contour_array g !! i) as [c|]; [|discriminate].
    cbn in Hop. destruct (c !! j); [|discriminate]. injection Hop as <-.
    unfold ContourCount in *. cbn. now rewrite length_insert.
  - unfold SetCoords in Hop. destruct (m_contour_array g !! i) as [c|]; [|discriminate].
    injection Hop as <-. unfold ContourCount in *. cbn. now rewrite length_insert.
  - apply AppendPoint_count in Hop. lia.
  - apply BeginContour_count in Hop. lia.
  - unfold ContourCount, Reverse in *. cbn. now rewrite length_fmap, length_reverse.
  - unfold ConvertCoords in Hop. case_bool_decide.
    + now injection Hop as _ <- _.
    + destruct (ConvertCoords_loop _ _ _ _ _) as [[[e arr] s1]|] eqn:E; [|discriminate].
      injection Hop as _ <- _. apply ConvertCoords_loop_length in E.
      unfold ContourCount in *. cbn. lia.
Qed.

(** C10: a geometry object always holds at least one contour. The default
    construction makes exactly one; in every state that the constructors and
    member functions can produce there is a contour 0 for [IsEmpty] and
    [Bounds] to read and a last contour for [AppendPoint] and [BeginContour]
    to use; [Clear] leaves exactly one empty contour; [BeginContour] keeps
    every contour, adds at most one at the end, and changes nothing when the
    last contour is empty. *)
Theorem geometry_holds_a_contour (g : geometry) :
  reachable Map g ->
  (1 <= ContourCount g)%nat /\
  is_Some (IsEmpty g) /\ is_Some (Bounds_start g) /\
  (forall p, is_Some (AppendPoint g p)) /\
  (exists g', BeginContour g = Some g' /\
     m_contour_array g `prefix_of` m_contour_array g' /\
     (ContourCount g' <= S (ContourCount g))%nat /\
     (last (m_contour_array g) = Some [] -> g' = g)) /\
  m_contour_array (Clear Map g) = [[]] /\
  ContourCount (Create Map : geometry) = 1%nat /\
  (forall t cl, ContourCount (CreateTyped t cl : geometry) = 1%nat).
Proof.
  intros Hg. pose proof (reachable_count g Hg) as Hcount.
  unfold ContourCount in Hcount.
  destruct (m_contour_array g) as [|c0 arr] eqn:Earr; [cbn in Hcount; lia|].
  destruct (last (c0 :: arr)) as [back|] eqn:Eback.
  2:{ apply last_None in Eback. discriminate. }
  split; [unfold ContourCount; rewrite Earr; cbn; lia|].
  split; [unfold IsEmpty; rewrite Earr; cbn; eauto|].
  split; [unfold Bounds_start; rewrite Earr; cbn; eauto|].
  split; [intros p; unfold AppendPoint; rewrite Earr, Eback; cbn; eauto|].
  split.
  { unfold BeginContour. rewrite Earr, Eback. cbn [mbind option_bind].
    eexists; split; [reflexivity|]. case_bool_decide as Hempty.
    - rewrite ?Earr. repeat split; auto; unfold ContourCount; rewrite ?Earr; lia.
    - cbn [m_contour_array]. rewrite ?Earr. repeat split.
      + now apply prefix_app_r.
      + unfold ContourCount. cbn [m_contour_array]. rewrite ?Earr, length_app. cbn. lia.
      + intros [= ->]. congruence. }
  split; [apply Clear_contours|]. split; reflexivity.
Qed.

Lemma ConvertCoords_loop_logged {St : Type}
    (f : St -> TWritableCoordSet coord -> TResult * TWritableCoordSet coord * St) :
  forall (n i : nat) (arr : list (contour_t coord)) (s : St)
         (log : list (TWritableCoordSet coord * TResult)),
  (i + n = length arr)%nat ->
  exists r arr' s' calls,
    ConvertCoords_loop f n i arr s = Some (r, arr', s') /\
    ConvertCoords_loop (logged f) n i arr (s, log) = Some (r, arr', (s', log ++ calls)) /\
    calls.*1 = CoordSet <$> take (length calls) (drop i arr) /\
    ((r = KErrorNone /\ length calls = n /\ Forall (fun e => e.2 = KErrorNone) calls) \/
     (r <> KErrorNone /\
      exists calls0 cs, calls = calls0 ++ [(cs, r)] /\
                        Forall (fun e => e.2 = KErrorNone) calls0)).
Proof.
  induction n as [|n IH]; intros i arr s log Hlen; cbn [ConvertCoords_loop].
  - exists KErrorNone, arr, s, []. rewrite app_nil_r. repeat split; auto.
  - destruct (lookup_lt_is_Some_2 arr i) as [c Hc]; [lia|].
    rewrite Hc. cbn [mbind option_bind].
    change (logged f (s, log) (CoordSet c))
      with (let '(r, cs', s') := f s (CoordSet c) in
            (r, cs', (s', log ++ [(CoordSet c, r)]))).
    destruct (f s (CoordSet c)) as [[error cs] s1] eqn:Ef.
    assert (Hdrop : drop i arr = c :: drop (S i) arr) by now apply drop_S.
    destruct (Z.eqb_spec error 0) as [->|Herr]; cbn [negb].
    + destruct (IH (S i) (<[i := write_coords c cs]> arr) s1 (log ++ [(CoordSet c, 0)]))
        as (r & arr' & s' & calls & Hrun & Hlog & Hin & Hres).
      { rewrite length_insert. lia. }
      exists r, arr', s', ((CoordSet c, 0) :: calls).
      rewrite <- app_assoc in Hlog.
      split; [exact Hrun|]. split; [exact Hlog|]. split.
      * rewrite Hdrop. cbn [length take fmap list_fmap fst]. f_equal.
        rewrite Hin. now rewrite drop_insert_lt by lia.
      * destruct Hres as [(-> & Hn & Hall) | (Hr & calls0 & cs' & -> & Hall)].
        -- left. repeat split; [cbn [length]; lia|]. constructor; auto.
        -- right. split; [assumption|]. exists ((CoordSet c, 0) :: calls0), cs'.
           split; [reflexivity|]. constructor; auto.
    + exists error, (<[i := write_coords c cs]> arr), s1, [(CoordSet c, error)].
      repeat split; auto.
      * rewrite Hdrop. reflexivity.
      * right. split; [assumption|]. exists [], (CoordSet c). split; [reflexivity | constructor].
Qed.

(** C8: [ConvertCoords] to the coordinate type the object already has returns
    [KErrorNone], leaves the object as it is and does not invoke the
    conversion function. Otherwise it invokes the function on the coordinate
    sets of the contours in index order, once each, up to and including the
    first invocation that returns a non-zero result, which it returns at
    once; when no invocation fails every contour has been converted and the
    result is [KErrorNone]. *)
Theorem ConvertCoords_calls {St : Type}
    (f : St -> TWritableCoordSet coord -> TResult * TWritableCoordSet coord * St)
    (g : geometry) (aToCoordType : TCoordType) (s : St) :
  (m_coord_type g = aToCoordType ->
     ConvertCoords f g aToCoordType s = Some (KErrorNone, g, s) /\
     ConvertCoords (logged f) g aToCoordType (s, []) = Some (KErrorNone, g, (s, []))) /\
  (m_coord_type g <> aToCoordType ->
     exists r g' s' calls,
       ConvertCoords f g aToCoordType s = Some (r, g', s') /\
       ConvertCoords (logged f) g aToCoordType (s, []) = Some (r, g', (s', calls)) /\
       calls.*1 = CoordSet <$> take (length calls) (m_contour_array g) /\
       ((r = KErrorNone /\ length calls = ContourCount g /\
         Forall (fun e => e.2 = KErrorNone) calls) \/
        (r <> KErrorNone /\
         exists calls0 cs, calls = calls0 ++ [(cs, r)] /\
                           Forall (fun e => e.2 = KErrorNone) calls0))).
Proof.
  unfold ConvertCoords. split; intros Ht.
  - now rewrite !bool_decide_eq_true_2.
  - rewrite !bool_decide_eq_false_2 by assumption.
    destruct (ConvertCoords_loop_logged f (ContourCount g) 0 (m_contour_array g) s [])
      as (r & arr' & s' & calls & Hrun & Hlog & Hin & Hres); [reflexivity|].
    exists r, (Geom arr' aToCoordType (m_closed g)), s', calls.
    rewrite Hrun, Hlog. cbn [mbind option_bind app]. repeat split; auto.
Qed.
End GeometryProperties.

(** *** The theorems at concrete geometry objects

    Coordinates are integers and the coordinate types are the two booleans,
    [true] standing for [TCoordType::Map]. *)

Section GeometryExamples.
Import Geometry.

Local Abbreviation geometry := (CGeneralGeometry bool Z).
Local Abbreviation pt x y := (PointFP (coord := Z) x y Path.OnCurve).

Lemma geometry_holds_a_contour_witness :
  let g : geometry := Geom [[pt 1 2]; []] true false in
  reachable true g /\
  (1 <= ContourCount g)%nat /\
  is_Some (IsEmpty g) /\ is_Some (Bounds_start g) /\
  (forall p, is_Some (AppendPoint g p)) /\
  (exists g', BeginContour g = Some g' /\
     m_contour_array g `prefix_of` m_contour_array g' /\
     (ContourCount g' <= S (ContourCount g))%nat /\
     (last (m_contour_array g) = Some [] -> g' = g)) /\
  m_contour_array (Clear true g) = [[]] /\
  ContourCount (Create true : geometry) = 1%nat /\
  (forall t cl, ContourCount (CreateTyped t cl : geometry) = 1%nat).
Proof.
  intros g.
  assert (H : reachable true g).
  { apply (reach_BeginContour _ _ _ (Geom [[pt 1 2]] true false)); [|reflexivity].
    apply (reach_AppendPoint _ _ _ (Create true) (pt 1 2)); [|reflexivity].
    apply reach_Create. }
  exact (conj H (geometry_holds_a_contour true g H)).
Defined.

Lemma ConvertCoords_calls_witness :
  let g : geometry := Geom [[pt 1 2]; [pt 3 4; pt 5 6]; [pt 7 8]] true false in
  let f := fun (s : nat) (cs : TWritableCoordSet Z) =>
             (if (s =? 1)%nat then 7 else 0, cs, S s) in
  m_coord_type g <> false /\
  exists r g' s' calls,
    ConvertCoords f g false 0%nat = Some (r, g', s') /\
    ConvertCoords (logged f) g false (0%nat, []) = Some (r, g', (s', calls)) /\
    calls.*1 = CoordSet <$> take (length calls) (m_contour_array g) /\
    ((r = KErrorNone /\ length calls = ContourCount g /\
      Forall (fun e => e.2 = KErrorNone) calls) \/
     (r <> KErrorNone /\
      exists calls0 cs, calls = calls0 ++ [(cs, r)] /\
                        Forall (fun e => e.2 = KErrorNone) calls0)).
Proof.
  intros g f.
  assert (H : m_coord_type g <> false) by discriminate.
  exact (conj H (proj2 (ConvertCoords_calls f g false 0%nat) H)).
Defined.

Example ConvertCoords_stops_at_first_error :
  ConvertCoords
    (logged (fun (s : nat) (cs : TWritableCoordSet Z) =>
               (if (s =? 1)%nat then 7 else 0, cs, S s)))
    (Geom [[pt 1 2]; [pt 3 4; pt 5 6]; [pt 7 8]] true false) false (0%nat, []) =
  Some (7, Geom [[pt 1 2]; [pt 3 4; pt 5 6]; [pt 7 8]] false false,
        (2%nat, [([(1, 2)], 0); ([(3, 4); (5, 6)], 7)])).
Proof. reflexivity. Qed.

End GeometryExamples.

(** ** More on fixed-point arithmetic *)

Section FixedArithmetic.
Import Fixed.

Lemma wrap32_mod z : wrap32 z mod 2 ^ 32 = z mod 2 ^ 32.
Proof.
  unfold wrap32.
  rewrite <- Zminus_mod_idemp_l, Z.mod_mod by lia.
  rewrite Zminus_mod_idemp_l. f_equal. lia.
Qed.

Lemma wrap32_congr x y : x mod 2 ^ 32 = y mod 2 ^ 32 -> wrap32 x = wrap32 y.
Proof.
  intros H. unfold wrap32. f_equal.
  rewrite <- (Zplus_mod_idemp_l x), <- (Zplus_mod_idemp_l y), H. reflexivity.
Qed.

Lemma wrap32_add_l x y : wrap32 (wrap32 x + y) = wrap32 (x + y).
Proof.
  apply wrap32_congr. rewrite <- Zplus_mod_idemp_l, wrap32_mod, Zplus_mod_idemp_l.
  reflexivity.
Qed.

Lemma wrap32_add_r x y : wrap32 (x + wrap32 y) = wrap32 (x + y).
Proof. rewrite (Z.add_comm x), wrap32_add_l. f_equal. lia. Qed.

Lemma wrap32_opp x : wrap32 (- wrap32 x) = wrap32 (- x).
Proof.
  apply wrap32_congr.
  rewrite <- (Z.sub_0_l (wrap32 x)), <- (Z.sub_0_l x).
  rewrite <- Zminus_mod_idemp_r, wrap32_mod, Zminus_mod_idemp_r. reflexivity.
Qed.

Lemma wrap32_wrapu32 x : wrap32 (wrapu32 x) = wrap32 x.
Proof. apply wrap32_congr. unfold wrapu32. apply Z.mod_mod. lia. Qed.

Lemma wrap32_idem x : wrap32 (wrap32 x) = wrap32 x.
Proof. apply wrap32_congr, wrap32_mod. Qed.

Lemma wrap32_is_int32 z : is_int32 (wrap32 z).
Proof.
  unfold is_int32, INT32_MIN, INT32_MAX, wrap32.
  pose proof (Z.mod_pos_bound (z + 2 ^ 31) (2 ^ 32)). lia.
Qed.

(** X1: on values that fit 32 bits, [operator+] is commutative and
    associative with zero as its unit, [-a] is the inverse of [a] (so
    a + (-a) == 0 and a - a == 0), [a - b] is [a + (-b)], negation is an
    involution, and every result fits 32 bits again. *)
Theorem add_group (a b c : TFixed) :
  valid a -> valid b -> valid c ->
  add a b = add b a /\
  add (add a b) c = add a (add b c) /\
  add a (Raw 0) = a /\
  add a (neg a) = Raw 0 /\
  sub a a = Raw 0 /\
  sub a b = add a (neg b) /\
  neg (neg a) = a /\
  valid (add a b) /\ valid (sub a b) /\ valid (neg a).
Proof.
  destruct a as [a], b as [b], c as [c].
  unfold add, sub, neg, valid; cbn [iValue]. intros Ha Hb Hc.
  split; [f_equal; f_equal; lia|].
  split; [f_equal; rewrite wrap32_add_l, wrap32_add_r; f_equal; lia|].
  split; [f_equal; rewrite Z.add_0_r; now apply wrap32_id|].
  split; [f_equal; rewrite wrap32_add_r; now replace (a + - a) with 0 by lia|].
  split; [f_equal; now replace (a - a) with 0 by lia|].
  split; [f_equal; rewrite wrap32_add_r; f_equal; lia|].
  split; [f_equal; rewrite wrap32_opp, Z.opp_involutive; now apply wrap32_id|].
  repeat split; apply wrap32_is_int32.
Qed.

Lemma add_group_witness :
  valid (Raw 0x18000) /\ valid (Raw (-0x8000)) /\ valid (Raw INT32_MIN) /\
  add (Raw 0x18000) (Raw (-0x8000)) = add (Raw (-0x8000)) (Raw 0x18000) /\
  add (add (Raw 0x18000) (Raw (-0x8000))) (Raw INT32_MIN) =
    add (Raw 0x18000) (add (Raw (-0x8000)) (Raw INT32_MIN)) /\
  add (Raw 0x18000) (Raw 0) = Raw 0x18000 /\
  add (Raw 0x18000) (neg (Raw 0x18000)) = Raw 0 /\
  sub (Raw 0x18000) (Raw 0x18000) = Raw 0 /\
  sub (Raw 0x18000) (Raw (-0x8000)) = add (Raw 0x18000) (neg (Raw (-0x8000))) /\
  neg (neg (Raw 0x18000)) = Raw 0x18000 /\
  valid (add (Raw 0x18000) (Raw (-0x8000))) /\
  valid (sub (Raw 0x18000) (Raw (-0x8000))) /\ valid (neg (Raw 0x18000)).
Proof.
  assert (H1 : valid (Raw 0x18000)) by (unfold valid, is_int32, INT32_MIN, INT32_MAX; cbn; lia).
  assert (H2 : valid (Raw (-0x8000))) by (unfold valid, is_int32, INT32_MIN, INT32_MAX; cbn; lia).
  assert (H3 : valid (Raw INT32_MIN)) by (unfold valid, is_int32, INT32_MIN, INT32_MAX; cbn; lia).
  exact (conj H1 (conj H2 (conj H3
    (add_group (Raw 0x18000) (Raw (-0x8000)) (Raw INT32_MIN) H1 H2 H3)))).
Defined.

Lemma Floor_spec (a : TFixed) : Floor a = iValue a / 65536.
Proof. unfold Floor. now rewrite Z.shiftr_div_pow2 by lia. Qed.

Lemma FractionalPart_spec (a : TFixed) : RawValue (FractionalPart a) = iValue a mod 65536.
Proof.
  unfold FractionalPart, RawValue; cbn [iValue].
  change 0x0000FFFF with (Z.ones 16). now rewrite Z.land_ones by lia.
Qed.

(** X2: [IntegerPart] and [FractionalPart] split a value with floor
    semantics: the value is the integer part times 65536 plus the fractional
    part, which lies in [0, 1); so the fractional part of -0.2 is 0.8 and its
    integer part is -1. *)
Theorem integer_fractional_split (a : TFixed) :
  iValue a = IntegerPart a * 65536 + RawValue (FractionalPart a) /\
  0 <= RawValue (FractionalPart a) < 65536 /\
  IntegerPart a = Floor a /\
  IntegerPart (FractionalPart a) = 0 /\
  FractionalPart (FractionalPart a) = FractionalPart a.
Proof.
  pose proof (FractionalPart_spec a) as Hf.
  pose proof (Z.mod_pos_bound (iValue a) 65536 ltac:(lia)) as Hb.
  assert (Hi : IntegerPart a = iValue a / 65536).
  { unfold IntegerPart. now rewrite Z.shiftr_div_pow2 by lia. }
  split; [rewrite Hi, Hf; pose proof (Z.div_mod (iValue a) 65536); lia|].
  split; [lia|]. split; [now rewrite Hi, Floor_spec|].
  split.
  - unfold IntegerPart. rewrite Z.shiftr_div_pow2 by lia.
    fold (RawValue (FractionalPart a)). apply Z.div_small. change (2 ^ 16) with 65536. lia.
  - destruct (FractionalPart a) as [f] eqn:E. unfold RawValue in *; cbn [iValue] in *.
    unfold FractionalPart; cbn [iValue]. f_equal.
    change 0x0000FFFF with (Z.ones 16). rewrite Z.land_ones by lia.
    apply Z.mod_small. change (2 ^ 16) with 65536. lia.
Qed.

Example fractional_part_negative :
  IntegerPart (Raw (-13107)) = -1 /\ FractionalPart (Raw (-13107)) = Raw 52429.
Proof. split; reflexivity. Qed.

(** X3: for a value that fits 32 bits and whose raw value plus 65535 still
    fits 32 bits, the floor, the rounded value and the ceiling are in this
    order and at most one apart; the ceiling is the floor exactly when the
    fractional part is zero, and the rounded value is the floor exactly when
    the fractional part is below one half. For every such value other than
    the least 32-bit integer the ceiling of a is minus the floor of -a; at
    the least 32-bit integer, whose negation is itself, the ceiling is -32768
    and minus the floor of -a is 32768. *)
Theorem rounding_order (a : TFixed) :
  INT32_MIN <= iValue a -> iValue a + 65535 <= INT32_MAX ->
  Floor a <= Rounded a <= Ceiling a /\ Ceiling a <= Floor a + 1 /\
  Floor a * 65536 <= iValue a < (Floor a + 1) * 65536 /\
  (Ceiling a = Floor a <-> RawValue (FractionalPart a) = 0) /\
  (Rounded a = Floor a <-> RawValue (FractionalPart a) < 0x8000) /\
  (INT32_MIN < iValue a -> Ceiling a = - Floor (neg a)) /\
  (iValue a = INT32_MIN -> Ceiling a = -32768 /\ - Floor (neg a) = 32768).
Proof.
  unfold INT32_MIN, INT32_MAX. intros Hlo Hhi.
  pose proof (FractionalPart_spec a) as Hf. rewrite Hf.
  split; [|split; [|split; [|split; [|split; [|split]]]]].
  7:{ destruct a as [v]; cbn [iValue] in *. intros ->. split; reflexivity. }
  6:{ intros Hlo'. unfold Ceiling, neg. rewrite !Floor_spec; cbn [iValue].
      rewrite !wrap32_id by (unfold is_int32, INT32_MIN, INT32_MAX; lia).
      rewrite !Z.shiftr_div_pow2 by lia. change (2 ^ 16) with 65536.
      Z.div_mod_to_equations; lia. }
  all: unfold Rounded, Ceiling; rewrite ?Floor_spec; cbn [iValue];
    rewrite ?wrap32_id by (unfold is_int32, INT32_MIN, INT32_MAX; lia);
    rewrite ?Z.shiftr_div_pow2 by lia; change (2 ^ 16) with 65536;
    repeat split; intros; Z.div_mod_to_equations; lia.
Qed.

Lemma rounding_order_witness :
  INT32_MIN <= -13107 /\ -13107 + 65535 <= INT32_MAX /\
  Floor (Raw (-13107)) <= Rounded (Raw (-13107)) <= Ceiling (Raw (-13107)) /\
  Ceiling (Raw (-13107)) <= Floor (Raw (-13107)) + 1 /\
  Floor (Raw (-13107)) * 65536 <= -13107 < (Floor (Raw (-13107)) + 1) * 65536 /\
  (Ceiling (Raw (-13107)) = Floor (Raw (-13107)) <->
   RawValue (FractionalPart (Raw (-13107))) = 0) /\
  (Rounded (Raw (-13107)) = Floor (Raw (-13107)) <->
   RawValue (FractionalPart (Raw (-13107))) < 0x8000) /\
  (INT32_MIN < -13107 -> Ceiling (Raw (-13107)) = - Floor (neg (Raw (-13107)))) /\
  (-13107 = INT32_MIN ->
   Ceiling (Raw (-13107)) = -32768 /\ - Floor (neg (Raw (-13107))) = 32768).
Proof.
  assert (H1 : INT32_MIN <= -13107) by (unfold INT32_MIN; lia).
  assert (H2 : -13107 + 65535 <= INT32_MAX) by (unfold INT32_MAX; lia).
  exact (conj H1 (conj H2 (rounding_order (Raw (-13107)) H1 H2))).
Defined.

(** X4: a [TFixed] made from an integer n of 16 bits has raw value n * 65536,
    its floor, rounded value, ceiling and integer part are all n, and its
    fractional part is zero. *)
Theorem of_int_round_trip (n : Z) :
  - 2 ^ 15 <= n < 2 ^ 15 ->
  RawValue (of_int n) = n * 65536 /\
  Floor (of_int n) = n /\ Rounded (of_int n) = n /\ Ceiling (of_int n) = n /\
  IntegerPart (of_int n) = n /\ FractionalPart (of_int n) = Raw 0.
Proof.
  intros Hn.
  assert (Hraw : of_int n = Raw (n * 65536)).
  { unfold of_int. rewrite Z.shiftl_mul_pow2 by lia. f_equal.
    apply wrap32_id. unfold is_int32, INT32_MIN, INT32_MAX. lia. }
  rewrite Hraw. unfold RawValue, Floor, Rounded, Ceiling, IntegerPart, FractionalPart.
  cbn [iValue].
  rewrite !wrap32_id by (unfold is_int32, INT32_MIN, INT32_MAX; lia).
  rewrite !Z.shiftr_div_pow2 by lia. change (2 ^ 16) with 65536.
  change 0x0000FFFF with (Z.ones 16). rewrite Z.land_ones by lia.
  change (2 ^ 16) with 65536.
  assert (Hm : (n * 65536) mod 65536 = 0) by (apply Z.mod_mul; lia).
  rewrite Hm. change (Z.ones 16) with 65535.
  repeat split; Z.div_mod_to_equations; lia.
Qed.

Lemma of_int_round_trip_witness :
  - 2 ^ 15 <= -7 < 2 ^ 15 /\
  RawValue (of_int (-7)) = -7 * 65536 /\
  Floor (of_int (-7)) = -7 /\ Rounded (of_int (-7)) = -7 /\ Ceiling (of_int (-7)) = -7 /\
  IntegerPart (of_int (-7)) = -7 /\ FractionalPart (of_int (-7)) = Raw 0.
Proof.
  assert (H : - 2 ^ 15 <= -7 < 2 ^ 15) by lia.
  exact (conj H (of_int_round_trip (-7) H)).
Defined.

(** X5: a [TFixed] made from v 64ths, v of 22 bits, gives v back when rounded
    to 64ths; and the constructor from a value with a number of fractional
    bits agrees with the others: 0 bits is the constructor from an integer,
    6 bits the one from 64ths, 16 bits the raw value, and a number of bits
    outside 0...16 fails its assertion. *)
Theorem of_64ths_round_trip (v : Z) :
  - 2 ^ 21 <= v < 2 ^ 21 ->
  RawValue (of_64ths v) = v * 1024 /\
  Rounded64ths (of_64ths v) = v /\
  of_fractional v 6 = Some (of_64ths v) /\
  of_fractional v 0 = Some (of_int v) /\
  of_fractional v 16 = Some (Raw v) /\
  (forall bits, bits < 0 \/ 16 < bits -> of_fractional v bits = None).
Proof.
  intros Hv.
  assert (Hraw : of_64ths v = Raw (v * 1024)).
  { unfold of_64ths. rewrite Z.shiftl_mul_pow2 by lia. f_equal.
    apply wrap32_id. unfold is_int32, INT32_MIN, INT32_MAX. lia. }
  split; [now rewrite Hraw|]. split.
  { rewrite Hraw. unfold Rounded64ths; cbn [iValue].
    rewrite wrap32_id by (unfold is_int32, INT32_MIN, INT32_MAX; lia).
    rewrite Z.shiftr_div_pow2 by lia. change (2 ^ 10) with 1024.
    Z.div_mod_to_equations; lia. }
  split; [reflexivity|]. split; [reflexivity|]. split.
  { unfold of_fractional. cbn [Z.geb Z.leb Z.compare andb Z.sub Z.add Z.opp Z.pos_sub].
    change (16 - 16) with 0. rewrite Z.shiftl_0_r. do 2 f_equal.
    apply wrap32_id. unfold is_int32, INT32_MIN, INT32_MAX. lia. }
  intros bits Hb. unfold of_fractional.
  destruct (Z.geb_spec bits 0), (Z.leb_spec bits 16); cbn [andb]; try reflexivity; lia.
Qed.

Lemma of_64ths_round_trip_witness :
  - 2 ^ 21 <= -100 < 2 ^ 21 /\
  RawValue (of_64ths (-100)) = -100 * 1024 /\
  Rounded64ths (of_64ths (-100)) = -100 /\
  of_fractional (-100) 6 = Some (of_64ths (-100)) /\
  of_fractional (-100) 0 = Some (of_int (-100)) /\
  of_fractional (-100) 16 = Some (Raw (-100)) /\
  (forall bits, bits < 0 \/ 16 < bits -> of_fractional (-100) bits = None).
Proof.
  assert (H : - 2 ^ 21 <= -100 < 2 ^ 21) by lia.
  exact (conj H (of_64ths_round_trip (-100) H)).
Defined.

Lemma mul_sign_cases a b : mul_sign a b = 1 \/ mul_sign a b = -1.
Proof. unfold mul_sign. destruct (Bool.eqb _ _); auto. Qed.

Lemma mul_sign_comm a b : mul_sign a b = mul_sign b a.
Proof. unfold mul_sign. destruct (a <? 0), (b <? 0); reflexivity. Qed.

Lemma mul_magnitude_comm a b : mul_magnitude a b = mul_magnitude b a.
Proof. unfold mul_magnitude. now rewrite Z.mul_comm. Qed.

Lemma mul_magnitude_0_l b : mul_magnitude 0 b = 0.
Proof. rewrite mul_magnitude_eq, Z.abs_0, Z.mul_0_l. reflexivity. Qed.

Lemma mul_magnitude_opp_l a b : mul_magnitude (- a) b = mul_magnitude a b.
Proof. unfold mul_magnitude. now rewrite Z.abs_opp. Qed.

Lemma mul_sign_opp_l a b : a <> 0 -> mul_sign (- a) b = - mul_sign a b.
Proof.
  intros Ha. unfold mul_sign.
  destruct (Z.ltb_spec (- a) 0), (Z.ltb_spec a 0), (Z.ltb_spec b 0);
    cbn [Bool.eqb]; lia.
Qed.

Lemma neg_raw a : INT32_MIN < a <= INT32_MAX -> neg (Raw a) = Raw (- a).
Proof.
  unfold INT32_MIN, INT32_MAX. intros Ha. unfold neg; cbn [iValue]. f_equal.
  apply wrap32_id. unfold is_int32, INT32_MIN, INT32_MAX. lia.
Qed.

Lemma mul_comm_raw (x y : Z) :
  INT32_MIN < x <= INT32_MAX -> INT32_MIN < y <= INT32_MAX ->
  mul (Raw x) (Raw y) = mul (Raw y) (Raw x).
Proof.
  intros Hx Hy. rewrite !mul_raw by (cbn [iValue]; assumption). cbn [iValue].
  now rewrite mul_sign_comm, mul_magnitude_comm.
Qed.

Lemma mul_neg_l_raw (x y : Z) :
  INT32_MIN < x <= INT32_MAX -> INT32_MIN < y <= INT32_MAX ->
  mul (neg (Raw x)) (Raw y) = neg (mul (Raw x) (Raw y)).
Proof.
  intros Hx Hy.
  assert (Hnx : INT32_MIN < - x <= INT32_MAX) by (unfold INT32_MIN, INT32_MAX in *; lia).
  rewrite neg_raw by assumption.
  rewrite !mul_raw by (cbn [iValue]; assumption). cbn [iValue].
  unfold neg; cbn [iValue]. f_equal. rewrite wrap32_opp. f_equal.
  rewrite mul_magnitude_opp_l.
  destruct (Z.eq_dec x 0) as [->|Hx0].
  - rewrite mul_magnitude_0_l. lia.
  - rewrite mul_sign_opp_l by assumption. lia.
Qed.

Lemma mul_neg_r_raw (x y : Z) :
  INT32_MIN < x <= INT32_MAX -> INT32_MIN < y <= INT32_MAX ->
  mul (Raw x) (neg (Raw y)) = neg (mul (Raw x) (Raw y)).
Proof.
  intros Hx Hy.
  assert (Hny : INT32_MIN < - y <= INT32_MAX) by (unfold INT32_MIN, INT32_MAX in *; lia).
  rewrite neg_raw by assumption.
  rewrite (mul_comm_raw x (- y)), (mul_comm_raw x y) by assumption.
  rewrite <- neg_raw by assumption. now apply mul_neg_l_raw.
Qed.

Lemma mul_one_l_raw (x : Z) :
  INT32_MIN < x <= INT32_MAX -> mul (Raw 0x10000) (Raw x) = Raw x.
Proof.
  intros Ha.
  assert (H1 : INT32_MIN < 0x10000 <= INT32_MAX) by (unfold INT32_MIN, INT32_MAX; lia).
  rewrite mul_raw by (cbn [iValue]; assumption). cbn [iValue]. f_equal.
  rewrite mul_magnitude_eq.
  replace ((Z.abs 65536 * Z.abs x + 2 ^ 15) / 2 ^ 16) with (Z.abs x).
  2:{ apply Z.div_unique_pos with (r := 2 ^ 15); lia. }
  unfold mul_sign. change (65536 <? 0) with false.
  unfold INT32_MIN, INT32_MAX in Ha.
  destruct (Z.ltb_spec x 0); cbn [Bool.eqb];
    rewrite wrap32_id by (unfold is_int32, INT32_MIN, INT32_MAX; lia); lia.
Qed.

(** X6: on values other than the least 32-bit integer, [operator*] is
    commutative, and negating either operand negates the product: rounding
    is symmetric about zero. *)
Theorem mul_comm_and_sign (a b : TFixed) :
  INT32_MIN < iValue a <= INT32_MAX ->
  INT32_MIN < iValue b <= INT32_MAX ->
  mul a b = mul b a /\
  mul (neg a) b = neg (mul a b) /\
  mul a (neg b) = neg (mul a b).
Proof.
  destruct a as [a], b as [b]; cbn [iValue]. intros Ha Hb.
  split; [now apply mul_comm_raw|].
  split; [now apply mul_neg_l_raw | now apply mul_neg_r_raw].
Qed.

Lemma mul_comm_and_sign_witness :
  INT32_MIN < -98305 <= INT32_MAX /\ INT32_MIN < 0x8001 <= INT32_MAX /\
  mul (Raw (-98305)) (Raw 0x8001) = mul (Raw 0x8001) (Raw (-98305)) /\
  mul (neg (Raw (-98305))) (Raw 0x8001) = neg (mul (Raw (-98305)) (Raw 0x8001)) /\
  mul (Raw (-98305)) (neg (Raw 0x8001)) = neg (mul (Raw (-98305)) (Raw 0x8001)).
Proof.
  assert (H1 : INT32_MIN < -98305 <= INT32_MAX) by (unfold INT32_MIN, INT32_MAX; lia).
  assert (H2 : INT32_MIN < 0x8001 <= INT32_MAX) by (unfold INT32_MIN, INT32_MAX; lia).
  exact (conj H1 (conj H2 (mul_comm_and_sign (Raw (-98305)) (Raw 0x8001) H1 H2))).
Defined.

(** X7: 1.0 is a unit of [operator*] on both sides, zero absorbs on both
    sides, and multiplying by -1.0 negates, for every value other than the
    least 32-bit integer. *)
Theorem mul_units (a : TFixed) :
  INT32_MIN < iValue a <= INT32_MAX ->
  mul a (Raw 0x10000) = a /\ mul (Raw 0x10000) a = a /\
  mul a (Raw 0) = Raw 0 /\ mul (Raw 0) a = Raw 0 /\
  mul a (Raw (-0x10000)) = neg a /\ mul (Raw (-0x10000)) a = neg a.
Proof.
  destruct a as [a]; cbn [iValue]. intros Ha.
  assert (H1 : INT32_MIN < 0x10000 <= INT32_MAX) by (unfold INT32_MIN, INT32_MAX; lia).
  assert (Hm1 : INT32_MIN < -0x10000 <= INT32_MAX) by (unfold INT32_MIN, INT32_MAX; lia).
  assert (Hzero : mul (Raw a) (Raw 0) = Raw 0).
  { unfold mul, mul_assign; cbn [iValue].
    destruct (Z.eqb_spec a 0) as [->|]; reflexivity. }
  assert (Hneg : mul (Raw (-0x10000)) (Raw a) = neg (Raw a)).
  { change (Raw (-0x10000)) with (neg (Raw 0x10000)).
    rewrite mul_neg_l_raw by assumption. now rewrite mul_one_l_raw. }
  split; [rewrite mul_comm_raw by assumption; now apply mul_one_l_raw|].
  split; [now apply mul_one_l_raw|]. split; [exact Hzero|]. split; [reflexivity|].
  split; [|exact Hneg]. rewrite mul_comm_raw by assumption. exact Hneg.
Qed.

Lemma mul_units_witness :
  INT32_MIN < -98305 <= INT32_MAX /\
  mul (Raw (-98305)) (Raw 0x10000) = Raw (-98305) /\
  mul (Raw 0x10000) (Raw (-98305)) = Raw (-98305) /\
  mul (Raw (-98305)) (Raw 0) = Raw 0 /\ mul (Raw 0) (Raw (-98305)) = Raw 0 /\
  mul (Raw (-98305)) (Raw (-0x10000)) = neg (Raw (-98305)) /\
  mul (Raw (-0x10000)) (Raw (-98305)) = neg (Raw (-98305)).
Proof.
  assert (H1 : INT32_MIN < -98305 <= INT32_MAX) by (unfold INT32_MIN, INT32_MAX; lia).
  exact (conj H1 (mul_units (Raw (-98305)) H1)).
Defined.

Lemma div_magnitude_nonneg a b : 0 <= div_magnitude a b.
Proof.
  unfold div_magnitude. destruct (Z.eq_dec (Z.abs b) 0) as [->|Hb].
  - now rewrite Z.div_0_r.
  - apply Z.div_pos; [|lia].
    assert (0 <= Z.abs b / 2) by (apply Z.div_pos; lia). lia.
Qed.

Lemma div_magnitude_bounds a b :
  b <> 0 ->
  div_magnitude a b * Z.abs b <= Z.abs a * 2 ^ 16 + Z.abs b / 2 <
  (div_magnitude a b + 1) * Z.abs b.
Proof.
  intros Hb. unfold div_magnitude.
  pose proof (Z.mul_div_le (Z.abs a * 2 ^ 16 + Z.abs b / 2) (Z.abs b)).
  pose proof (Z.mul_succ_div_gt (Z.abs a * 2 ^ 16 + Z.abs b / 2) (Z.abs b)).
  lia.
Qed.

Lemma half_bounds b : 0 <= b -> 2 * (b / 2) <= b < 2 * (b / 2) + 2.
Proof. intros Hb. Z.div_mod_to_equations. lia. Qed.

Lemma div_raw (a b : Z) :
  INT32_MIN < a <= INT32_MAX -> INT32_MIN < b <= INT32_MAX -> b <> 0 ->
  div (Raw a) (Raw b) = Raw (wrap32 (mul_sign a b * div_magnitude a b)).
Proof.
  intros Ha Hb Hb0. unfold div, div_assign; cbn [iValue].
  pose proof (div_magnitude_bounds a b Hb0) as HQ.
  pose proof (div_magnitude_nonneg a b) as HQ0.
  pose proof (half_bounds (Z.abs b) (Z.abs_nonneg b)) as Hh.
  destruct (Z.eqb_spec a 0) as [->|Ha0]; cbn [orb].
  { f_equal. assert (div_magnitude 0 b = 0) as -> by (rewrite Z.abs_0 in HQ; nia).
    now rewrite Z.mul_0_r. }
  destruct (Z.eqb_spec b 0x10000) as [->|Hb1].
  { f_equal. assert (div_magnitude a 65536 = Z.abs a) as ->.
    { change (Z.abs 65536) with 65536 in *. change (65536 / 2) with 32768 in *. nia. }
    unfold mul_sign. change (65536 <? 0) with false.
    unfold INT32_MIN, INT32_MAX in Ha.
    destruct (Z.ltb_spec a 0); cbn [Bool.eqb];
      rewrite wrap32_id by (unfold is_int32, INT32_MIN, INT32_MAX; lia); lia. }
  rewrite separate_sign_spec by assumption.
  destruct (Z.eqb_spec (Z.abs b) 0) as [Eb|_]; [lia|].
  rewrite Z.shiftl_mul_pow2, Z.shiftr_div_pow2 by lia. change (2 ^ 1) with 2.
  unfold INT32_MIN, INT32_MAX in *.
  rewrite (wrap64_id (Z.abs a * 2 ^ 16)) by lia.
  rewrite wrap64_id by lia.
  rewrite Z.quot_div_nonneg by lia.
  fold (div_magnitude a b). f_equal.
  destruct (mul_sign_cases a b) as [-> | ->].
  - change (1 <? 0) with false. cbv iota. rewrite wrap32_wrapu32. f_equal; lia.
  - change (-1 <? 0) with true. cbv iota. rewrite wrap32_wrapu32, wrap32_opp. f_equal; lia.
Qed.

(** C6, as stated, fails for a small multiplier: with a = 0x18002 and
    b = 0.25 the product is rounded to 0x6001 and the quotient is 0x18004,
    two units away from a. The greatest magnitude of b at which it fails is
    0x5555: with a = 0x8000 the quotient is 0x8002. It also fails when the
    rounded product does not fit 32 bits (256.0 * 256.0 is 0), when the
    rounded quotient does not (a = 0x7FFFFFFF, b = 0x5556), and when a or b
    is the least 32-bit integer, whose magnitude is not an [int32_t]. *)
Lemma div_mul_off_by_two :
  valid (Raw 0x18002) /\ valid (Raw 0x4000) /\ iValue (Raw 0x4000) <> 0 /\
  RawValue (div (mul (Raw 0x18002) (Raw 0x4000)) (Raw 0x4000)) = 0x18004 /\
  ~ Z.abs (RawValue (div (mul (Raw 0x18002) (Raw 0x4000)) (Raw 0x4000))
           - RawValue (Raw 0x18002)) <= 1 /\
  RawValue (div (mul (Raw 0x8000) (Raw 0x5555)) (Raw 0x5555)) = 0x8002 /\
  RawValue (div (mul (Raw 0x1000000) (Raw 0x1000000)) (Raw 0x1000000)) = 0 /\
  RawValue (div (mul (Raw 0x7FFFFFFF) (Raw 0x5556)) (Raw 0x5556)) = INT32_MIN /\
  RawValue (div (mul (Raw INT32_MIN) (Raw 0x20000)) (Raw 0x20000)) = 0 /\
  RawValue (div (mul (Raw 0x30000) (Raw INT32_MIN)) (Raw INT32_MIN)) = 0x10000.
Proof.
  unfold valid, is_int32, INT32_MIN, INT32_MAX. cbn [iValue].
  repeat split; try lia; try discriminate.
  change (RawValue (div (mul (Raw 0x18002) (Raw 0x4000)) (Raw 0x4000))) with 0x18004.
  unfold RawValue; cbn [iValue]. lia.
Qed.

Lemma roundtrip_magnitude_near a b :
  0 <= a -> 0x5556 <= b ->
  a - 1 <= ((a * b + 2 ^ 15) / 2 ^ 16 * 2 ^ 16 + b / 2) / b <= a + 1.
Proof.
  intros Ha Hb.
  set (p := (a * b + 2 ^ 15) / 2 ^ 16).
  assert (Hp1 : p * 2 ^ 16 <= a * b + 2 ^ 15).
  { subst p. pose proof (Z.mul_div_le (a * b + 2 ^ 15) (2 ^ 16)). lia. }
  assert (Hp2 : a * b + 2 ^ 15 < p * 2 ^ 16 + 2 ^ 16).
  { subst p. pose proof (Z.mul_succ_div_gt (a * b + 2 ^ 15) (2 ^ 16)). lia. }
  assert (Hh1 : 2 * (b / 2) <= b) by (apply Z.mul_div_le; lia).
  assert (Hh2 : b < 2 * (b / 2) + 2).
  { pose proof (Z.mul_succ_div_gt b 2). lia. }
  set (q := (p * 2 ^ 16 + b / 2) / b).
  assert (Hq1 : q * b <= p * 2 ^ 16 + b / 2).
  { subst q. pose proof (Z.mul_div_le (p * 2 ^ 16 + b / 2) b). lia. }
  assert (Hq2 : p * 2 ^ 16 + b / 2 < (q + 1) * b).
  { subst q. pose proof (Z.mul_succ_div_gt (p * 2 ^ 16 + b / 2) b). lia. }
  split; nia.
Qed.

(** C6 (amended): for [TFixed] values a and b other than the least 32-bit
    integer, with a raw magnitude of b of at least 0x5556 (just over one
    third), a product a*b whose rounded magnitude fits 32 bits and, when |b|
    is below 1.0, a quotient whose rounded magnitude fits 32 bits as well,
    (a*b)/b is within one unit of least precision of a. *)
Theorem div_mul_within_one_ulp (a b : TFixed) :
  INT32_MIN < iValue a <= INT32_MAX ->
  INT32_MIN < iValue b <= INT32_MAX ->
  0x5556 <= Z.abs (iValue b) ->
  mul_magnitude (iValue a) (iValue b) <= INT32_MAX ->
  (Z.abs (iValue b) < 0x10000 ->
   div_magnitude (mul_magnitude (iValue a) (iValue b)) (iValue b) <= INT32_MAX) ->
  Z.abs (RawValue (div (mul a b) b) - RawValue a) <= 1.
Proof.
  intros Ha Hb Hb1 HM HQ.
  destruct (Z.le_gt_cases 0x10000 (Z.abs (iValue b))) as [Hbig|Hsmall].
  { rewrite (div_mul_exact a b Ha Hb Hbig HM). lia. }
  specialize (HQ Hsmall).
  rewrite (mul_raw a b Ha Hb).
  destruct a as [a], b as [b]; unfold RawValue; cbn [iValue] in *.
  pose proof (mul_magnitude_nonneg a b) as HM0.
  set (M := mul_magnitude a b) in *.
  assert (Hs : mul_sign a b = 1 \/ mul_sign a b = -1) by apply mul_sign_cases.
  unfold INT32_MIN, INT32_MAX in *.
  rewrite wrap32_id by (unfold is_int32, INT32_MIN, INT32_MAX; destruct Hs as [-> | ->]; lia).
  assert (Hb0 : b <> 0) by lia.
  rewrite div_raw
    by (unfold INT32_MIN, INT32_MAX; destruct Hs as [E | E]; rewrite ?E; lia).
  cbn [iValue].
  assert (HQM : div_magnitude (mul_sign a b * M) b = div_magnitude M b).
  { unfold div_magnitude. f_equal. f_equal. destruct Hs as [-> | ->]; lia. }
  rewrite HQM. set (Q := div_magnitude M b) in *.
  assert (HQ0 : 0 <= Q) by apply div_magnitude_nonneg.
  assert (Hnear : Z.abs a - 1 <= Q <= Z.abs a + 1).
  { subst Q M. unfold div_magnitude. rewrite mul_magnitude_eq.
    rewrite (Z.abs_eq ((Z.abs a * Z.abs b + 2 ^ 15) / 2 ^ 16))
      by (apply Z.div_pos; lia).
    apply roundtrip_magnitude_near; lia. }
  assert (Hs2 : mul_sign (mul_sign a b * M) b = 1 \/ mul_sign (mul_sign a b * M) b = -1)
    by apply mul_sign_cases.
  rewrite wrap32_id by (unfold is_int32, INT32_MIN, INT32_MAX; destruct Hs2 as [-> | ->]; lia).
  destruct (Z.eq_dec M 0) as [HM00|HMpos].
  { assert (HQ00 : Q = 0).
    { subst Q. unfold div_magnitude. rewrite HM00. cbn [Z.abs Z.mul].
      apply Z.div_small. split; [apply Z.div_pos; lia|].
      apply Z.div_lt_upper_bound; lia. }
    rewrite HQ00, Z.mul_0_r. lia. }
  unfold mul_sign in *.
  destruct (Z.ltb_spec a 0), (Z.ltb_spec b 0); cbn [Bool.eqb] in *;
    repeat match goal with
    | |- context [?x * ?y <? 0] => destruct (Z.ltb_spec (x * y) 0); try lia
    end; cbn [Bool.eqb]; try lia.
  all: assert (a = 0) by lia; subst a; lia.
Qed.

Lemma div_mul_within_one_ulp_witness :
  (INT32_MIN < 0x18002 <= INT32_MAX) /\ (INT32_MIN < -0x5556 <= INT32_MAX) /\
  0x5556 <= Z.abs (-0x5556) /\
  mul_magnitude 0x18002 (-0x5556) <= INT32_MAX /\
  (Z.abs (-0x5556) < 0x10000 ->
   div_magnitude (mul_magnitude 0x18002 (-0x5556)) (-0x5556) <= INT32_MAX) /\
  Z.abs (RawValue (div (mul (Raw 0x18002) (Raw (-0x5556))) (Raw (-0x5556)))
         - RawValue (Raw 0x18002)) <= 1.
Proof.
  assert (H1 : INT32_MIN < 0x18002 <= INT32_MAX) by (unfold INT32_MIN, INT32_MAX; lia).
  assert (H2 : INT32_MIN < -0x5556 <= INT32_MAX) by (unfold INT32_MIN, INT32_MAX; lia).
  assert (H3 : 0x5556 <= Z.abs (-0x5556)) by (cbn; lia).
  assert (H4 : mul_magnitude 0x18002 (-0x5556) <= INT32_MAX)
    by (vm_compute; discriminate).
  assert (H5 : Z.abs (-0x5556) < 0x10000 ->
               div_magnitude (mul_magnitude 0x18002 (-0x5556)) (-0x5556) <= INT32_MAX)
    by (intros _; vm_compute; discriminate).
  exact (conj H1 (conj H2 (conj H3 (conj H4 (conj H5
    (div_mul_within_one_ulp (Raw 0x18002) (Raw (-0x5556)) H1 H2 H3 H4 H5)))))).
Defined.

(** X8: on values other than the least 32-bit integer and a non-zero
    divisor, the raw value of a/b is s * ((|a| << 16) + (|b| >> 1)) / |b|
    reduced to 32 bits, with s the sign of the quotient; it is that number
    itself when the magnitude fits 32 bits. The magnitude is the exact
    quotient rounded to the nearest unit, and the fast paths for a zero
    dividend and for the divisor 1.0 agree with the formula. *)
Theorem div_rounds_to_nearest (a b : TFixed) :
  INT32_MIN < iValue a <= INT32_MAX ->
  INT32_MIN < iValue b <= INT32_MAX ->
  iValue b <> 0 ->
  RawValue (div a b) =
    wrap32 (mul_sign (iValue a) (iValue b) * div_magnitude (iValue a) (iValue b)) /\
  (div_magnitude (iValue a) (iValue b) <= INT32_MAX ->
   RawValue (div a b) =
     mul_sign (iValue a) (iValue b) * div_magnitude (iValue a) (iValue b)) /\
  2 * Z.abs (div_magnitude (iValue a) (iValue b) * Z.abs (iValue b)
             - Z.abs (iValue a) * 65536) <= Z.abs (iValue b).
Proof.
  destruct a as [a], b as [b]; cbn [iValue]. intros Ha Hb Hb0.
  rewrite div_raw by assumption. unfold RawValue; cbn [iValue].
  pose proof (div_magnitude_bounds a b Hb0) as HQ.
  pose proof (div_magnitude_nonneg a b) as HQ0.
  pose proof (half_bounds (Z.abs b) (Z.abs_nonneg b)) as Hh.
  split; [reflexivity|]. split.
  - intros HM. apply wrap32_id. unfold is_int32, INT32_MIN, INT32_MAX in *.
    destruct (mul_sign_cases a b) as [-> | ->]; lia.
  - change (2 ^ 16) with 65536 in HQ. lia.
Qed.

Lemma div_rounds_to_nearest_witness :
  INT32_MIN < -0x10000 <= INT32_MAX /\ INT32_MIN < 0x30000 <= INT32_MAX /\
  0x30000 <> 0 /\
  RawValue (div (Raw (-0x10000)) (Raw 0x30000)) = wrap32 (-1 * 0x5555) /\
  (0x5555 <= INT32_MAX -> RawValue (div (Raw (-0x10000)) (Raw 0x30000)) = -1 * 0x5555) /\
  2 * Z.abs (0x5555 * Z.abs 0x30000 - Z.abs (-0x10000) * 65536) <= Z.abs 0x30000.
Proof.
  assert (H1 : INT32_MIN < -0x10000 <= INT32_MAX) by (unfold INT32_MIN, INT32_MAX; lia).
  assert (H2 : INT32_MIN < 0x30000 <= INT32_MAX) by (unfold INT32_MIN, INT32_MAX; lia).
  assert (H3 : 0x30000 <> 0) by lia.
  exact (conj H1 (conj H2 (conj H3
    (div_rounds_to_nearest (Raw (-0x10000)) (Raw 0x30000) H1 H2 H3)))).
Defined.

(** X9: for every value a other than zero and the least 32-bit integer,
    a/a is 1.0; and for every a other than the least 32-bit integer
    a/1.0 is a, a/(-1.0) is -a and 0/a is 0. *)
Theorem div_units (a : TFixed) :
  INT32_MIN < iValue a <= INT32_MAX ->
  (iValue a <> 0 -> div a a = Raw 0x10000) /\
  div a (Raw 0x10000) = a /\
  div a (Raw (-0x10000)) = neg a /\
  div (Raw 0) a = Raw 0.
Proof.
  destruct a as [a]; cbn [iValue]. intros Ha.
  pose proof (half_bounds (Z.abs a) (Z.abs_nonneg a)) as Hh.
  split; [|split; [|split]].
  - intros Ha0. rewrite div_raw by assumption. f_equal.
    pose proof (div_magnitude_bounds a a Ha0) as HQ.
    assert (div_magnitude a a = 65536) as -> by (change (2 ^ 16) with 65536 in HQ; nia).
    unfold mul_sign. now destruct (a <? 0).
  - unfold div, div_assign; cbn [iValue]. change (65536 =? 65536) with true.
    now rewrite orb_true_r.
  - assert (Hm1 : INT32_MIN < -0x10000 <= INT32_MAX) by (unfold INT32_MIN, INT32_MAX; lia).
    rewrite div_raw by (assumption || lia).
    pose proof (div_magnitude_bounds a (-0x10000) ltac:(lia)) as HQ.
    assert (div_magnitude a (-65536) = Z.abs a) as ->.
    { change (Z.abs (-65536)) with 65536 in HQ. change (65536 / 2) with 32768 in HQ. nia. }
    unfold neg; cbn [iValue]. f_equal. f_equal.
    unfold mul_sign. change (-65536 <? 0) with true.
    destruct (Z.ltb_spec a 0); cbn [Bool.eqb]; lia.
  - reflexivity.
Qed.

Lemma div_units_witness :
  INT32_MIN < -98305 <= INT32_MAX /\
  (-98305 <> 0 -> div (Raw (-98305)) (Raw (-98305)) = Raw 0x10000) /\
  div (Raw (-98305)) (Raw 0x10000) = Raw (-98305) /\
  div (Raw (-98305)) (Raw (-0x10000)) = neg (Raw (-98305)) /\
  div (Raw 0) (Raw (-98305)) = Raw 0.
Proof.
  assert (H1 : INT32_MIN < -98305 <= INT32_MAX) by (unfold INT32_MIN, INT32_MAX; lia).
  exact (conj H1 (div_units (Raw (-98305)) H1)).
Defined.

(** X10: for values a and b other than the least 32-bit integer, with b
    non-zero and of magnitude at most 1.0, and a quotient a/b whose magnitude
    fits 32 bits, (a/b)*b is within one unit of least precision of a. *)
Theorem mul_div_within_one_ulp (a b : TFixed) :
  INT32_MIN < iValue a <= INT32_MAX ->
  INT32_MIN < iValue b <= INT32_MAX ->
  iValue b <> 0 -> Z.abs (iValue b) <= 0x10000 ->
  div_magnitude (iValue a) (iValue b) <= INT32_MAX ->
  Z.abs (RawValue (mul (div a b) b) - RawValue a) <= 1.
Proof.
  destruct a as [a], b as [b]; cbn [iValue]. intros Ha Hb Hb0 Hb1 HQmax.
  rewrite div_raw by assumption.
  pose proof (div_magnitude_bounds a b Hb0) as HQ.
  pose proof (div_magnitude_nonneg a b) as HQ0.
  pose proof (half_bounds (Z.abs b) (Z.abs_nonneg b)) as Hh.
  set (Q := div_magnitude a b) in *.
  change (2 ^ 16) with 65536 in HQ.
  unfold INT32_MIN, INT32_MAX in *.
  rewrite wrap32_id
    by (unfold is_int32, INT32_MIN, INT32_MAX; destruct (mul_sign_cases a b) as [E | E];
        rewrite E; lia).
  rewrite mul_raw
    by (cbn [iValue]; unfold INT32_MIN, INT32_MAX;
        (destruct (mul_sign_cases a b) as [E | E]; rewrite ?E; lia)).
  unfold RawValue; cbn [iValue].
  set (P := mul_magnitude (mul_sign a b * Q) b).
  assert (HP : P = (Q * Z.abs b + 32768) / 65536).
  { subst P. rewrite mul_magnitude_eq. change (2 ^ 15) with 32768. change (2 ^ 16) with 65536.
    do 3 f_equal. destruct (mul_sign_cases a b) as [-> | ->]; lia. }
  assert (HP1 : P * 65536 <= Q * Z.abs b + 32768 < (P + 1) * 65536).
  { rewrite HP. pose proof (Z.mul_div_le (Q * Z.abs b + 32768) 65536).
    pose proof (Z.mul_succ_div_gt (Q * Z.abs b + 32768) 65536). lia. }
  assert (HPA : Z.abs a - 1 <= P <= Z.abs a).
  { destruct (Z.eq_dec (Z.abs b) 65536) as [Eb|Nb].
    - rewrite Eb in *. change (65536 / 2) with 32768 in *. lia.
    - nia. }
  assert (HP0 : 0 <= P) by (rewrite HP; apply Z.div_pos; lia).
  destruct (Z.eq_dec a 0) as [->|Ha0].
  { assert (HP00 : P = 0) by lia. rewrite HP00, Z.mul_0_r. change (wrap32 0) with 0. lia. }
  assert (HQpos : 0 < Q) by nia.
  rewrite wrap32_id
    by (unfold is_int32, INT32_MIN, INT32_MAX;
        destruct (mul_sign_cases (mul_sign a b * Q) b) as [-> | ->]; lia).
  unfold mul_sign.
  destruct (Z.ltb_spec a 0), (Z.ltb_spec b 0); cbn [Bool.eqb];
    repeat match goal with
    | |- context [?x * ?y <? 0] => destruct (Z.ltb_spec (x * y) 0); try lia
    end; cbn [Bool.eqb]; lia.
Qed.

Lemma mul_div_within_one_ulp_witness :
  INT32_MIN < 0x18002 <= INT32_MAX /\ INT32_MIN < -0x4001 <= INT32_MAX /\
  -0x4001 <> 0 /\ Z.abs (-0x4001) <= 0x10000 /\
  div_magnitude 0x18002 (-0x4001) <= INT32_MAX /\
  Z.abs (RawValue (mul (div (Raw 0x18002) (Raw (-0x4001))) (Raw (-0x4001)))
         - RawValue (Raw 0x18002)) <= 1.
Proof.
  assert (H1 : INT32_MIN < 0x18002 <= INT32_MAX) by (unfold INT32_MIN, INT32_MAX; lia).
  assert (H2 : INT32_MIN < -0x4001 <= INT32_MAX) by (unfold INT32_MIN, INT32_MAX; lia).
  assert (H3 : -0x4001 <> 0) by lia.
  assert (H4 : Z.abs (-0x4001) <= 0x10000) by (cbn; lia).
  assert (H5 : div_magnitude 0x18002 (-0x4001) <= INT32_MAX) by (vm_compute; discriminate).
  exact (conj H1 (conj H2 (conj H3 (conj H4 (conj H5
    (mul_div_within_one_ulp (Raw 0x18002) (Raw (-0x4001)) H1 H2 H3 H4 H5)))))).
Defined.

(** X11: [Abs] of a value other than the least 32-bit integer is its
    magnitude: it is not negative, it is the same for a and -a, and applying
    it twice changes nothing. [Abs] of the least 32-bit integer is that value
    itself, which is negative. *)
Theorem Abs_magnitude (a : TFixed) :
  INT32_MIN < iValue a <= INT32_MAX ->
  RawValue (Abs a) = Z.abs (iValue a) /\
  0 <= RawValue (Abs a) /\
  Abs (neg a) = Abs a /\
  Abs (Abs a) = Abs a /\
  IsZero (Abs a) = IsZero a /\
  Abs (Raw INT32_MIN) = Raw INT32_MIN.
Proof.
  destruct a as [a]; cbn [iValue]. intros Ha.
  assert (E : Abs (Raw a) = Raw (Z.abs a)).
  { unfold Abs; cbn [iValue]. destruct (Z.geb_spec a 0).
    - f_equal. lia.
    - rewrite neg_raw by assumption. f_equal. lia. }
  assert (E' : Abs (Raw (Z.abs a)) = Raw (Z.abs a)).
  { unfold Abs; cbn [iValue]. destruct (Z.geb_spec (Z.abs a) 0); [reflexivity | lia]. }
  rewrite neg_raw by assumption. rewrite E, E'.
  unfold RawValue, IsZero; cbn [iValue].
  split; [reflexivity|]. split; [lia|]. split.
  { unfold Abs; cbn [iValue]. destruct (Z.geb_spec (- a) 0).
    - f_equal. lia.
    - rewrite neg_raw by (unfold INT32_MIN, INT32_MAX in *; lia). f_equal. lia. }
  split; [reflexivity|]. split; [|reflexivity].
  destruct (Z.eqb_spec (Z.abs a) 0), (Z.eqb_spec a 0); try reflexivity; lia.
Qed.

Lemma Abs_magnitude_witness :
  INT32_MIN < -98305 <= INT32_MAX /\
  RawValue (Abs (Raw (-98305))) = Z.abs (-98305) /\
  0 <= RawValue (Abs (Raw (-98305))) /\
  Abs (neg (Raw (-98305))) = Abs (Raw (-98305)) /\
  Abs (Abs (Raw (-98305))) = Abs (Raw (-98305)) /\
  IsZero (Abs (Raw (-98305))) = IsZero (Raw (-98305)) /\
  Abs (Raw INT32_MIN) = Raw INT32_MIN.
Proof.
  assert (H1 : INT32_MIN < -98305 <= INT32_MAX) by (unfold INT32_MIN, INT32_MAX; lia).
  exact (conj H1 (Abs_magnitude (Raw (-98305)) H1)).
Defined.
End FixedArithmetic.

(** ** Fixed-point points and lines *)

Section FixedLines.
Import Fixed.
Variable VectorLengthHelper : TPointFixed -> TFixed.

Lemma VectorLength_x (d : Z) :
  INT32_MIN < d <= INT32_MAX ->
  VectorLength VectorLengthHelper (PointFixed (Raw d) (Raw 0)) = Raw (Z.abs d).
Proof.
  intros Hd. unfold VectorLength, RawValue; cbn [iX iY iValue].
  destruct (Z.eqb_spec d 0) as [->|Hd0]; [reflexivity|].
  change (0 =? 0) with true. cbv iota.
  destruct (Z.geb_spec d 0).
  - f_equal. lia.
  - rewrite neg_raw by assumption. f_equal. lia.
Qed.

Lemma VectorLength_y (d : Z) :
  INT32_MIN < d <= INT32_MAX ->
  VectorLength VectorLengthHelper (PointFixed (Raw 0) (Raw d)) = Raw (Z.abs d).
Proof.
  intros Hd. unfold VectorLength, RawValue; cbn [iX iY iValue].
  change (0 =? 0) with true. cbv iota.
  destruct (Z.geb_spec d 0).
  - f_equal. lia.
  - rewrite neg_raw by assumption. f_equal. lia.
Qed.

(** X12: the length of a horizontal line from (x1,y) to (x2,y) whose
    difference x2 - x1 fits 32 bits (and is not the least 32-bit integer) is
    |x2 - x1|, without any use of [VectorLengthHelper]. The first call of
    [Length] stores it in the line, a second call returns it and leaves the
    line as it is, and the reversed line, cached or not, has the same
    length. The same holds for a vertical line. *)
Theorem Length_axis_aligned (x1 x2 y : Z) :
  is_int32 x1 -> is_int32 x2 -> is_int32 y ->
  INT32_MIN < x2 - x1 <= INT32_MAX ->
  let horizontal := Line (PointFixed (Raw x1) (Raw y)) (PointFixed (Raw x2) (Raw y)) in
  let vertical := Line (PointFixed (Raw y) (Raw x1)) (PointFixed (Raw y) (Raw x2)) in
  let len := Raw (Z.abs (x2 - x1)) in
  (forall l, l = horizontal \/ l = vertical ->
     fst (Length VectorLengthHelper l) = len /\
     iLength (snd (Length VectorLengthHelper l)) = len /\
     Length VectorLengthHelper (snd (Length VectorLengthHelper l)) =
       (len, snd (Length VectorLengthHelper l)) /\
     fst (Length VectorLengthHelper (LineReverse l)) = len /\
     fst (Length VectorLengthHelper (LineReverse (snd (Length VectorLengthHelper l)))) = len).
Proof.
  intros Hx1 Hx2 Hy Hd horizontal vertical len l Hl.
  assert (Hd' : INT32_MIN < x1 - x2 <= INT32_MAX) by (unfold INT32_MIN, INT32_MAX in *; lia).
  assert (E1 : wrap32 (x2 - x1) = x2 - x1)
    by (apply wrap32_id; unfold is_int32, INT32_MIN, INT32_MAX in *; lia).
  assert (E2 : wrap32 (x1 - x2) = x1 - x2)
    by (apply wrap32_id; unfold is_int32, INT32_MIN, INT32_MAX in *; lia).
  assert (E0 : wrap32 (y - y) = 0) by (now rewrite Z.sub_diag).
  assert (Hlen : (RawValue len <? 0) = false).
  { subst len. unfold RawValue; cbn [iValue]. apply Z.ltb_ge. lia. }
  assert (Habs : Z.abs (x1 - x2) = Z.abs (x2 - x1)) by lia.
  destruct Hl as [-> | ->]; subst horizontal vertical;
    unfold Length, Line, LineReverse, point_sub, sub; cbn [iStart iEnd iLength iX iY iValue fst snd];
    change (RawValue (Raw (-1)) <? 0) with true; cbv iota; cbn [fst snd iLength iStart iEnd iX iY iValue];
    rewrite ?E0, ?E1, ?E2, ?VectorLength_x, ?VectorLength_y by assumption;
    fold len; rewrite ?Hlen, ?Habs; auto.
Qed.

End FixedLines.

Section FixedLinesExamples.
Import Fixed.
Lemma Length_axis_aligned_witness :
  is_int32 0x10000 /\ is_int32 (-0x28000) /\ is_int32 0x30000 /\
  INT32_MIN < -0x28000 - 0x10000 <= INT32_MAX /\
  (forall l,
     l = Line (PointFixed (Raw 0x10000) (Raw 0x30000)) (PointFixed (Raw (-0x28000)) (Raw 0x30000)) \/
     l = Line (PointFixed (Raw 0x30000) (Raw 0x10000)) (PointFixed (Raw 0x30000) (Raw (-0x28000))) ->
     fst (Length (fun _ => Raw 0) l) = Raw 0x38000 /\
     iLength (snd (Length (fun _ => Raw 0) l)) = Raw 0x38000 /\
     Length (fun _ => Raw 0) (snd (Length (fun _ => Raw 0) l)) =
       (Raw 0x38000, snd (Length (fun _ => Raw 0) l)) /\
     fst (Length (fun _ => Raw 0) (LineReverse l)) = Raw 0x38000 /\
     fst (Length (fun _ => Raw 0) (LineReverse (snd (Length (fun _ => Raw 0) l)))) = Raw 0x38000).
Proof.
  assert (H1 : is_int32 0x10000) by (unfold is_int32, INT32_MIN, INT32_MAX; lia).
  assert (H2 : is_int32 (-0x28000)) by (unfold is_int32, INT32_MIN, INT32_MAX; lia).
  assert (H3 : is_int32 0x30000) by (unfold is_int32, INT32_MIN, INT32_MAX; lia).
  assert (H4 : INT32_MIN < -0x28000 - 0x10000 <= INT32_MAX) by (unfold INT32_MIN, INT32_MAX; lia).
  exact (conj H1 (conj H2 (conj H3 (conj H4
    (Length_axis_aligned (fun _ => Raw 0) 0x10000 (-0x28000) 0x30000 H1 H2 H3 H4))))).
Defined.
End FixedLinesExamples.

(** ** Fixed-point values and integers *)

Section FixedIntegers.
Import Fixed.

(** X27: for a value a other than the least 32-bit integer and an integer n
    of magnitude below 2^15 whose product with the raw value of a fits 32
    bits (and is not the least 32-bit integer), multiplying by the integer n
    multiplies the raw value by n, it is the same as the fixed-point product
    with [TFixed(n)] on either side, without any rounding, and the division
    by a non-zero n gives a back. The division of a by a non-zero integer is
    the quotient of the raw value truncated towards zero. The division by the
    integer zero has no result, and neither has the division of the least
    32-bit integer by -1. *)
Theorem mul_int_agrees (a : TFixed) (n : Z) :
  INT32_MIN < iValue a <= INT32_MAX ->
  - 2 ^ 15 < n < 2 ^ 15 ->
  INT32_MIN < iValue a * n <= INT32_MAX ->
  RawValue (mul_int a n) = iValue a * n /\
  mul a (of_int n) = mul_int a n /\
  mul (of_int n) a = mul_int a n /\
  (n <> 0 -> div_int (mul_int a n) n = Some a) /\
  (n <> 0 -> div_int a n = Some (Raw (Z.quot (iValue a) n))) /\
  div_int a 0 = None /\
  div_int (Raw INT32_MIN) (-1) = None.
Proof.
  destruct a as [a]; cbn [iValue]. unfold INT32_MIN, INT32_MAX. intros Ha Hn Han.
  assert (Hint : mul_int (Raw a) n = Raw (a * n)).
  { unfold mul_int; cbn [iValue]. f_equal. apply wrap32_id.
    unfold is_int32, INT32_MIN, INT32_MAX. lia. }
  assert (Hof : of_int n = Raw (n * 65536)).
  { unfold of_int. f_equal. rewrite Z.shiftl_mul_pow2 by lia. apply wrap32_id.
    unfold is_int32, INT32_MIN, INT32_MAX. lia. }
  assert (Hmul : mul (Raw a) (Raw (n * 65536)) = Raw (a * n)).
  { rewrite mul_raw by (cbn [iValue]; unfold INT32_MIN, INT32_MAX; lia).
    cbn [iValue]. f_equal. rewrite mul_magnitude_eq.
    replace ((Z.abs a * Z.abs (n * 65536) + 2 ^ 15) / 2 ^ 16) with (Z.abs (a * n)).
    2:{ apply Z.div_unique_pos with (r := 2 ^ 15); [lia|].
        rewrite !Z.abs_mul. change (Z.abs 65536) with 65536. lia. }
    replace (mul_sign a (n * 65536) * Z.abs (a * n)) with (a * n).
    { apply wrap32_id. unfold is_int32, INT32_MIN, INT32_MAX. lia. }
    unfold mul_sign.
    destruct (Z.ltb_spec a 0), (Z.ltb_spec (n * 65536) 0); cbn [Bool.eqb]; nia. }
  assert (Hdiv : forall v, - 2 ^ 31 < v -> n <> 0 ->
            div_int (Raw v) n = Some (Raw (Z.quot v n))).
  { intros v Hv Hn0. unfold div_int, INT32_MIN; cbn [iValue].
    destruct (Z.eqb_spec n 0); [contradiction|].
    destruct (Z.eqb_spec v (- 2 ^ 31)); [lia|]. reflexivity. }
  rewrite Hof, Hint. unfold RawValue; cbn [iValue].
  split; [reflexivity|]. split; [exact Hmul|]. split.
  { rewrite mul_comm_raw by (cbn [iValue]; unfold INT32_MIN, INT32_MAX; lia). exact Hmul. }
  split.
  { intros Hn0. rewrite Hdiv by (assumption || lia). now rewrite Z.quot_mul. }
  split; [intros Hn0; apply Hdiv; [lia|assumption]|].
  split; reflexivity.
Qed.

Lemma mul_int_agrees_witness :
  INT32_MIN < iValue (Raw 0x18000) <= INT32_MAX /\
  - 2 ^ 15 < -3 < 2 ^ 15 /\
  INT32_MIN < iValue (Raw 0x18000) * -3 <= INT32_MAX /\
  RawValue (mul_int (Raw 0x18000) (-3)) = iValue (Raw 0x18000) * -3 /\
  mul (Raw 0x18000) (of_int (-3)) = mul_int (Raw 0x18000) (-3) /\
  mul (of_int (-3)) (Raw 0x18000) = mul_int (Raw 0x18000) (-3) /\
  (-3 <> 0 -> div_int (mul_int (Raw 0x18000) (-3)) (-3) = Some (Raw 0x18000)) /\
  (-3 <> 0 ->
   div_int (Raw 0x18000) (-3) = Some (Raw (Z.quot (iValue (Raw 0x18000)) (-3)))) /\
  div_int (Raw 0x18000) 0 = None /\
  div_int (Raw INT32_MIN) (-1) = None.
Proof.
  assert (H1 : INT32_MIN < iValue (Raw 0x18000) <= INT32_MAX)
    by (cbn; unfold INT32_MIN, INT32_MAX; lia).
  assert (H2 : - 2 ^ 15 < -3 < 2 ^ 15) by lia.
  assert (H3 : INT32_MIN < iValue (Raw 0x18000) * -3 <= INT32_MAX)
    by (cbn; unfold INT32_MIN, INT32_MAX; lia).
  exact (conj H1 (conj H2 (conj H3 (mul_int_agrees (Raw 0x18000) (-3) H1 H2 H3)))).
Defined.
End FixedIntegers.

(** ** More on traversal *)

Section TraverseCalls.
Import Path.

Lemma quadratic_loop_calls pts limit v_start :
  forall (fuel : nat) (v_control : TPoint) (point : Z) (out : list TPrimitive),
  quadratic_loop pts limit v_start fuel v_control point = Some out ->
  Forall (fun q => is_MoveTo q = false) out /\
  Z.of_nat (length out) <= Z.max 0 (limit - point) + 1.
Proof.
  induction fuel as [|fuel IH]; intros v_control point out; [discriminate|].
  rewrite quadratic_loop_unfold.
  destruct (Z.ltb_spec point limit) as [Hlt|Hge].
  2:{ intros [= <-]. split; [repeat constructor|]. cbn [length]. lia. }
  destruct (deref pts (point + 1)) as [cur|]; [|discriminate].
  cbn [mbind option_bind].
  destruct (iType cur).
  - destruct (quadratic_loop pts limit v_start fuel v_control (point + 1)) as [rest|] eqn:E;
      [|discriminate].
    cbn [mbind option_bind]. intros [= <-].
    destruct (IH _ _ _ E) as [HF HL]. split; [constructor; auto|]. cbn [length]. lia.
  - destruct (quadratic_loop pts limit v_start fuel (base cur) (point + 1)) as [rest|] eqn:E;
      [|discriminate].
    cbn [mbind option_bind]. intros [= <-].
    destruct (IH _ _ _ E) as [HF HL]. split; [constructor; auto|]. cbn [length]. lia.
  - intros [= <-]. split; [constructor|]. cbn [length]. lia.
Qed.

Lemma main_loop_calls pts limit v_start :
  forall (fuel : nat) (point : Z) (out : list TPrimitive) (finished : bool),
  main_loop pts limit v_start fuel point = Some (out, finished) ->
  Forall (fun q => is_MoveTo q = false) out /\
  Z.of_nat (length out) <= Z.max 0 (limit - point).
Proof.
  induction fuel as [|fuel IH]; intros point out finished; [discriminate|].
  rewrite main_loop_unfold.
  destruct (Z.ltb_spec point limit) as [Hlt|Hge].
  2:{ intros [= <- <-]. split; [constructor|]. cbn [length]. lia. }
  destruct (deref pts (point + 1)) as [p|]; [|discriminate].
  cbn [mbind option_bind].
  destruct (iType p).
  - destruct (main_loop pts limit v_start fuel (point + 1)) as [[rest fin]|] eqn:E;
      [|discriminate].
    cbn [mbind option_bind]. intros [= <- <-].
    destruct (IH _ _ _ E) as [HF HL]. split; [constructor; auto|]. cbn [length]. lia.
  - destruct (quadratic_loop pts limit v_start fuel (base p) (point + 1)) as [rest|] eqn:E;
      [|discriminate].
    cbn [mbind option_bind]. intros [= <- <-].
    destruct (quadratic_loop_calls _ _ _ _ _ _ _ E) as [HF HL]. split; [assumption|]. lia.
  - destruct ((point + 1 + 1 >? limit) || negb (bool_decide (Cubic = Cubic))).
    { intros [= <- <-]. split; [constructor|]. cbn [length]. lia. }
    destruct (deref pts (point + 1 + 1)) as [vec2|]; [|discriminate].
    cbn [mbind option_bind].
    destruct (Z.leb_spec (point + 1 + 2) limit) as [Hle|Hgt].
    + destruct (deref pts (point + 1 + 2)) as [p3|]; [|discriminate].
      cbn [mbind option_bind].
      destruct (main_loop pts limit v_start fuel (point + 1 + 2)) as [[rest fin]|] eqn:E;
        [|discriminate].
      cbn [mbind option_bind]. intros [= <- <-].
      destruct (IH _ _ _ E) as [HF HL]. split; [constructor; auto|]. cbn [length]. lia.
    + intros [= <- <-]. split; [repeat constructor|]. cbn [length]. lia.
Qed.

Lemma main_loop_quadratic_next pts limit v_start fuel point p out finished :
  deref pts (point + 1) = Some p -> iType p = Quadratic ->
  main_loop pts limit v_start (S fuel) point = Some (out, finished) ->
  point < limit -> finished = false.
Proof.
  intros Hp Hq. rewrite main_loop_unfold, Hp. cbn [mbind option_bind]. rewrite Hq.
  intros H Hlt. destruct (Z.ltb_spec point limit); [|lia].
  destruct (quadratic_loop _ _ _ _ _ _); [|discriminate].
  cbn in H. congruence.
Qed.

Lemma Traverse_body_calls (c : TContour) (out : list TPrimitive) :
  2 <= Points c ->
  Traverse_body c = Some out ->
  exists v rest,
    out = MoveTo v :: rest /\
    Forall (fun q => is_MoveTo q = false) rest /\
    (length out <= length (iPoint c) + 1)%nat.
Proof.
  intros Hn. unfold Traverse_body. unfold Points in *. cbv zeta.
  destruct (deref (iPoint c) 0) as [first|] eqn:Hfirst; [|discriminate].
  cbn [mbind option_bind].
  destruct (deref (iPoint c) (Z.of_nat (length (iPoint c)) - 1)) as [p_last|]; [|discriminate].
  cbn [mbind option_bind].
  assert (Hclose : forall (b : bool) (v : TPoint),
            Forall (fun q => is_MoveTo q = false) (if b then [LineTo v] else []) /\
            (length (if b then [LineTo v] else []) <= 1)%nat).
  { intros [] v; split; repeat constructor. }
  destruct (bool_decide (iType first = Quadratic)) eqn:Hq.
  - apply bool_decide_eq_true in Hq.
    destruct (bool_decide (iType p_last = OnCurve)); cbv beta iota.
    + match goal with
      | |- context [main_loop ?pts ?limit ?v ?f ?pt] =>
          destruct (main_loop pts limit v f pt) as [[rest fin]|] eqn:E; [|discriminate]
      end.
      cbn [mbind option_bind]. intros [= <-].
      destruct (main_loop_calls _ _ _ _ _ _ _ E) as [HF HL].
      match goal with |- context [if ?b then [LineTo ?v] else []] =>
        destruct (Hclose b v) as [HF' HL'] end.
      eexists _, _. split; [reflexivity|]. split; [apply Forall_app; auto|].
      cbn [length]. rewrite length_app. lia.
    + match goal with
      | |- context [main_loop ?pts ?limit ?v ?f ?pt] =>
          destruct (main_loop pts limit v f pt) as [[rest fin]|] eqn:E; [|discriminate]
      end.
      cbn [mbind option_bind]. intros [= <-].
      destruct (main_loop_calls _ _ _ _ _ _ _ E) as [HF HL].
      assert (fin = false) as ->.
      { eapply (main_loop_quadratic_next _ _ _ _ (0 - 1)); [| |exact E|lia]; eauto. }
      cbn [andb]. rewrite app_nil_r.
      eexists _, _. split; [reflexivity|]. split; [assumption|]. cbn [length]. lia.
  - cbv beta iota.
    match goal with
    | |- context [main_loop ?pts ?limit ?v ?f ?pt] =>
        destruct (main_loop pts limit v f pt) as [[rest fin]|] eqn:E; [|discriminate]
    end.
    cbn [mbind option_bind]. intros [= <-].
    destruct (main_loop_calls _ _ _ _ _ _ _ E) as [HF HL].
    match goal with |- context [if ?b then [LineTo ?v] else []] =>
      destruct (Hclose b v) as [HF' HL'] end.
    eexists _, _. split; [reflexivity|]. split; [apply Forall_app; auto|].
    cbn [length]. rewrite length_app. lia.
Qed.

Lemma Traverse_unclipped_calls (c : TContour) :
  match Traverse_unclipped c with
  | Some out =>
      (out = [] <-> Points c < 2) /\
      (length out <= length (iPoint c) + 1)%nat /\
      (2 <= Points c ->
       exists v rest, out = MoveTo v :: rest /\ Forall (fun q => is_MoveTo q = false) rest) /\
      length (filter (fun q => is_MoveTo q = true) out) = (if 2 <=? Points c then 1%nat else 0%nat)
  | None => starts_with_cubic c
  end.
Proof.
  unfold Traverse_unclipped.
  destruct (Z.ltb_spec (Points c) 2) as [Hlt|Hge].
  { destruct (Z.leb_spec 2 (Points c)); [lia|].
    repeat split; auto; try lia. cbn [length]. lia. }
  destruct (Z.leb_spec 2 (Points c)); [|lia].
  destruct (deref_in_range (iPoint c) 0) as [first Hfirst]; [unfold Points in *; lia|].
  rewrite Hfirst. cbn [mbind option_bind].
  assert (Hhead : head (iPoint c) = Some first).
  { rewrite (deref_lookup _ 0 0) in Hfirst by reflexivity. now rewrite head_lookup. }
  case_bool_decide as Hc.
  { split; [assumption|]. eauto. }
  destruct (Traverse_body_total c Hge) as [out Hout]. rewrite Hout.
  destruct (Traverse_body_calls c out Hge Hout) as (v & rest & -> & HF & HL).
  split; [split; [discriminate|lia]|].
  split; [assumption|].
  split; [eauto|].
  rewrite filter_cons, decide_True by reflexivity.
  cbn [length]. f_equal.
  clear - HF. induction HF as [|q rest Hq HF IH]; [reflexivity|].
  rewrite filter_cons, decide_False by (rewrite Hq; discriminate). exact IH.
Qed.

Section Clipped.
Variable TRect : Type.
Variable IsMaximal : TRect -> bool.
Variable ClipType : TContour -> TRect -> TClipType.
Variable ClippedContour : TContour -> TRect -> COutline.

Local Abbreviation Traverse := (Path.Traverse TRect IsMaximal ClipType ClippedContour).
Local Abbreviation MPath_Traverse :=
  (Path.MPath_Traverse TRect IsMaximal ClipType ClippedContour).
Local Abbreviation MPath_Traverse_rect :=
  (Path.MPath_Traverse_rect TRect IsMaximal ClipType ClippedContour).

(** X13: a traversal of one contour with no clip rectangle fails only on
    the assertion, that is on a contour of two or more points that starts
    with a cubic control point. Otherwise it makes no call at all when the
    contour has fewer than two points, and else starts with the one and only
    MoveTo; it never makes more calls than the contour has points plus one.
    A maximal clip rectangle, or one the contour lies inside, changes
    nothing. *)
Theorem Traverse_one_MoveTo (c : TContour) :
  (forall r, IsMaximal r = true \/ ClipType c r = Inside ->
     Traverse c (Some r) = Traverse c None) /\
  match Traverse c None with
  | Some out =>
      (out = [] <-> Points c < 2) /\
      (length out <= length (iPoint c) + 1)%nat /\
      (2 <= Points c ->
       exists v rest, out = MoveTo v :: rest /\ Forall (fun q => is_MoveTo q = false) rest)
  | None => starts_with_cubic c
  end.
Proof.
  split.
  - intros r Hr. unfold Path.Traverse.
    destruct (Points c <? 2); [reflexivity|].
    destruct (deref (iPoint c) 0); [|reflexivity]. cbn [mbind option_bind].
    case_bool_decide; [reflexivity|].
    destruct Hr as [-> | ->]; [reflexivity|].
    rewrite bool_decide_eq_true_2 by reflexivity. now rewrite andb_false_r.
  - rewrite Traverse_no_clip.
    pose proof (Traverse_unclipped_calls c) as H.
    destruct (Traverse_unclipped c); [|assumption]. tauto.
Qed.

Lemma MPath_Traverse_unclipped (path : list TContour) :
  MPath_Traverse path None = @concat TPrimitive <$> mapM Traverse_unclipped path.
Proof. reflexivity. Qed.

Lemma mapM_Traverse_unclipped_calls (path : list TContour) :
  match mapM Traverse_unclipped path with
  | Some outs =>
      length (filter (fun q => is_MoveTo q = true) (concat outs)) =
        length (filter (fun c => 2 <= Points c) path) /\
      (length (concat outs) <= length (concat (iPoint <$> path)) + length path)%nat
  | None => Exists starts_with_cubic path
  end.
Proof.
  induction path as [|c path IH]; [cbn; split; [reflexivity|lia]|].
  cbn [mapM]. pose proof (Traverse_unclipped_calls c) as Hc.
  destruct (Traverse_unclipped c) as [out|]; [|now constructor].
  cbn [mbind option_bind].
  destruct (mapM Traverse_unclipped path) as [outs|]; [|now constructor].
  cbn [mbind option_bind mret option_ret concat fmap list_fmap].
  destruct Hc as (_ & Hlen & _ & Hmove). destruct IH as [IHm IHl].
  rewrite filter_app, !length_app, Hmove, IHm, filter_cons.
  split; [|cbn [length]; lia].
  destruct (Z.leb_spec 2 (Points c)).
  + rewrite decide_True by assumption. reflexivity.
  + rewrite decide_False by lia. reflexivity.
Qed.

(** X14: the two overloads of MPath::Traverse make the same calls, and a
    maximal clip rectangle is the same as none. Without a clip rectangle the
    traversal of a path fails only when the assertion fails on one of its
    contours; otherwise it makes exactly one MoveTo for each contour of two
    or more points (shorter contours are skipped silently), and at most one
    call per point plus one per contour. On an outline it is the
    concatenation of the traversals of its contours. *)
Theorem MPath_Traverse_calls (path : list TContour) (r : TRect) (o : COutline) :
  MPath_Traverse_rect path r = MPath_Traverse path (Some r) /\
  (IsMaximal r = true -> MPath_Traverse path (Some r) = MPath_Traverse path None) /\
  match MPath_Traverse path None with
  | Some out =>
      length (filter (fun q => is_MoveTo q = true) out) =
        length (filter (fun c => 2 <= Points c) path) /\
      (length out <= length (concat (iPoint <$> path)) + length path)%nat
  | None => Exists starts_with_cubic path
  end /\
  MPath_Traverse (COutline_contours o) None = COutline_Traverse o.
Proof.
  split; [|split; [|split]].
  - unfold Path.MPath_Traverse_rect, Path.MPath_Traverse. now destruct (IsMaximal r).
  - intros Hr. unfold Path.MPath_Traverse. now rewrite Hr.
  - rewrite MPath_Traverse_unclipped.
    pose proof (mapM_Traverse_unclipped_calls path) as H.
    destruct (mapM Traverse_unclipped path); [|assumption]. exact H.
  - rewrite MPath_Traverse_unclipped. unfold COutline_Traverse, COutline_contours.
    f_equal. induction o as [|c o IH]; [reflexivity|].
    cbn [mapM fmap list_fmap]. now rewrite IH.
Qed.
End Clipped.
End TraverseCalls.

(** ** Editing contours and outlines *)

Section ContourEditing.
Import Path.

Lemma CContour_eq (c : CContour) (pts : list TOutlinePoint) :
  pts = cPoint c -> OwnedContour pts (cClosed c) = c.
Proof. intros ->. now destruct c. Qed.

(** X15: InsertPoint succeeds exactly for an index up to the number of
    points; the new point is then found at that index, the points before it
    keep their index, those from it on move up by one, and RemovePoint at
    the same index restores the contour. Conversely RemovePoint succeeds
    exactly for an index below the number of points, and inserting the
    removed point again restores the contour. ReplacePoint has the same
    bound, changes that one point only, and equals a removal followed by an
    insertion; ReplaceLastPoint fails on an empty contour only. *)
Theorem InsertPoint_RemovePoint (c : CContour) (p : TOutlinePoint) (i : nat) :
  match InsertPoint c p i with
  | Some c' =>
      (i <= length (cPoint c))%nat /\
      length (cPoint c') = S (length (cPoint c)) /\
      cClosed c' = cClosed c /\
      CContour_Point c' i = Some p /\
      (forall j, (j < i)%nat -> CContour_Point c' j = CContour_Point c j) /\
      (forall j, (i <= j)%nat -> CContour_Point c' (S j) = CContour_Point c j) /\
      RemovePoint c' i = Some c
  | None => (length (cPoint c) < i)%nat
  end /\
  match RemovePoint c i with
  | Some c' =>
      S (length (cPoint c')) = length (cPoint c) /\
      exists q, CContour_Point c i = Some q /\ InsertPoint c' q i = Some c
  | None => (length (cPoint c) <= i)%nat
  end /\
  match ReplacePoint c i p with
  | Some c' =>
      length (cPoint c') = length (cPoint c) /\
      CContour_Point c' i = Some p /\
      (forall j, j <> i -> CContour_Point c' j = CContour_Point c j) /\
      (c'' ← RemovePoint c i; InsertPoint c'' p i) = Some c'
  | None => (length (cPoint c) <= i)%nat
  end /\
  (ReplaceLastPoint c p = None <-> cPoint c = []) /\
  (forall q, ReplaceLastPoint (AppendPointEvenIfSame c q) p = Some (AppendPointEvenIfSame c p)).
Proof.
  destruct c as [pts cl]. unfold InsertPoint, RemovePoint, ReplacePoint, CContour_Point.
  cbn [cPoint cClosed].
  split; [|split; [|split; [|split]]].
  - case_bool_decide as Hi; [|lia].
    cbn [cPoint cClosed].
    assert (Hlt : length (take i pts) = i) by (rewrite length_take; lia).
    split; [assumption|]. split.
    { rewrite length_app; cbn [length]. rewrite length_take, length_drop. lia. }
    split; [reflexivity|]. split.
    { rewrite lookup_app_r by lia. now rewrite Hlt, Nat.sub_diag. }
    split.
    { intros j Hj. rewrite lookup_app_l by lia. apply lookup_take_lt. assumption. }
    split.
    { intros j Hj. rewrite lookup_app_r by lia. rewrite Hlt.
      replace (S j - i)%nat with (S (j - i)) by lia. rewrite lookup_cons.
      rewrite lookup_drop. f_equal. lia. }
    rewrite bool_decide_eq_true_2
      by (rewrite length_app; cbn [length]; rewrite length_take, length_drop; lia).
    do 2 f_equal.
    rewrite take_app_length' by lia.
    change (take i pts ++ p :: drop i pts) with (take i pts ++ [p] ++ drop i pts).
    rewrite app_assoc, drop_app_length' by (rewrite length_app; cbn [length]; lia).
    apply take_drop.
  - case_bool_decide as Hi; [|lia].
    cbn [cPoint cClosed].
    destruct (lookup_lt_is_Some_2 pts i Hi) as [q Hq].
    split.
    { rewrite length_app, length_take, length_drop. lia. }
    exists q. split; [assumption|].
    rewrite bool_decide_eq_true_2
      by (rewrite length_app, length_take, length_drop; lia).
    do 2 f_equal.
    rewrite take_app_length' by (rewrite length_take; lia).
    rewrite drop_app_length' by (rewrite length_take; lia).
    rewrite <- (take_drop_middle pts i q Hq) at 3. reflexivity.
  - case_bool_decide as Hi; [|lia].
    cbn [cPoint cClosed mbind option_bind].
    split; [apply length_insert|]. split; [now apply list_lookup_insert_eq|].
    split; [intros j Hj; apply list_lookup_insert_ne; congruence|].
    rewrite bool_decide_eq_true_2
      by (rewrite length_app, length_take, length_drop; lia).
    do 2 f_equal.
    rewrite take_app_length' by (rewrite length_take; lia).
    rewrite drop_app_length' by (rewrite length_take; lia).
    now rewrite insert_take_drop by assumption.
  - unfold ReplaceLastPoint; cbn [cPoint]. destruct pts; split; congruence.
  - intros q. unfold ReplaceLastPoint, AppendPointEvenIfSame; cbn [cPoint cClosed].
    destruct (pts ++ [q]) eqn:E; [now destruct pts|]. rewrite <- E.
    do 2 f_equal. rewrite length_app; cbn [length].
    replace (pred (length pts + 1)) with (length pts + 0)%nat by lia.
    now rewrite insert_app_r.
Qed.

(** X16: InsertPoints succeeds exactly for an index up to the number of
    points; the inserted points are then found from that index on, in
    order, and RemovePoints of as many points at the same index restores
    the contour. Inserting at the end is AppendPoints, inserting or removing
    one point is InsertPoint or RemovePoint, ReduceSizeTo undoes
    AppendPoints and is the removal of all points from the given index on;
    RemovePoints fails exactly when the range does not lie in the contour. *)
Theorem InsertPoints_RemovePoints (c : CContour) (ps : list TOutlinePoint)
    (p : TOutlinePoint) (i n : nat) :
  match InsertPoints c ps i with
  | Some c' =>
      (i <= length (cPoint c))%nat /\
      length (cPoint c') = (length (cPoint c) + length ps)%nat /\
      cClosed c' = cClosed c /\
      (forall k, (k < length ps)%nat -> CContour_Point c' (i + k) = ps !! k) /\
      RemovePoints c' i (length ps) = Some c
  | None => (length (cPoint c) < i)%nat
  end /\
  match RemovePoints c i n with
  | Some c' =>
      (length (cPoint c') + n)%nat = length (cPoint c) /\
      InsertPoints c' (take n (drop i (cPoint c))) i = Some c
  | None => (length (cPoint c) < i + n)%nat
  end /\
  InsertPoints c ps (length (cPoint c)) = Some (AppendPoints c ps) /\
  InsertPoints c [p] i = InsertPoint c p i /\
  RemovePoints c i 1 = RemovePoint c i /\
  ReduceSizeTo (AppendPoints c ps) (length (cPoint c)) = Some c /\
  ReduceSizeTo c n = RemovePoints c n (length (cPoint c) - n).
Proof.
  destruct c as [pts cl].
  unfold InsertPoints, RemovePoints, InsertPoint, RemovePoint, ReduceSizeTo, AppendPoints,
    CContour_Point.
  cbn [cPoint cClosed].
  split; [|split; [|split; [|split; [|split; [|split]]]]].
  - case_bool_decide as Hi; [|lia].
    cbn [cPoint cClosed].
    assert (Hlt : length (take i pts) = i) by (rewrite length_take; lia).
    split; [assumption|]. split.
    { rewrite !length_app, length_take, length_drop. lia. }
    split; [reflexivity|]. split.
    { intros k Hk. rewrite lookup_app_r by lia. rewrite Hlt.
      replace (i + k - i)%nat with k by lia. now rewrite lookup_app_l. }
    rewrite bool_decide_eq_true_2
      by (rewrite !length_app, length_take, length_drop; lia).
    do 2 f_equal.
    rewrite take_app_length' by lia.
    rewrite app_assoc, drop_app_length' by (rewrite length_app; lia).
    apply take_drop.
  - case_bool_decide as Hi; [|lia].
    cbn [cPoint cClosed].
    split.
    { rewrite length_app, length_take, length_drop. lia. }
    rewrite bool_decide_eq_true_2
      by (rewrite length_app, length_take, length_drop; lia).
    do 2 f_equal.
    rewrite take_app_length' by (rewrite length_take; lia).
    rewrite drop_app_length' by (rewrite length_take; lia).
    rewrite <- drop_drop, take_drop. apply take_drop.
  - rewrite bool_decide_eq_true_2 by lia.
    now rewrite firstn_all, drop_all, app_nil_r.
  - reflexivity.
  - replace (i + 1)%nat with (S i) by lia.
    repeat case_bool_decide; try lia; reflexivity.
  - rewrite bool_decide_eq_true_2 by (rewrite length_app; lia).
    now rewrite take_app_length.
  - repeat case_bool_decide; try lia; try reflexivity.
    replace (n + (length pts - n))%nat with (length pts) by lia.
    now rewrite drop_all, app_nil_r.
Qed.

(** X17: as long as no coordinate leaves the 32-bit range, Offset moves
    every point by (aDx,aDy) and keeps the number, order and types of the
    points; the opposite offset restores them, a zero offset changes
    nothing, and two offsets in a row are the offset by their sum. *)
Theorem Offset_inverse (points : list TOutlinePoint) (aDx aDy : Z) :
  INT32_MIN < aDx <= INT32_MAX -> INT32_MIN < aDy <= INT32_MAX ->
  Forall (fun p : TOutlinePoint =>
            is_int32 (iX p) /\ is_int32 (iY p) /\
            is_int32 (iX p + aDx) /\ is_int32 (iY p + aDy)) points ->
  Offset (Offset points aDx aDy) (- aDx) (- aDy) = points /\
  Offset points 0 0 = points /\
  length (Offset points aDx aDy) = length points /\
  iType <$> Offset points aDx aDy = iType <$> points /\
  (forall (i : nat) (p : TOutlinePoint), points !! i = Some p ->
     Offset points aDx aDy !! i =
       Some (OutlinePoint (Point (iX p + aDx) (iY p + aDy)) (iType p))) /\
  (forall dx dy,
     Offset (Offset points aDx aDy) dx dy = Offset points (aDx + dx) (aDy + dy)).
Proof.
  intros Hdx Hdy Hpts. unfold Offset.
  split; [|split; [|split; [|split; [|split]]]].
  - rewrite <- list_fmap_compose. rewrite <- (list_fmap_id points) at 2.
    apply Forall_fmap_ext_1. eapply Forall_impl; [exact Hpts|].
    intros [[x y] t] (Hx & Hy & Hx' & Hy'); cbn in *.
    rewrite (wrap32_id (x + aDx)), (wrap32_id (y + aDy)) by assumption.
    replace (x + aDx + - aDx) with x by lia. replace (y + aDy + - aDy) with y by lia.
    now rewrite !wrap32_id.
  - rewrite <- (list_fmap_id points) at 2.
    apply Forall_fmap_ext_1. eapply Forall_impl; [exact Hpts|].
    intros [[x y] t] (Hx & Hy & _); cbn in *.
    now rewrite !Z.add_0_r, !wrap32_id.
  - apply length_fmap.
  - rewrite <- list_fmap_compose. apply list_fmap_ext. now intros _ [[x y] t] _.
  - intros i p Hp. rewrite list_lookup_fmap, Hp. cbn [fmap option_fmap option_map].
    rewrite Forall_lookup in Hpts. destruct (Hpts i p Hp) as (_ & _ & Hx & Hy).
    now rewrite !wrap32_id.
  - intros dx dy. rewrite <- list_fmap_compose. apply list_fmap_ext.
    intros _ [[x y] t] _; cbn. rewrite !wrap32_add_l.
    now rewrite !Z.add_assoc.
Qed.

Lemma update_back_snoc (f : CContour -> CContour) (o : COutline) (c : CContour) :
  update_back f (o ++ [c]) = o ++ [f c].
Proof.
  unfold update_back, COutline in *. rewrite last_snoc, length_app; cbv iota beta; cbn [length].
  replace (pred (length o + 1)) with (length o + 0)%nat by lia.
  now rewrite insert_app_r.
Qed.

Lemma AppendContour_snoc (o : COutline) (t : TContour) :
  AppendContour o t = o ++ [OwnedContour (iPoint t) (iClosed t)].
Proof.
  unfold AppendContour, AppendContour_new. cbv zeta. now rewrite !update_back_snoc.
Qed.

Lemma Traverse_unclipped_hint (pts : list TOutlinePoint) (closed h1 h2 : bool) :
  Traverse_unclipped (Contour pts closed h1) = Traverse_unclipped (Contour pts closed h2).
Proof. reflexivity. Qed.

(** X18: a contour copied into an outline by AppendContour is read back by
    GetContour at the last index with the same points and the same
    open/closed status; only the may-have-curves hint is lost (it reads
    true), which changes nothing in an unclipped traversal. The contours
    already in the outline keep their index and content. Copying through
    the CContour constructor and moving the copy in gives the same
    outline, and RemoveData hands over all contours and leaves none. *)
Theorem AppendContour_GetContour (o : COutline) (t : TContour) :
  Contours (AppendContour o t) = S (Contours o) /\
  GetContour (AppendContour o t) (Contours o) = Some (Contour (iPoint t) (iClosed t) true) /\
  (forall i, (i < Contours o)%nat -> GetContour (AppendContour o t) i = GetContour o i) /\
  GetContour o (Contours o) = None /\
  to_TContour (of_TContour t) = Contour (iPoint t) (iClosed t) true /\
  Traverse_unclipped (to_TContour (of_TContour t)) = Traverse_unclipped t /\
  AppendContour_move o (of_TContour t) = AppendContour o t /\
  COutline_Traverse (AppendContour o t) =
    (out ← COutline_Traverse o; out' ← Traverse_unclipped t; Some (out ++ out')) /\
  (let '(dest, o') := RemoveData (AppendContour o t) in
   dest = AppendContour o t /\ Contours o' = 0%nat).
Proof.
  rewrite AppendContour_snoc. unfold Contours, GetContour, COutline in *.
  split; [rewrite length_app; cbn [length]; lia|].
  split; [now rewrite lookup_app_r, Nat.sub_diag by lia|].
  split; [intros i Hi; now rewrite lookup_app_l by assumption|].
  split; [now rewrite lookup_ge_None_2 by lia|].
  split; [reflexivity|].
  split; [destruct t; reflexivity|].
  split; [reflexivity|].
  split; [|split; reflexivity].
  unfold COutline_Traverse.
  change (Traverse_unclipped t) with
    (Traverse_unclipped (to_TContour (OwnedContour (iPoint t) (iClosed t)))).
  generalize (OwnedContour (iPoint t) (iClosed t)) as c. intros c.
  induction o as [|c0 o IH].
  - cbn. destruct (Traverse_unclipped (to_TContour c)); cbn; [|reflexivity].
    now rewrite app_nil_r.
  - cbn [app mapM]. destruct (Traverse_unclipped (to_TContour c0)) as [out0|];
      [|reflexivity].
    cbn [mbind option_bind]. cbn [fmap option_fmap option_map] in IH |- *.
    destruct (mapM (fun c1 => Traverse_unclipped (to_TContour c1)) (o ++ [c])) as [outs|];
      destruct (mapM (fun c1 => Traverse_unclipped (to_TContour c1)) o) as [outs0|];
      cbn in IH |- *; try discriminate;
      destruct (Traverse_unclipped (to_TContour c)) as [out'|]; cbn in IH |- *;
      try discriminate; try reflexivity.
    injection IH as ->. now rewrite app_assoc.
Qed.
End ContourEditing.

Section ContourEditingExamples.
Import Path.

Lemma Offset_inverse_witness :
  let points := [OutlinePoint (Point 10 (-20)) OnCurve; OutlinePoint (Point 30 40) Quadratic;
                 OutlinePoint (Point (-50) 60) OnCurve] in
  INT32_MIN < 7 <= INT32_MAX /\ INT32_MIN < -9 <= INT32_MAX /\
  Forall (fun p : TOutlinePoint =>
            is_int32 (iX p) /\ is_int32 (iY p) /\
            is_int32 (iX p + 7) /\ is_int32 (iY p + -9)) points /\
  Offset (Offset points 7 (-9)) (- 7) (- -9) = points /\
  Offset points 0 0 = points /\
  length (Offset points 7 (-9)) = length points /\
  iType <$> Offset points 7 (-9) = iType <$> points /\
  (forall (i : nat) (p : TOutlinePoint), points !! i = Some p ->
     Offset points 7 (-9) !! i =
       Some (OutlinePoint (Point (iX p + 7) (iY p + -9)) (iType p))) /\
  (forall dx dy,
     Offset (Offset points 7 (-9)) dx dy = Offset points (7 + dx) (-9 + dy)).
Proof.
  intros points.
  assert (H1 : INT32_MIN < 7 <= INT32_MAX) by (unfold INT32_MIN, INT32_MAX; lia).
  assert (H2 : INT32_MIN < -9 <= INT32_MAX) by (unfold INT32_MIN, INT32_MAX; lia).
  assert (H3 : Forall (fun p : TOutlinePoint =>
            is_int32 (iX p) /\ is_int32 (iY p) /\
            is_int32 (iX p + 7) /\ is_int32 (iY p + -9)) points).
  { repeat constructor; cbn; unfold INT32_MIN, INT32_MAX; lia. }
  exact (conj H1 (conj H2 (conj H3 (Offset_inverse points 7 (-9) H1 H2 H3)))).
Defined.
End ContourEditingExamples.

(** ** More on geometry objects *)

Section GeometryOperations.
Import Geometry.
Context {TCoordType coord : Type} `{EqDecision TCoordType} (Map : TCoordType).

Local Abbreviation geometry := (CGeneralGeometry TCoordType coord).

Lemma AppendPoint_snoc (done : list (contour_t coord)) (cur : contour_t coord)
    (t : TCoordType) (cl : bool) (p : point_t coord) :
  AppendPoint (Geom (done ++ [cur]) t cl) p = Some (Geom (done ++ [cur ++ [p]]) t cl).
Proof.
  unfold AppendPoint; cbn [m_contour_array m_coord_type m_closed].
  rewrite last_snoc. cbn [mbind option_bind]. do 2 f_equal.
  rewrite length_app; cbn [length].
  replace (pred (length done + 1)) with (length done + 0)%nat by lia.
  now rewrite insert_app_r.
Qed.

Lemma BeginContour_snoc (done : list (contour_t coord)) (cur : contour_t coord)
    (t : TCoordType) (cl : bool) :
  BeginContour (Geom (done ++ [cur]) t cl) =
  Some (Geom (match cur with [] => done ++ [cur] | _ => (done ++ [cur]) ++ [[]] end) t cl).
Proof.
  unfold BeginContour; cbn [m_contour_array m_coord_type m_closed].
  rewrite last_snoc. cbn [mbind option_bind]. f_equal.
  destruct cur; [now rewrite bool_decide_eq_true_2|now rewrite bool_decide_eq_false_2].
Qed.

Lemma copy_points_snoc (of_point : Path.TOutlinePoint -> point_t coord)
    (done : list (contour_t coord)) (t : TCoordType) (cl : bool)
    (pts : list Path.TOutlinePoint) :
  forall cur : contour_t coord,
  foldl (fun g p => g ← g; AppendPoint g (of_point p))
        (Some (Geom (done ++ [cur]) t cl)) pts =
  Some (Geom (done ++ [cur ++ (of_point <$> pts)]) t cl).
Proof.
  induction pts as [|p pts IH]; intros cur; cbn [foldl fmap list_fmap].
  - now rewrite app_nil_r.
  - cbn [mbind option_bind]. rewrite AppendPoint_snoc, IH. now rewrite <- app_assoc.
Qed.

Lemma copy_contour_snoc (of_point : Path.TOutlinePoint -> point_t coord)
    (done : list (contour_t coord)) (cur : contour_t coord) (t : TCoordType) (cl : bool)
    (contour : Path.TContour) :
  copy_contour of_point (Geom (done ++ [cur]) t cl) contour =
  Some (Geom ((match cur with [] => done | _ => done ++ [cur] end)
                ++ [of_point <$> Path.iPoint contour]) t cl).
Proof.
  unfold copy_contour. rewrite BeginContour_snoc. cbn [mbind option_bind].
  destruct cur as [|p cur].
  - now rewrite copy_points_snoc.
  - now rewrite copy_points_snoc.
Qed.

Lemma copy_path_snoc (of_point : Path.TOutlinePoint -> point_t coord)
    (t : TCoordType) (cl : bool) (path : list Path.TContour) :
  forall (done : list (contour_t coord)) (cur : contour_t coord),
  let cs := cur :: ((fun c => of_point <$> Path.iPoint c) <$> path) in
  foldl (fun g contour => g ← g; copy_contour of_point g contour)
        (Some (Geom (done ++ [cur]) t cl)) path =
  Some (Geom (done ++ filter (fun c => c <> []) (removelast cs) ++ [List.last cs []]) t cl).
Proof.
  induction path as [|c path IH]; intros done cur; cbn [foldl fmap list_fmap].
  - reflexivity.
  - cbn [mbind option_bind]. rewrite copy_contour_snoc.
    cbv zeta in IH |- *. rewrite IH.
    do 2 f_equal.
    change (removelast (cur :: ?a :: ?l)) with (cur :: removelast (a :: l)).
    change (List.last (cur :: ?a :: ?l) []) with (List.last (a :: l) []).
    rewrite (filter_cons _ cur).
    destruct cur as [|p cur].
    + now rewrite decide_False by (intros H'; now apply H').
    + rewrite decide_True by discriminate. now rewrite <- app_assoc.
Qed.

Lemma filter_nonempty_all {A : Type} (l : list (list A)) :
  Forall (fun c => c <> []) l -> filter (fun c => c <> []) l = l.
Proof.
  induction 1 as [|c l Hc _ IH]; [reflexivity|].
  now rewrite filter_cons, decide_True, IH by assumption.
Qed.

(** X19: the geometry made from a path holds, in order, the points of the
    non-empty contours of the path before the last one, and then the points
    of the last contour of the path, even when that one is empty: empty
    contours are dropped everywhere but at the end, so contour indexes of
    the geometry and of the path differ after the first empty contour. The
    construction never fails, it records the coordinate type and the
    open/closed status it is given, and an empty path gives one empty
    contour. *)
Theorem CreateFromPath_contours (of_point : Path.TOutlinePoint -> point_t coord)
    (path : list Path.TContour) (t : TCoordType) (cl : bool) :
  let cs := (fun c => of_point <$> Path.iPoint c) <$> path in
  CreateFromPath of_point path t cl =
    Some (Geom (filter (fun c => c <> []) (removelast cs) ++ [List.last cs []]) t cl) /\
  (Forall (fun c => Path.iPoint c <> []) path -> path <> [] ->
   CreateFromPath of_point path t cl = Some (Geom cs t cl)) /\
  CreateFromPath of_point [] t cl = Some (Geom [[]] t cl).
Proof.
  intros cs.
  assert (E : CreateFromPath of_point path t cl =
    Some (Geom (filter (fun c => c <> []) (removelast cs) ++ [List.last cs []]) t cl)).
  { unfold CreateFromPath, CreateTyped.
    pose proof (copy_path_snoc of_point t cl path [] []) as Hp.
    cbv zeta in Hp. cbn [app] in Hp. etransitivity; [exact Hp|]. fold cs.
    do 2 f_equal.
    destruct cs as [|a cs']; [reflexivity|].
    change (removelast ([] :: a :: cs')) with ([] :: removelast (a :: cs')).
    rewrite filter_cons, decide_False by (intros H'; now apply H'). reflexivity. }
  split; [exact E|]. split; [|reflexivity].
  intros Hne Hpath. rewrite E. do 2 f_equal.
  assert (Hcs : Forall (fun c => c <> []) cs).
  { subst cs. apply Forall_fmap. eapply Forall_impl; [exact Hne|].
    intros c; cbn. destruct (Path.iPoint c); [congruence|intros _; discriminate]. }
  assert (Hcs' : cs <> []) by (subst cs; destruct path; [congruence|discriminate]).
  rewrite (app_removelast_last [] Hcs') at 3. f_equal.
  apply filter_nonempty_all.
  rewrite (app_removelast_last [] Hcs') in Hcs. now apply Forall_app in Hcs.
Qed.

Lemma has_repeated_on_curve_prefix (l1 l2 : list Path.TOutlinePoint) :
  Path.has_repeated_on_curve (l1 ++ l2) = false -> Path.has_repeated_on_curve l1 = false.
Proof.
  induction l2 as [|x l2 IH] using rev_ind; [now rewrite app_nil_r|].
  rewrite app_assoc, has_repeated_on_curve_snoc. intros H.
  apply orb_false_iff in H as [H _]. auto.
Qed.

Lemma fold_AppendPoint_shape (pts : list Path.TOutlinePoint) :
  forall c0 : Path.CContour,
  let r := foldl Path.AppendPoint c0 pts in
  Path.cClosed r = Path.cClosed c0 /\
  Path.has_repeated_on_curve (Path.cPoint r) = Path.has_repeated_on_curve (Path.cPoint c0) /\
  (length (Path.cPoint r) <= length (Path.cPoint c0) + length pts)%nat /\
  Path.cPoint c0 `prefix_of` Path.cPoint r /\
  (pts <> [] -> Path.cPoint r <> []) /\
  (Path.has_repeated_on_curve (Path.cPoint c0 ++ pts) = false ->
   Path.cPoint r = Path.cPoint c0 ++ pts).
Proof.
  induction pts as [|p pts IH]; intros c0; cbn [foldl]; cbv zeta.
  - rewrite app_nil_r. repeat split; auto; try (cbn [length]; lia).
  - specialize (IH (Path.AppendPoint c0 p)). cbv zeta in IH.
    destruct IH as (Hcl & Hrep & Hlen & Hpre & _ & Hid).
    assert (Hc : Path.cClosed (Path.AppendPoint c0 p) = Path.cClosed c0 /\
                 Path.cPoint c0 `prefix_of` Path.cPoint (Path.AppendPoint c0 p) /\
                 (length (Path.cPoint (Path.AppendPoint c0 p)) <= S (length (Path.cPoint c0)))%nat /\
                 Path.cPoint (Path.AppendPoint c0 p) <> [] /\
                 Path.has_repeated_on_curve (Path.cPoint (Path.AppendPoint c0 p)) =
                   Path.has_repeated_on_curve (Path.cPoint c0)).
    { rewrite AppendPoint_cases.
      destruct (bool_decide (Path.iType p = Path.OnCurve) &&
                bool_decide (last (Path.cPoint c0) = Some p)) eqn:E.
      - repeat split; auto; try lia.
        apply andb_true_iff in E as [_ E]. apply bool_decide_eq_true in E.
        intros E0. rewrite E0 in E. discriminate.
      - cbn [Path.cPoint Path.cClosed]. split; [reflexivity|].
        split; [now apply prefix_app_r|].
        split; [rewrite length_app; cbn [length]; lia|].
        split; [now destruct (Path.cPoint c0)|].
        rewrite has_repeated_on_curve_snoc, E. apply orb_false_r. }
    destruct Hc as (Hc1 & Hc2 & Hc3 & Hc4 & Hc5).
    split; [congruence|]. split; [congruence|].
    split; [cbn [length]; lia|].
    split; [etransitivity; eassumption|].
    split.
    { intros _ E0. destruct Hpre as [k Hk]. rewrite E0 in Hk.
      symmetry in Hk. apply app_eq_nil in Hk as [Hk _]. contradiction. }
    intros Hno.
    assert (Hstep : Path.AppendPoint c0 p =
                    Path.OwnedContour (Path.cPoint c0 ++ [p]) (Path.cClosed c0)).
    { rewrite AppendPoint_cases.
      change (Path.cPoint c0 ++ p :: pts) with (Path.cPoint c0 ++ [p] ++ pts) in Hno.
      rewrite app_assoc in Hno. apply has_repeated_on_curve_prefix in Hno.
      rewrite has_repeated_on_curve_snoc in Hno.
      apply orb_false_iff in Hno as [_ ->]. reflexivity. }
    rewrite Hstep in Hid |- *. cbn [Path.cPoint] in Hid.
    rewrite <- app_assoc in Hid. apply Hid. exact Hno.
Qed.

Section ToOutline.
Variable Round : coord -> Z.

Lemma fold_update_back (contour : contour_t coord) :
  forall (o : Path.COutline) (c : Path.CContour),
  foldl (fun outline point =>
           Path.update_back (fun c => Path.AppendPoint c (rounded_point Round point)) outline)
        (o ++ [c]) contour =
  o ++ [foldl Path.AppendPoint c (rounded_point Round <$> contour)].
Proof.
  induction contour as [|p contour IH]; intros o c; cbn [foldl fmap list_fmap]; [reflexivity|].
  now rewrite update_back_snoc, IH.
Qed.

Lemma to_COutline_fmap (g : geometry) :
  to_COutline Round g =
  (fun contour => foldl Path.AppendPoint (Path.OwnedContour [] (m_closed g))
                        (rounded_point Round <$> contour)) <$> m_contour_array g.
Proof.
  unfold to_COutline.
  enough (Hgen : forall (arr : list (contour_t coord)) (o : Path.COutline),
    foldl (fun outline contour =>
             let outline := Path.AppendContour_new outline in
             let outline :=
               Path.update_back (fun c => Path.SetClosed c (m_closed g)) outline in
             foldl (fun outline point =>
                      Path.update_back
                        (fun c => Path.AppendPoint c (rounded_point Round point)) outline)
                   outline contour) o arr =
    o ++ ((fun contour => foldl Path.AppendPoint (Path.OwnedContour [] (m_closed g))
                                (rounded_point Round <$> contour)) <$> arr))
    by apply (Hgen _ []).
  induction arr as [|contour arr IH]; intros o; cbn [foldl fmap list_fmap].
  - now rewrite app_nil_r.
  - rewrite IH. cbv zeta. unfold Path.AppendContour_new.
    rewrite update_back_snoc, fold_update_back.
    unfold Path.SetClosed; cbn [Path.cPoint]. now rewrite <- app_assoc.
Qed.

Lemma fold_AppendPoint_keep_after (pts : list Path.TOutlinePoint) :
  forall (c0 : Path.CContour) (prev : Path.TOutlinePoint),
  last (Path.cPoint c0) = Some prev ->
  foldl Path.AppendPoint c0 pts =
  Path.OwnedContour (Path.cPoint c0 ++ Path.keep_after prev pts) (Path.cClosed c0).
Proof.
  induction pts as [|p pts IH]; intros c0 prev Hlast; cbn [foldl Path.keep_after].
  - rewrite app_nil_r. now destruct c0.
  - rewrite AppendPoint_cases, Hlast.
    rewrite (bool_decide_ext (Some prev = Some p) (prev = p)) by (split; congruence).
    destruct (bool_decide (Path.iType p = Path.OnCurve) && bool_decide (prev = p)) eqn:E.
    + apply andb_true_iff in E as [_ E]. apply bool_decide_eq_true in E. subst prev.
      now apply IH.
    + rewrite (IH _ p) by (cbn [Path.cPoint]; apply last_snoc).
      cbn [Path.cPoint Path.cClosed]. now rewrite <- app_assoc.
Qed.

Lemma fold_AppendPoint_without_repeated (pts : list Path.TOutlinePoint) (closed : bool) :
  foldl Path.AppendPoint (Path.OwnedContour [] closed) pts =
  Path.OwnedContour (Path.without_repeated_on_curve pts) closed.
Proof.
  destruct pts as [|p pts]; [reflexivity|].
  cbn [foldl Path.without_repeated_on_curve].
  change (Path.AppendPoint (Path.OwnedContour [] closed) p)
    with (Path.OwnedContour [p] closed).
  now rewrite (fold_AppendPoint_keep_after pts _ p).
Qed.

(** X20: the outline made from a geometry has one contour for each contour
    of the geometry, in the same order, every one with the open/closed
    status of the geometry. The points of an outline contour are exactly the
    rounded points of the geometry contour, in order, without every on-curve
    point that equals the rounded point just before it. So the outline
    contour never has more points than the geometry contour, never holds an
    on-curve point twice in a row, is empty only if the geometry contour is,
    and is the rounded contour itself when that has no such repetition. *)
Theorem to_COutline_contours (g : geometry) :
  to_COutline Round g =
    (fun contour =>
       Path.OwnedContour
         (Path.without_repeated_on_curve (rounded_point Round <$> contour)) (m_closed g))
      <$> m_contour_array g /\
  Path.Contours (to_COutline Round g) = ContourCount g /\
  Forall2 (fun (c : Path.CContour) (contour : contour_t coord) =>
             Path.cClosed c = m_closed g /\
             Path.has_repeated_on_curve (Path.cPoint c) = false /\
             (length (Path.cPoint c) <= length contour)%nat /\
             (contour <> [] -> Path.cPoint c <> []) /\
             (Path.has_repeated_on_curve (rounded_point Round <$> contour) = false ->
              Path.cPoint c = rounded_point Round <$> contour))
          (to_COutline Round g) (m_contour_array g).
Proof.
  rewrite to_COutline_fmap. unfold Path.Contours, ContourCount.
  split.
  { apply list_fmap_ext. intros _ contour _. apply fold_AppendPoint_without_repeated. }
  split; [apply length_fmap|].
  apply Forall2_fmap_l, Forall_Forall2_diag, Forall_forall. intros contour _.
  destruct (fold_AppendPoint_shape (rounded_point Round <$> contour)
              (Path.OwnedContour [] (m_closed g))) as (Hcl & Hrep & Hlen & _ & Hne & Hid).
  cbn [Path.cPoint Path.cClosed length app] in *. rewrite length_fmap in Hlen.
  repeat split; auto.
  intros Hc. apply Hne. now destruct contour.
Qed.
End ToOutline.

Lemma write_coords_shape (c : contour_t coord) :
  forall cs : TWritableCoordSet coord,
  length (write_coords c cs) = length c /\
  fType <$> write_coords c cs = fType <$> c.
Proof.
  induction c as [|p c IH]; intros [|[x y] cs]; cbn; auto.
  destruct (IH cs) as [-> ->]. auto.
Qed.

Lemma same_shape_refl (arr : list (contour_t coord)) : Forall2 same_shape arr arr.
Proof. apply Forall_Forall2_diag, Forall_forall. now intros c _. Qed.

Lemma same_shape_trans (a b c : list (contour_t coord)) :
  Forall2 same_shape a b -> Forall2 same_shape b c -> Forall2 same_shape a c.
Proof.
  intros Hab. revert c. induction Hab as [|x y a b [H1 H2] _ IH]; intros c Hbc.
  - inversion Hbc. constructor.
  - inversion Hbc as [|y' z b' c' [H3 H4] Hbc']; subst. constructor; [|auto].
    split; congruence.
Qed.

Lemma ConvertCoords_loop_shape {St : Type}
    (f : St -> TWritableCoordSet coord -> TResult * TWritableCoordSet coord * St) :
  forall (n i : nat) (arr : list (contour_t coord)) (s : St),
  (i + n <= length arr)%nat ->
  exists r arr' s',
    ConvertCoords_loop f n i arr s = Some (r, arr', s') /\
    Forall2 same_shape arr arr' /\
    (r <> KErrorNone ->
     exists k, (i <= k < i + n)%nat /\ drop (S k) arr' = drop (S k) arr).
Proof.
  induction n as [|n IH]; intros i arr s Hn; cbn [ConvertCoords_loop].
  - exists KErrorNone, arr, s. split; [reflexivity|]. split; [apply same_shape_refl|].
    congruence.
  - destruct (lookup_lt_is_Some_2 arr i) as [c Hc]; [lia|].
    rewrite Hc. cbn [mbind option_bind].
    destruct (f s (CoordSet c)) as [[error cs] s1].
    assert (Hstep : Forall2 same_shape arr (<[i := write_coords c cs]> arr)).
    { rewrite <- (list_insert_id arr i c Hc) at 1.
      apply Forall2_insert; [apply same_shape_refl|]. apply write_coords_shape. }
    destruct (Z.eqb_spec error 0) as [->|Herr]; cbn [negb].
    + destruct (IH (S i) (<[i := write_coords c cs]> arr) s1) as (r & arr' & s' & -> & Hsh & Hk).
      { rewrite length_insert. lia. }
      exists r, arr', s'. split; [reflexivity|].
      split; [eapply same_shape_trans; eassumption|].
      intros Hr. destruct (Hk Hr) as (k & Hik & Hdrop).
      exists k. split; [lia|]. rewrite Hdrop. apply drop_insert_lt. lia.
    + exists error, (<[i := write_coords c cs]> arr), s1. split; [reflexivity|].
      split; [assumption|]. intros _. exists i. split; [lia|].
      apply drop_insert_lt. lia.
Qed.

Lemma ConvertCoords_loop_traced {St : Type}
    (f : St -> TWritableCoordSet coord -> TResult * TWritableCoordSet coord * St) :
  forall (n i : nat) (arr : list (contour_t coord)) (s : St)
         (log : list (TWritableCoordSet coord * TResult)),
  (i + n = length arr)%nat ->
  exists r arr' s' calls,
    ConvertCoords_loop f n i arr s = Some (r, arr', s') /\
    ConvertCoords_loop (traced f) n i arr (s, log) = Some (r, arr', (s', log ++ calls)) /\
    (length calls <= n)%nat /\
    arr' = take i arr ++
           zip_with write_coords (take (length calls) (drop i arr)) (calls.*1) ++
           drop (i + length calls) arr /\
    ((r = KErrorNone /\ length calls = n /\ Forall (fun e => e.2 = KErrorNone) calls) \/
     (r <> KErrorNone /\
      exists calls0 cs, calls = calls0 ++ [(cs, r)] /\
                        Forall (fun e => e.2 = KErrorNone) calls0)).
Proof.
  induction n as [|n IH]; intros i arr s log Hlen; cbn [ConvertCoords_loop].
  - exists KErrorNone, arr, s, []. rewrite app_nil_r.
    cbn [length take zip_with app fmap list_fmap]. rewrite Nat.add_0_r.
    repeat split; auto. symmetry. apply take_drop.
  - destruct (lookup_lt_is_Some_2 arr i) as [c Hc]; [lia|].
    rewrite Hc. cbn [mbind option_bind].
    change (traced f (s, log) (CoordSet c))
      with (let '(r, cs', s') := f s (CoordSet c) in (r, cs', (s', log ++ [(cs', r)]))).
    destruct (f s (CoordSet c)) as [[error cs] s1] eqn:Ef.
    assert (Hdrop : drop i arr = c :: drop (S i) arr) by now apply drop_S.
    assert (Hi : (i < length arr)%nat) by lia.
    assert (Htake : take (S i) (<[i := write_coords c cs]> arr) =
                    take i arr ++ [write_coords c cs]).
    { rewrite insert_take_drop by assumption.
      change (take i arr ++ write_coords c cs :: drop (S i) arr)
        with (take i arr ++ [write_coords c cs] ++ drop (S i) arr).
      rewrite app_assoc. apply take_app_length'.
      rewrite length_app, length_take. cbn [length]. lia. }
    assert (Hdrop' : forall k, (i < k)%nat ->
              drop k (<[i := write_coords c cs]> arr) = drop k arr).
    { intros k Hk. now apply drop_insert_lt. }
    destruct (Z.eqb_spec error 0) as [->|Herr]; cbn [negb].
    + destruct (IH (S i) (<[i := write_coords c cs]> arr) s1 (log ++ [(cs, 0)]))
        as (r & arr' & s' & calls & Hrun & Hlog & Hle & Harr & Hres).
      { rewrite length_insert. lia. }
      exists r, arr', s', ((cs, 0) :: calls).
      rewrite <- app_assoc in Hlog.
      split; [exact Hrun|]. split; [exact Hlog|]. split; [cbn [length]; lia|]. split.
      * rewrite Harr, Htake, !Hdrop' by lia. rewrite Hdrop.
        cbn [length take zip_with fmap list_fmap fst]. rewrite <- app_assoc.
        cbn [app]. now replace (i + S (length calls))%nat with (S i + length calls)%nat by lia.
      * destruct Hres as [(-> & Hn & Hall) | (Hr & calls0 & cs' & -> & Hall)].
        -- left. repeat split; [cbn [length]; lia|]. constructor; auto.
        -- right. split; [assumption|]. exists ((cs, 0) :: calls0), cs'.
           split; [reflexivity|]. constructor; auto.
    + exists error, (<[i := write_coords c cs]> arr), s1, [(cs, error)].
      split; [reflexivity|]. split; [reflexivity|]. split; [cbn [length]; lia|]. split.
      * rewrite insert_take_drop by assumption. rewrite Hdrop.
        cbn [length take zip_with fmap list_fmap fst app].
        now replace (i + 1)%nat with (S i) by lia.
      * right. split; [assumption|]. exists [], cs. split; [reflexivity | constructor].
Qed.

(** X21: [ConvertCoords] always returns, and whatever the conversion
    function does, the object afterwards reports the requested coordinate
    type, also when the conversion stopped at an error. With k the number of
    calls made of the conversion function, the first k contours hold the
    coordinates that the calls left in their coordinate sets, in call order,
    and every contour from index k on is exactly as it was: after an error,
    which is the result of the last call made, the contours after the
    failing one still hold their old coordinates. The open/closed status, the
    number of contours, the number of points of each contour and the types
    of the points never change. *)
Theorem ConvertCoords_effects {St : Type}
    (f : St -> TWritableCoordSet coord -> TResult * TWritableCoordSet coord * St)
    (g : geometry) (aToCoordType : TCoordType) (s : St) :
  exists r g' s' calls,
    ConvertCoords f g aToCoordType s = Some (r, g', s') /\
    ConvertCoords (traced f) g aToCoordType (s, []) = Some (r, g', (s', calls)) /\
    CoordType g' = aToCoordType /\
    IsClosed g' = IsClosed g /\
    ContourCount g' = ContourCount g /\
    Forall2 same_shape (m_contour_array g) (m_contour_array g') /\
    (forall i, PointCount g' i = PointCount g i) /\
    (length calls <= ContourCount g)%nat /\
    m_contour_array g' =
      zip_with write_coords (take (length calls) (m_contour_array g)) (calls.*1) ++
      drop (length calls) (m_contour_array g) /\
    (forall i, (length calls <= i)%nat ->
       m_contour_array g' !! i = m_contour_array g !! i) /\
    (r = KErrorNone ->
     Forall (fun e => e.2 = KErrorNone) calls /\
     (CoordType g <> aToCoordType -> length calls = ContourCount g)) /\
    (r <> KErrorNone ->
     exists calls0 cs, calls = calls0 ++ [(cs, r)] /\
                       Forall (fun e => e.2 = KErrorNone) calls0).
Proof.
  assert (Hcount : forall arr arr' : list (contour_t coord),
            Forall2 same_shape arr arr' ->
            forall i, (arr' !! i ≫= fun c => Some (length c)) =
                      (arr !! i ≫= fun c => Some (length c))).
  { intros arr arr' Hsh i. revert i.
    induction Hsh as [|c c' arr arr' [Hl _] _ IH]; intros [|i]; cbn; auto;
      try (now rewrite Hl). }
  unfold ConvertCoords, CoordType, IsClosed, PointCount. case_bool_decide as Ht.
  - exists KErrorNone, g, s, []. cbn [length take zip_with fmap list_fmap app drop].
    repeat split; auto; try lia; try congruence.
    apply same_shape_refl.
  - destruct (ConvertCoords_loop_shape f (ContourCount g) 0 (m_contour_array g) s)
      as (r & arr' & s' & Hrun & Hsh & _); [unfold ContourCount; lia|].
    destruct (ConvertCoords_loop_traced f (ContourCount g) 0 (m_contour_array g) s [])
      as (r1 & arr1 & s1 & calls & Hrun1 & Hlog & Hle & Harr & Hres); [reflexivity|].
    rewrite Hrun in Hrun1. injection Hrun1 as <- <- <-.
    rewrite Hrun, Hlog. cbn [mbind option_bind app].
    exists r, (Geom arr' aToCoordType (m_closed g)), s', calls.
    cbn [m_contour_array m_coord_type m_closed take app] in *.
    split; [reflexivity|]. split; [reflexivity|]. split; [reflexivity|].
    split; [reflexivity|].
    split; [unfold ContourCount; cbn [m_contour_array]; symmetry;
            eapply Forall2_length; eassumption|].
    split; [assumption|]. split; [now apply Hcount|]. split; [assumption|].
    assert (Harr' : arr' =
              zip_with write_coords (take (length calls) (m_contour_array g)) (calls.*1) ++
              drop (length calls) (m_contour_array g)) by exact Harr.
    clear Harr.
    split; [exact Harr'|]. split.
    { intros i Hi. rewrite Harr' at 1. unfold contour_t in *.
      assert (Hz : length (zip_with write_coords (take (length calls) (m_contour_array g))
                             (calls.*1)) = length calls).
      { rewrite length_zip_with, length_take, length_fmap.
        unfold ContourCount in Hle. lia. }
      unfold contour_t in *.
      rewrite lookup_app_r by (rewrite Hz; lia). rewrite Hz, lookup_drop. f_equal. lia. }
    destruct Hres as [(-> & Hn & Hall) | (Hr & calls0 & cs & -> & Hall)].
    + split; [auto|]. intros Hr. now contradiction Hr.
    + split; [intros Hr'; contradiction|]. intros _. eauto.
Qed.

(** X22: on an object with at least one contour, [AppendPoint] puts the
    point at the end of the last contour and changes nothing else: the
    number of contours stays, every point already there keeps its place, and
    the new point is read back at the index that was the point count of the
    last contour, which grows by one while the point count of every other
    contour stays. A [BeginContour] after it always opens a new, empty last
    contour, and a second [BeginContour] in a row does nothing. *)
Theorem AppendPoint_GetPoint (g : geometry) (p : point_t coord) :
  (1 <= ContourCount g)%nat ->
  exists g' n,
    AppendPoint g p = Some g' /\
    ContourCount g' = ContourCount g /\
    CoordType g' = CoordType g /\ IsClosed g' = IsClosed g /\
    PointCount g (ContourCount g - 1) = Some n /\
    PointCount g' (ContourCount g - 1) = Some (S n) /\
    GetPoint g' (ContourCount g - 1) n = Some p /\
    (forall i j q, GetPoint g i j = Some q -> GetPoint g' i j = Some q) /\
    (forall i, i <> (ContourCount g - 1)%nat -> PointCount g' i = PointCount g i) /\
    exists g'',
      BeginContour g' = Some g'' /\
      ContourCount g'' = S (ContourCount g) /\
      PointCount g'' (ContourCount g) = Some 0%nat /\
      (forall i j, (i < ContourCount g)%nat -> GetPoint g'' i j = GetPoint g' i j) /\
      BeginContour g'' = Some g''.
Proof.
  destruct g as [arr t cl]. unfold ContourCount, CoordType, IsClosed, PointCount, GetPoint.
  cbn [m_contour_array m_coord_type m_closed]. intros Hn.
  destruct (exists_last (l := arr)) as (done & cur & ->);
    [intros ->; cbn in Hn; lia|].
  rewrite AppendPoint_snoc, length_app. cbn [length].
  replace (length done + 1 - 1)%nat with (length done + 0)%nat by lia.
  exists (Geom (done ++ [cur ++ [p]]) t cl), (length cur).
  cbn [m_contour_array m_coord_type m_closed].
  split; [reflexivity|]. split; [rewrite length_app; reflexivity|].
  split; [reflexivity|]. split; [reflexivity|].
  assert (Hlast : forall x : contour_t coord, (done ++ [x]) !! (length done + 0)%nat = Some x).
  { intros x. rewrite lookup_app_r by lia.
    now replace (length done + 0 - length done)%nat with 0%nat by lia. }
  rewrite !Hlast. cbn [mbind option_bind].
  split; [reflexivity|]. split; [rewrite length_app; cbn [length]; f_equal; lia|].
  unfold contour_t in *.
  split; [now rewrite lookup_app_r, Nat.sub_diag by lia|].
  split.
  { intros i j q. destruct (Nat.lt_ge_cases i (length done)) as [Hi|Hi].
    - now rewrite !lookup_app_l by assumption.
    - rewrite !lookup_app_r by assumption.
      destruct (i - length done)%nat as [|k]; cbn; [|discriminate].
      intros Hq. now apply lookup_app_l_Some. }
  split.
  { intros i Hi. destruct (Nat.lt_ge_cases i (length done)) as [Hlt|Hge].
    - now rewrite !lookup_app_l by assumption.
    - rewrite !lookup_app_r by assumption.
      destruct (i - length done)%nat as [|k] eqn:Ek; [lia|reflexivity]. }
  rewrite BeginContour_snoc.
  destruct (cur ++ [p]) as [|q0 cur'] eqn:Ecur; [now destruct cur|].
  cbv iota. rewrite <- Ecur. eexists. split; [reflexivity|].
  cbn [m_contour_array]. unfold contour_t in *.
  split; [rewrite !length_app; cbn [length]; lia|].
  split.
  { rewrite lookup_app_r by (rewrite length_app; cbn [length]; lia).
    rewrite length_app; cbn [length].
    now replace (length done + 1 - (length done + 1))%nat with 0%nat by lia. }
  split.
  { intros i j Hi. rewrite (lookup_app_l (done ++ [cur ++ [p]]))
      by (rewrite length_app; cbn [length]; lia). reflexivity. }
  now rewrite BeginContour_snoc.
Qed.

(** The invariant of the objects built without [Reverse]: every contour
    before the last holds a point. *)
Lemma built_inner_contours (g : geometry) :
  built Map g ->
  exists done cur, m_contour_array g = done ++ [cur] /\ Forall (fun c => c <> []) done.
Proof.
  assert (Hshape : forall arr arr' : list (contour_t coord),
            Forall2 (fun c c' => length c' = length c) arr arr' ->
            (exists done cur, arr = done ++ [cur] /\ Forall (fun c => c <> []) done) ->
            exists done cur, arr' = done ++ [cur] /\ Forall (fun c => c <> []) done).
  { intros arr arr' Hsh (done & cur & -> & Hdone).
    apply Forall2_app_inv_l in Hsh as (done' & k & Hd & Hk & ->).
    inversion Hk as [|? cur' ? ? _ Hnil]; subst. inversion Hnil; subst.
    exists done', cur'. split; [reflexivity|].
    clear - Hd Hdone. induction Hd as [|c c' a b Hl _ IH]; [constructor|].
    inversion Hdone; subst. constructor; [|auto].
    destruct c'; [destruct c; [congruence|discriminate]|discriminate]. }
  assert (Hrefl : forall arr : list (contour_t coord),
            Forall2 (fun c c' => length c' = length c) arr arr).
  { intros arr. apply Forall_Forall2_diag, Forall_forall. now intros c _. }
  induction 1 as [ | t cl | of_point path t cl g Hc | p1 p2 p3 p4 t g Hc
                 | p t g Hc | g _ IH | g cl _ IH | g i j p g' _ IH Hop
                 | g i cs g' _ IH Hop
                 | g p g' _ IH Hop | g g' _ IH Hop
                 | St f g t s r g' s' _ IH Hop ].
  - exists [], []. split; [reflexivity|constructor].
  - exists [], []. split; [reflexivity|constructor].
  - unfold CreateFromPath, CreateTyped in Hc.
    pose proof (copy_path_snoc of_point t cl path [] []) as Hp.
    cbv zeta in Hp. cbn [app] in Hp.
    assert (Hg : Some g = Some (Geom
      (filter (fun c => c <> [])
         (removelast ([] :: ((fun c => of_point <$> Path.iPoint c) <$> path))) ++
       [List.last ([] :: ((fun c => of_point <$> Path.iPoint c) <$> path)) []]) t cl))
      by (rewrite <- Hc; exact Hp).
    injection Hg as ->. cbn [m_contour_array].
    eexists _, _. split; [reflexivity|].
    apply Forall_forall. intros c Hin. now apply list_elem_of_filter in Hin as [Hin _].
  - unfold CreateFromRect, CreateTyped in Hc.
    change [[]] with ([] ++ [[] : contour_t coord]) in Hc.
    rewrite AppendPoint_snoc in Hc; cbn [mbind option_bind] in Hc.
    rewrite AppendPoint_snoc in Hc; cbn [mbind option_bind] in Hc.
    rewrite AppendPoint_snoc in Hc; cbn [mbind option_bind] in Hc.
    rewrite AppendPoint_snoc in Hc. injection Hc as <-.
    eexists [], _. split; [reflexivity|constructor].
  - unfold CreateFromPoint, CreateTyped in Hc.
    change [[]] with ([] ++ [[] : contour_t coord]) in Hc.
    rewrite AppendPoint_snoc in Hc. injection Hc as <-.
    eexists [], _. split; [reflexivity|constructor].
  - rewrite Clear_contours. exists [], []. split; [reflexivity|constructor].
  - exact IH.
  - unfold SetPoint in Hop. destruct (m_contour_array g !! i) as [c|] eqn:Ec; [|discriminate].
    cbn in Hop. destruct (c !! j); [|discriminate]. injection Hop as <-.
    cbn [m_contour_array]. apply (Hshape (m_contour_array g)); [|exact IH].
    rewrite <- (list_insert_id _ i c Ec) at 1.
    apply Forall2_insert; [apply Hrefl|]. apply length_insert.
  - unfold SetCoords in Hop. destruct (m_contour_array g !! i) as [c|] eqn:Ec; [|discriminate].
    injection Hop as <-.
    cbn [m_contour_array]. apply (Hshape (m_contour_array g)); [|exact IH].
    rewrite <- (list_insert_id _ i c Ec) at 1.
    apply Forall2_insert; [apply Hrefl|]. apply write_coords_shape.
  - destruct IH as (done & cur & Harr & Hdone). destruct g as [arr t cl].
    cbn [m_contour_array] in Harr. subst arr. rewrite AppendPoint_snoc in Hop.
    injection Hop as <-. eauto.
  - destruct IH as (done & cur & Harr & Hdone). destruct g as [arr t cl].
    cbn [m_contour_array] in Harr. subst arr. rewrite BeginContour_snoc in Hop.
    injection Hop as <-. cbn [m_contour_array]. destruct cur as [|q cur]; [eauto|].
    eexists _, _. split; [reflexivity|]. apply Forall_app. split; [assumption|].
    now repeat constructor.
  - unfold ConvertCoords in Hop. case_bool_decide.
    + now injection Hop as _ <- _.
    + destruct (ConvertCoords_loop_shape f (ContourCount g) 0 (m_contour_array g) s)
        as (r0 & arr' & s0 & E & Hsh & _); [unfold ContourCount; lia|].
      rewrite E in Hop. injection Hop as _ <- _. cbn [m_contour_array].
      apply (Hshape (m_contour_array g)); [|exact IH].
      eapply Forall2_impl; [exact Hsh|]. now intros c c' [Hl _].
Qed.

(** X23: for an object built by the constructors and member functions
    other than [Reverse], [IsEmpty] tells whether the object holds no point
    at all, and an empty object holds exactly one, empty, contour. [Reverse]
    breaks this: when a point has been appended and a new contour begun, the
    reversed object reports that it is empty although it holds that point. *)
Theorem IsEmpty_built (g : geometry) :
  built Map g ->
  (IsEmpty g = Some true <-> concat (m_contour_array g) = []) /\
  (IsEmpty g = Some true -> m_contour_array g = [[]]) /\
  (exists b, IsEmpty g = Some b) /\
  (forall p, exists g1 g2,
     AppendPoint g p = Some g1 /\ BeginContour g1 = Some g2 /\
     IsEmpty g2 = Some false /\
     IsEmpty (Reverse g2) = Some true /\
     p ∈ concat (m_contour_array (Reverse g2))).
Proof.
  intros Hb. destruct (built_inner_contours g Hb) as (done & cur & Harr & Hdone).
  destruct g as [arr t cl]. cbn [m_contour_array] in *. subst arr.
  unfold IsEmpty; cbn [m_contour_array].
  assert (Hempty : (done ++ [cur]) !! 0%nat = Some [] -> done = [] /\ cur = []).
  { destruct done as [|c done]; cbn.
    - now intros [= ->].
    - intros [= ->]. inversion Hdone; subst. congruence. }
  split; [|split; [|split]].
  - split.
    + destruct ((done ++ [cur]) !! 0%nat) as [c|] eqn:E; [|discriminate].
      cbn. intros [= Hc]. apply bool_decide_eq_true in Hc. subst c.
      destruct (Hempty eq_refl) as [-> ->]. reflexivity.
    + intros Hc. destruct done as [|c done]; cbn in *.
      * rewrite app_nil_r in Hc. subst cur. reflexivity.
      * inversion Hdone; subst. destruct c; [congruence|discriminate].
  - destruct ((done ++ [cur]) !! 0%nat) as [c|] eqn:E; [|discriminate].
    cbn. intros [= Hc]. apply bool_decide_eq_true in Hc. subst c.
    now destruct (Hempty eq_refl) as [-> ->].
  - destruct done; cbn; eauto.
  - intros p. rewrite AppendPoint_snoc.
    eexists _, _. split; [reflexivity|]. rewrite BeginContour_snoc.
    destruct (cur ++ [p]) as [|q0 cur'] eqn:Ecur; [now destruct cur|].
    cbv iota. rewrite <- Ecur.
    split; [reflexivity|]. cbn [m_contour_array].
    split.
    { destruct done as [|c done]; cbn.
      - rewrite Ecur. reflexivity.
      - inversion Hdone; subst. now rewrite bool_decide_eq_false_2. }
    unfold Reverse; cbn [m_contour_array].
    split; [now rewrite reverse_snoc|].
    apply list_elem_of_In, in_concat. exists (reverse (cur ++ [p])).
    split; apply list_elem_of_In.
    + apply list_elem_of_fmap_2, elem_of_reverse, elem_of_app. left.
      apply elem_of_app. right. apply list_elem_of_here.
    + apply elem_of_reverse, elem_of_app. right. apply list_elem_of_here.
Qed.
End GeometryOperations.

Section GeometryOperationsExamples.
Import Geometry.

Local Abbreviation geometry := (CGeneralGeometry bool Z).
Local Abbreviation pt x y := (PointFP (coord := Z) x y Path.OnCurve).

Lemma AppendPoint_GetPoint_witness :
  let g : geometry := Geom [[pt 1 2]; [pt 3 4]] true false in
  let p := pt 5 6 in
  (1 <= ContourCount g)%nat /\
  exists g' n,
    AppendPoint g p = Some g' /\
    ContourCount g' = ContourCount g /\
    CoordType g' = CoordType g /\ IsClosed g' = IsClosed g /\
    PointCount g (ContourCount g - 1) = Some n /\
    PointCount g' (ContourCount g - 1) = Some (S n) /\
    GetPoint g' (ContourCount g - 1) n = Some p /\
    (forall i j q, GetPoint g i j = Some q -> GetPoint g' i j = Some q) /\
    (forall i, i <> (ContourCount g - 1)%nat -> PointCount g' i = PointCount g i) /\
    exists g'',
      BeginContour g' = Some g'' /\
      ContourCount g'' = S (ContourCount g) /\
      PointCount g'' (ContourCount g) = Some 0%nat /\
      (forall i j, (i < ContourCount g)%nat -> GetPoint g'' i j = GetPoint g' i j) /\
      BeginContour g'' = Some g''.
Proof.
  intros g p.
  assert (H : (1 <= ContourCount g)%nat) by (cbn; lia).
  exact (conj H (AppendPoint_GetPoint g p H)).
Defined.

Lemma IsEmpty_built_witness :
  let g : geometry := Geom [[pt 1 2]; []] true false in
  built true g /\
  (IsEmpty g = Some true <-> concat (m_contour_array g) = []) /\
  (IsEmpty g = Some true -> m_contour_array g = [[]]) /\
  (exists b, IsEmpty g = Some b) /\
  (forall p, exists g1 g2,
     AppendPoint g p = Some g1 /\ BeginContour g1 = Some g2 /\
     IsEmpty g2 = Some false /\
     IsEmpty (Reverse g2) = Some true /\
     p ∈ concat (m_contour_array (Reverse g2))).
Proof.
  intros g.
  assert (H : built true g).
  { apply (built_BeginContour _ _ _ (Geom [[pt 1 2]] true false)); [|reflexivity].
    apply (built_AppendPoint _ _ _ (Create true) (pt 1 2)); [|reflexivity].
    apply built_Create. }
  exact (conj H (IsEmpty_built true g H)).
Defined.
End GeometryOperationsExamples.

(** ** Data input streams *)

Section StreamProperties.
Import Stream.

Lemma u8_range (b : Byte.byte) : 0 <= u8 b < 256.
Proof.
  unfold u8. pose proof (Byte.to_N_bounded b) as H.
  split; [apply N2Z.is_nonneg|]. lia.
Qed.

Lemma lor_mul_add (a b n : Z) :
  0 <= n -> 0 <= b < 2 ^ n -> Z.lor (a * 2 ^ n) b = a * 2 ^ n + b.
Proof.
  intros Hn Hb.
  assert (Hland : Z.land (a * 2 ^ n) b = 0).
  { apply Z.bits_inj'. intros i Hi. rewrite Z.land_spec, Z.bits_0.
    destruct (Z.lt_ge_cases i n) as [Hlt|Hge].
    - now rewrite Z.mul_pow2_bits_low.
    - rewrite andb_false_iff. right.
      destruct (Z.eq_dec b 0) as [->|Hb0]; [apply Z.bits_0|].
      apply Z.bits_above_log2; [lia|].
      apply Z.log2_lt_pow2; [lia|].
      apply Z.lt_le_trans with (2 ^ n); [lia|].
      apply Z.pow_le_mono_r; lia. }
  rewrite <- Z.lxor_lor by assumption.
  symmetry. now apply Z.add_nocarry_lxor.
Qed.

Lemma big_endian_16 (b0 b1 : Byte.byte) :
  wrapu16 (Z.lor (Z.shiftl (u8 b0) 8) (u8 b1)) = u8 b0 * 2 ^ 8 + u8 b1.
Proof.
  pose proof (u8_range b0). pose proof (u8_range b1).
  rewrite Z.shiftl_mul_pow2, lor_mul_add by lia.
  unfold wrapu16. apply Z.mod_small. lia.
Qed.

Lemma big_endian_32 (b0 b1 b2 b3 : Byte.byte) :
  wrapu32
    (Z.lor (Z.lor (Z.lor (wrapu32 (Z.shiftl (u8 b0) 24)) (wrapu32 (Z.shiftl (u8 b1) 16)))
                  (Z.shiftl (u8 b2) 8))
           (u8 b3)) =
  u8 b0 * 2 ^ 24 + u8 b1 * 2 ^ 16 + u8 b2 * 2 ^ 8 + u8 b3.
Proof.
  pose proof (u8_range b0). pose proof (u8_range b1).
  pose proof (u8_range b2). pose proof (u8_range b3).
  rewrite !Z.shiftl_mul_pow2 by lia. unfold wrapu32.
  rewrite (Z.mod_small (u8 b0 * 2 ^ 24)), (Z.mod_small (u8 b1 * 2 ^ 16)) by lia.
  replace (Z.lor (u8 b0 * 2 ^ 24) (u8 b1 * 2 ^ 16))
    with ((u8 b0 * 2 ^ 8 + u8 b1) * 2 ^ 16).
  2:{ replace (u8 b0 * 2 ^ 24) with (u8 b0 * 2 ^ 8 * 2 ^ 16) by lia.
      rewrite <- !Z.shiftl_mul_pow2, <- Z.shiftl_lor by lia.
      rewrite !Z.shiftl_mul_pow2, lor_mul_add by lia. reflexivity. }
  replace (Z.lor ((u8 b0 * 2 ^ 8 + u8 b1) * 2 ^ 16) (u8 b2 * 2 ^ 8))
    with (((u8 b0 * 2 ^ 8 + u8 b1) * 2 ^ 8 + u8 b2) * 2 ^ 8).
  2:{ replace ((u8 b0 * 2 ^ 8 + u8 b1) * 2 ^ 16)
        with ((u8 b0 * 2 ^ 8 + u8 b1) * 2 ^ 8 * 2 ^ 8) by lia.
      rewrite <- !Z.shiftl_mul_pow2, <- Z.shiftl_lor by lia.
      rewrite !Z.shiftl_mul_pow2, lor_mul_add by lia. reflexivity. }
  rewrite lor_mul_add by lia.
  rewrite Z.mod_small by lia. lia.
Qed.

Lemma big_endian_40 (b0 b1 b2 b3 b4 : Byte.byte) :
  wrapu64
    (Z.lor (Z.lor (Z.lor (Z.lor (wrapu64 (Z.shiftl (u8 b0) 32))
                                (wrapu64 (Z.shiftl (u8 b1) 24)))
                         (wrapu64 (Z.shiftl (u8 b2) 16)))
                  (Z.shiftl (u8 b3) 8))
           (u8 b4)) =
  u8 b0 * 2 ^ 32 + u8 b1 * 2 ^ 24 + u8 b2 * 2 ^ 16 + u8 b3 * 2 ^ 8 + u8 b4.
Proof.
  pose proof (u8_range b0). pose proof (u8_range b1).
  pose proof (u8_range b2). pose proof (u8_range b3). pose proof (u8_range b4).
  rewrite !Z.shiftl_mul_pow2 by lia. unfold wrapu64.
  rewrite (Z.mod_small (u8 b0 * 2 ^ 32)), (Z.mod_small (u8 b1 * 2 ^ 24)),
    (Z.mod_small (u8 b2 * 2 ^ 16)) by lia.
  replace (Z.lor (u8 b0 * 2 ^ 32) (u8 b1 * 2 ^ 24))
    with ((u8 b0 * 2 ^ 8 + u8 b1) * 2 ^ 24).
  2:{ replace (u8 b0 * 2 ^ 32) with (u8 b0 * 2 ^ 8 * 2 ^ 24) by lia.
      rewrite <- !Z.shiftl_mul_pow2, <- Z.shiftl_lor by lia.
      rewrite !Z.shiftl_mul_pow2, lor_mul_add by lia. reflexivity. }
  replace (Z.lor ((u8 b0 * 2 ^ 8 + u8 b1) * 2 ^ 24) (u8 b2 * 2 ^ 16))
    with (((u8 b0 * 2 ^ 8 + u8 b1) * 2 ^ 8 + u8 b2) * 2 ^ 16).
  2:{ replace ((u8 b0 * 2 ^ 8 + u8 b1) * 2 ^ 24)
        with ((u8 b0 * 2 ^ 8 + u8 b1) * 2 ^ 8 * 2 ^ 16) by lia.
      rewrite <- !Z.shiftl_mul_pow2, <- Z.shiftl_lor by lia.
      rewrite !Z.shiftl_mul_pow2, lor_mul_add by lia. reflexivity. }
  replace (Z.lor (((u8 b0 * 2 ^ 8 + u8 b1) * 2 ^ 8 + u8 b2) * 2 ^ 16) (u8 b3 * 2 ^ 8))
    with ((((u8 b0 * 2 ^ 8 + u8 b1) * 2 ^ 8 + u8 b2) * 2 ^ 8 + u8 b3) * 2 ^ 8).
  2:{ replace (((u8 b0 * 2 ^ 8 + u8 b1) * 2 ^ 8 + u8 b2) * 2 ^ 16)
        with (((u8 b0 * 2 ^ 8 + u8 b1) * 2 ^ 8 + u8 b2) * 2 ^ 8 * 2 ^ 8) by lia.
      rewrite <- !Z.shiftl_mul_pow2, <- Z.shiftl_lor by lia.
      rewrite !Z.shiftl_mul_pow2, lor_mul_add by lia. reflexivity. }
  rewrite lor_mul_add by lia.
  rewrite Z.mod_small by lia. lia.
Qed.

Lemma wrap64_add_l (x y : Z) : wrap64 (wrap64 x + y) = wrap64 (x + y).
Proof.
  unfold wrap64. f_equal.
  replace ((x + 2 ^ 63) mod 2 ^ 64 - 2 ^ 63 + y + 2 ^ 63)
    with ((x + 2 ^ 63) mod 2 ^ 64 + y) by lia.
  rewrite Zplus_mod_idemp_l. f_equal. lia.
Qed.

Lemma advance_advance (s : TDataInputStream) (n m : nat) :
  advance (advance s n) m = advance s (n + m).
Proof.
  unfold advance; cbn [iData iDataOffset iDataPosition].
  destruct (iData s) as [data|]; cbn [fmap option_fmap option_map];
    rewrite ?drop_drop; f_equal; lia.
Qed.

Lemma advance_0 (s : TDataInputStream) : advance s 0 = s.
Proof.
  destruct s as [[data|] off pos]; unfold advance;
    cbn [iData iDataOffset iDataPosition fmap option_fmap option_map drop];
    f_equal; lia.
Qed.

Section Helpers.
Variable ReadUint8Helper : TDataInputStream -> Z * Geometry.TResult * TDataInputStream.
Variable ReadUint16BigEndianHelper :
  TDataInputStream -> Z * Geometry.TResult * TDataInputStream.
Variable ReadUint32BigEndianHelper :
  TDataInputStream -> Z * Geometry.TResult * TDataInputStream.
Variable ReadUint40BigEndianHelper :
  TDataInputStream -> Z * Geometry.TResult * TDataInputStream.

Local Abbreviation ReadUint8 := (Stream.ReadUint8 ReadUint8Helper).
Local Abbreviation ReadUint16BigEndian :=
  (Stream.ReadUint16BigEndian ReadUint16BigEndianHelper).
Local Abbreviation ReadUint32BigEndian :=
  (Stream.ReadUint32BigEndian ReadUint32BigEndianHelper).
Local Abbreviation ReadUint40BigEndian :=
  (Stream.ReadUint40BigEndian ReadUint40BigEndianHelper).
Local Abbreviation ReadFilePos := (Stream.ReadFilePos ReadUint32BigEndianHelper).

(** X24: with four or more bytes cached, ReadUint32BigEndian returns the
    big-endian value b0*2^24 + b1*2^16 + b2*2^8 + b3 of the next four bytes,
    sets the error to zero and moves on by four bytes, without any use of a
    helper function. The value is below 2^32 and determines the four bytes.
    Two calls of ReadUint16BigEndian, or four of ReadUint8, read the same
    bytes and leave the same stream, and their values are the 16-bit halves
    and the bytes of that value; ReadFilePos is the same read. *)
Theorem ReadUint32BigEndian_value (b0 b1 b2 b3 : Byte.byte) (rest : list Byte.byte)
    (off pos : Z) :
  let s := DataInputStream (Some (b0 :: b1 :: b2 :: b3 :: rest)) off pos in
  let v := u8 b0 * 2 ^ 24 + u8 b1 * 2 ^ 16 + u8 b2 * 2 ^ 8 + u8 b3 in
  ReadUint32BigEndian s = (v, 0, advance s 4) /\
  0 <= v < 2 ^ 32 /\
  (v / 2 ^ 24 = u8 b0 /\ v / 2 ^ 16 mod 2 ^ 8 = u8 b1 /\
   v / 2 ^ 8 mod 2 ^ 8 = u8 b2 /\ v mod 2 ^ 8 = u8 b3) /\
  (let '(hi, _, s1) := ReadUint16BigEndian s in
   let '(lo, e, s2) := ReadUint16BigEndian s1 in
   hi = v / 2 ^ 16 /\ lo = v mod 2 ^ 16 /\ (hi * 2 ^ 16 + lo, e, s2) = ReadUint32BigEndian s) /\
  (let '(v0, _, s1) := ReadUint8 s in
   let '(v1, _, s2) := ReadUint8 s1 in
   let '(v2, _, s3) := ReadUint8 s2 in
   let '(v3, e, s4) := ReadUint8 s3 in
   (v0 * 2 ^ 24 + v1 * 2 ^ 16 + v2 * 2 ^ 8 + v3, e, s4) = ReadUint32BigEndian s) /\
  ReadFilePos s = (v, 0, advance s 4).
Proof.
  intros s v.
  pose proof (u8_range b0). pose proof (u8_range b1).
  pose proof (u8_range b2). pose proof (u8_range b3).
  assert (E : ReadUint32BigEndian s = (v, 0, advance s 4)).
  { unfold Stream.ReadUint32BigEndian; cbn [iData s]. now rewrite big_endian_32. }
  assert (Hv : 0 <= v < 2 ^ 32) by (subst v; lia).
  split; [exact E|]. split; [exact Hv|]. split; [|split; [|split]].
  - subst v. repeat split.
    + symmetry. apply Z.div_unique with (u8 b1 * 2 ^ 16 + u8 b2 * 2 ^ 8 + u8 b3); lia.
    + replace ((u8 b0 * 2 ^ 24 + u8 b1 * 2 ^ 16 + u8 b2 * 2 ^ 8 + u8 b3) / 2 ^ 16)
        with (u8 b0 * 2 ^ 8 + u8 b1)
        by (apply Z.div_unique with (u8 b2 * 2 ^ 8 + u8 b3); lia).
      symmetry. apply Z.mod_unique with (u8 b0); lia.
    + replace ((u8 b0 * 2 ^ 24 + u8 b1 * 2 ^ 16 + u8 b2 * 2 ^ 8 + u8 b3) / 2 ^ 8)
        with (u8 b0 * 2 ^ 16 + u8 b1 * 2 ^ 8 + u8 b2)
        by (apply Z.div_unique with (u8 b3); lia).
      symmetry. apply Z.mod_unique with (u8 b0 * 2 ^ 8 + u8 b1); lia.
    + symmetry. apply Z.mod_unique with (u8 b0 * 2 ^ 16 + u8 b1 * 2 ^ 8 + u8 b2); lia.
  - rewrite E. unfold Stream.ReadUint16BigEndian, advance;
      cbn [iData s drop fmap option_fmap option_map].
    rewrite !big_endian_16. subst v. split; [|split].
    + apply Z.div_unique with (u8 b2 * 2 ^ 8 + u8 b3); lia.
    + apply Z.mod_unique with (u8 b0 * 2 ^ 8 + u8 b1); lia.
    + cbn [iDataOffset iDataPosition]. f_equal; [f_equal; lia|]. f_equal. lia.
  - rewrite E. unfold Stream.ReadUint8, advance;
      cbn [iData s drop iDataOffset iDataPosition fmap option_fmap option_map].
    subst v. f_equal. f_equal. lia.
  - unfold Stream.ReadFilePos. fold ReadUint32BigEndian. rewrite E. f_equal. f_equal.
    unfold wrap64. rewrite Z.mod_small by lia. lia.
Qed.

(** X25: with five or more bytes cached, ReadUint40BigEndian returns the
    big-endian value of the next five bytes, below 2^40, sets the error to
    zero and moves on by five bytes, without any use of a helper function.
    It is the first byte times 2^32 plus what ReadUint32BigEndian reads
    after ReadUint8, and leaves the stream as those two calls do. *)
Theorem ReadUint40BigEndian_value (b0 b1 b2 b3 b4 : Byte.byte) (rest : list Byte.byte)
    (off pos : Z) :
  let s := DataInputStream (Some (b0 :: b1 :: b2 :: b3 :: b4 :: rest)) off pos in
  let v := u8 b0 * 2 ^ 32 + u8 b1 * 2 ^ 24 + u8 b2 * 2 ^ 16 + u8 b3 * 2 ^ 8 + u8 b4 in
  ReadUint40BigEndian s = (v, 0, advance s 5) /\
  0 <= v < 2 ^ 40 /\
  (let '(hi, _, s1) := ReadUint8 s in
   let '(lo, e, s2) := ReadUint32BigEndian s1 in
   hi = v / 2 ^ 32 /\ lo = v mod 2 ^ 32 /\
   (hi * 2 ^ 32 + lo, e, s2) = ReadUint40BigEndian s).
Proof.
  intros s v.
  pose proof (u8_range b0). pose proof (u8_range b1). pose proof (u8_range b2).
  pose proof (u8_range b3). pose proof (u8_range b4).
  assert (E : ReadUint40BigEndian s = (v, 0, advance s 5)).
  { unfold Stream.ReadUint40BigEndian; cbn [iData s]. now rewrite big_endian_40. }
  split; [exact E|]. split; [subst v; lia|].
  rewrite E. unfold Stream.ReadUint8, Stream.ReadUint32BigEndian, advance.
  cbn [iData s drop iDataOffset iDataPosition fmap option_fmap option_map].
  rewrite big_endian_32. subst v. split; [|split].
  - apply Z.div_unique with (u8 b1 * 2 ^ 24 + u8 b2 * 2 ^ 16 + u8 b3 * 2 ^ 8 + u8 b4); lia.
  - apply Z.mod_unique with (u8 b0); lia.
  - f_equal; [f_equal; lia|]. f_equal. lia.
Qed.

(** X26: Read(n) returns a pointer to the next n bytes exactly when the
    stream holds a block ([iData] is not null) with at least n bytes still
    cached; it then leaves the bytes after them for later reads and moves
    Position on by n. Otherwise it returns null and leaves the stream as it
    is: when fewer than n bytes are cached, and also for n = 0 on a stream
    that has read no block yet (a new stream, or one just after Set).
    Reading n and then m bytes of a block is reading n+m bytes at once. In
    the same way ReadUint8, ReadUint16BigEndian, ReadUint32BigEndian and
    ReadUint40BigEndian consume nothing when fewer than 1, 2, 4 or 5 bytes
    are cached: they pass the untouched stream to their helper. *)
Theorem Read_cached (s : TDataInputStream) (n m : nat) :
  match Read s n with
  | (Some bytes, s') =>
      exists data,
        iData s = Some data /\ (n <= length data)%nat /\
        bytes = take n data /\ iData s' = Some (drop n data) /\
        iDataBytes s' = (iDataBytes s - n)%nat /\
        Position s' = wrap64 (Position s + Z.of_nat n)
  | (None, s') => s' = s /\ ((iDataBytes s < n)%nat \/ (n = 0%nat /\ iData s = None))
  end /\
  ((n + m <= iDataBytes s)%nat -> iData s <> None ->
   exists bytes1 bytes2 s1 s2,
     Read s n = (Some bytes1, s1) /\ Read s1 m = (Some bytes2, s2) /\
     Read s (n + m) = (Some (bytes1 ++ bytes2), s2)) /\
  Read Create n = (None, Create) /\
  Read (Set_input s) n = (None, Set_input s) /\
  ((iDataBytes s < 1)%nat -> ReadUint8 s = ReadUint8Helper s) /\
  ((iDataBytes s < 2)%nat -> ReadUint16BigEndian s = ReadUint16BigEndianHelper s) /\
  ((iDataBytes s < 4)%nat -> ReadUint32BigEndian s = ReadUint32BigEndianHelper s) /\
  ((iDataBytes s < 5)%nat -> ReadUint40BigEndian s = ReadUint40BigEndianHelper s).
Proof.
  assert (Hnull : forall k, Read Create k = (None, Create)).
  { intros [|k]; reflexivity. }
  split; [|split; [|split; [|split; [|split; [|split; [|split]]]]]].
  - unfold Read. case_bool_decide as Hn; [|split; [reflexivity|left; lia]].
    destruct s as [[data|] off pos]; unfold iDataBytes in *; cbn [iData] in *.
    + cbn [fmap option_fmap option_map]. exists data.
      unfold advance, Position;
        cbn [iData iDataOffset iDataPosition fmap option_fmap option_map].
      split; [reflexivity|]. split; [assumption|]. split; [reflexivity|].
      split; [reflexivity|]. split; [apply length_drop|].
      rewrite wrap64_add_l. f_equal. lia.
    + cbn [fmap option_fmap option_map].
      assert (n = 0%nat) as -> by lia. split; [apply advance_0|]. right. auto.
  - intros Hnm Hdata. destruct s as [[data|] off pos]; [|exfalso; now apply Hdata].
    unfold Read, iDataBytes in *. cbn [iData] in *.
    rewrite !bool_decide_eq_true_2 by lia.
    cbn [fmap option_fmap option_map].
    eexists _, _, _, _. split; [reflexivity|].
    unfold advance; cbn [iData iDataOffset iDataPosition fmap option_fmap option_map].
    rewrite bool_decide_eq_true_2 by (rewrite length_drop; lia).
    split; [reflexivity|]. f_equal.
    + f_equal. symmetry. apply take_take_drop.
    + rewrite drop_drop. f_equal. lia.
  - apply Hnull.
  - apply Hnull.
  - unfold Stream.ReadUint8, iDataBytes.
    destruct (iData s) as [[|? ?]|]; cbn [length]; try reflexivity; lia.
  - unfold Stream.ReadUint16BigEndian, iDataBytes.
    destruct (iData s) as [[|? [|? ?]]|]; cbn [length]; try reflexivity; lia.
  - unfold Stream.ReadUint32BigEndian, iDataBytes.
    destruct (iData s) as [[|? [|? [|? [|? ?]]]]|]; cbn [length]; try reflexivity; lia.
  - unfold Stream.ReadUint40BigEndian, iDataBytes.
    destruct (iData s) as [[|? [|? [|? [|? [|? ?]]]]]|]; cbn [length]; try reflexivity; lia.
Qed.
End Helpers.
End StreamProperties.
